(** * doozerlib.runtime: a shallow embedding of the Runtime engine

    The development follows [doozer/doozerlib/runtime.py]: Python values are
    modelled by the closest Rocq data (str as [string], dict as [gmap] or as
    an insertion-ordered list where iteration order matters, exceptions as
    an error type), and every method that is studied is a definition of the
    same name.  Definitions come first, component by component; the
    theorems follow in the second half of the file. *)

From Stdlib Require Import String Ascii.
From stdpp Require Import base list strings gmap.
Import ListNotations.

Open Scope string_scope.

(** ** Python [str] operations used by the runtime *)

Module PyStr.

(** [s.startswith(p)] *)
Definition startswith (s p : string) : bool := String.prefix p s.

(** [s[n:]] *)
Fixpoint drop (n : nat) (s : string) : string :=
  match n, s with
  | O, _ => s
  | S _, EmptyString => EmptyString
  | S n', String _ s' => drop n' s'
  end.

(** [s[:n]] *)
Fixpoint take (n : nat) (s : string) : string :=
  match n, s with
  | O, _ => EmptyString
  | S _, EmptyString => EmptyString
  | S n', String c s' => String c (take n' s')
  end.

(** [s.endswith(p)] *)
Definition endswith (s p : string) : bool :=
  String.prefix (String.rev p) (String.rev s).

(** Truthiness of a [str]: only the empty string is falsy. *)
Definition truthy (s : string) : bool :=
  match s with EmptyString => false | _ => true end.

(** Truthiness of an optional [str] ([None] and [''] are falsy). *)
Definition otruthy (o : option string) : bool :=
  match o with Some s => truthy s | None => false end.

(** [c.isspace()] on the code points below 256. *)
Definition isspace (c : ascii) : bool :=
  let n := nat_of_ascii c in
  (((9 <=? n) && (n <=? 13)) || ((28 <=? n) && (n <=? 32))
   || (n =? 133) || (n =? 160))%nat.

Fixpoint lstrip_by (p : ascii -> bool) (s : string) : string :=
  match s with
  | EmptyString => EmptyString
  | String c s' => if p c then lstrip_by p s' else s
  end.

Definition rstrip_by (p : ascii -> bool) (s : string) : string :=
  String.rev (lstrip_by p (String.rev s)).

(** [s.strip()] *)
Definition strip (s : string) : string :=
  rstrip_by isspace (lstrip_by isspace s).

(** [s.rstrip(c)] for a one-character argument *)
Definition rstrip_char (c : ascii) (s : string) : string :=
  rstrip_by (Ascii.eqb c) s.

(** [s.split(c, 1)]: [None] when [c] does not occur, otherwise the text
    before and after its first occurrence. *)
Fixpoint split_once (c : ascii) (s : string) : option (string * string) :=
  match s with
  | EmptyString => None
  | String d s' =>
      if Ascii.eqb c d then Some (EmptyString, s')
      else match split_once c s' with
           | Some (a, b) => Some (String d a, b)
           | None => None
           end
  end.

(** [s.rsplit(c, 1)]: the same at the last occurrence. *)
Definition rsplit_once (c : ascii) (s : string) : option (string * string) :=
  match split_once c (String.rev s) with
  | Some (b, a) => Some (String.rev a, String.rev b)
  | None => None
  end.

(** [all(p(c) for c in s)] *)
Fixpoint all_chars (p : ascii -> bool) (s : string) : bool :=
  match s with
  | EmptyString => true
  | String c s' => p c && all_chars p s'
  end.

(** The double-quote character, as a one-character [str]. *)
Definition dquote : string := String (ascii_of_nat 34) EmptyString.

(** [needle in s] *)
Fixpoint contains (s needle : string) : bool :=
  String.prefix needle s ||
  match s with
  | EmptyString => false
  | String _ s' => contains s' needle
  end.

End PyStr.

(** ** artcommonlib.util *)

Module Util.
Import PyStr.

Definition remove_prefix (s p : string) : string :=
  if startswith s p then drop (String.length p) s else s.

Definition remove_prefixes (s : string) (ps : list string) : string :=
  fold_left remove_prefix ps s.

Definition remove_suffix (s p : string) : string :=
  if truthy p && endswith s p
  then take (String.length s - String.length p) s else s.

(** Modelled from the spec: [artcommonlib.util.convert_remote_git_to_https]
    is called by the runtime but its module is not among the sources.  The
    spec only says that it "normalize[s] the input URL to https form"; the
    definition below is the usual reading of that sentence: surrounding
    blanks and a trailing slash are dropped, a scheme or [git@] prefix and
    a [.git] suffix are removed, a [user@] part is dropped, and the
    separator after the server ([:] of the scp form, or the last [/]) is
    written as [/] behind [https://]. *)
Definition convert_remote_git_to_https (source_url : string) : string :=
  let url := rstrip_char "/" (strip source_url) in
  let url := remove_prefixes url
               ["http://"; "https://"; "git://"; "git@"; "ssh://"] in
  let url := remove_suffix url ".git" in
  let url := match split_once "@" url with
             | Some (_, rest) => rest
             | None => url
             end in
  match rsplit_once ":" url with
  | Some (server, org_repo) => "https://" +:+ server +:+ "/" +:+ org_repo
  | None =>
      match rsplit_once "/" url with
      | Some (server, org_repo) => "https://" +:+ server +:+ "/" +:+ org_repo
      | None => "https://" +:+ url
      end
  end.

End Util.

(** ** Public-upstream translation *)

Module Upstream.
Import PyStr.

(** One entry of [group_config.public_upstreams]. *)
Record upstream := {
  private : string;
  public : string;
  public_branch : option string
}.

(** The three loop variables [target_priv_prefix], [target_pub_prefix]
    and [target_pub_branch]; they start as [None] and are always assigned
    together. *)
Record target := {
  target_priv_prefix : string;
  target_pub_prefix : string;
  target_pub_branch : option string
}.

Section WithNormaliser.
(** [artcommonlib.util.convert_remote_git_to_https] *)
Variable convert_remote_git_to_https : string -> string.

(** [not target_priv_prefix] *)
Definition unset (t : option target) : bool :=
  match t with
  | None => true
  | Some t => negb (truthy (target_priv_prefix t))
  end.

(** [len(https_priv_prefix) > len(target_pub_prefix)]; only evaluated
    once the target has been assigned. *)
Definition longer_than_contender (https_priv_prefix : string)
    (t : option target) : bool :=
  match t with
  | None => false
  | Some t =>
      (String.length (target_pub_prefix t)
         <? String.length https_priv_prefix)%nat
  end.

(** The body of the [for upstream in ...public_upstreams] loop. *)
Definition consider (remote_https : string) (t : option target)
    (u : upstream) : option target :=
  let https_priv_prefix := convert_remote_git_to_https (private u) in
  let https_pub_prefix := convert_remote_git_to_https (public u) in
  if startswith remote_https (https_priv_prefix +:+ "/")
     || String.eqb remote_https https_priv_prefix
  then
    if unset t || longer_than_contender https_priv_prefix t
    then Some {| target_priv_prefix := https_priv_prefix;
                 target_pub_prefix := https_pub_prefix;
                 target_pub_branch := public_branch u |}
    else t
  else t.

(** [Runtime.get_public_upstream]; [public_upstreams] is the list in
    the group configuration (empty when the key is missing). *)
Definition get_public_upstream (public_upstreams : list upstream)
    (remote_git : string) : string * option string :=
  let remote_https := convert_remote_git_to_https remote_git in
  match public_upstreams with
  | [] => (remote_https, None)
  | _ =>
      match fold_left (consider remote_https) public_upstreams None with
      | Some t =>
          if truthy (target_priv_prefix t)
          then (target_pub_prefix t
                  +:+ drop (String.length (target_priv_prefix t)) remote_https,
                target_pub_branch t)
          else (remote_https, None)
      | None => (remote_https, None)
      end
  end.

(** The test of the loop body: the rule's normalised private prefix
    matches the normalised remote on whole path segments. *)
Definition matches (remote_git : string) (u : upstream) : bool :=
  let remote_https := convert_remote_git_to_https remote_git in
  let p := convert_remote_git_to_https (private u) in
  startswith remote_https (p +:+ "/") || String.eqb remote_https p.

(** The substitution performed with one given rule. *)
Definition substitute_with (u : upstream) (remote_git : string)
    : string * option string :=
  let remote_https := convert_remote_git_to_https remote_git in
  let p := convert_remote_git_to_https (private u) in
  (convert_remote_git_to_https (public u)
     +:+ drop (String.length p) remote_https,
   public_branch u).

End WithNormaliser.

(** The rule of the example in the documentation. *)
Definition org_rule (pb : option string) : upstream :=
  {| private := "git@github.com:org";
     public := "https://example.com/pub";
     public_branch := pb |}.

(** Two rules, the second private prefix a strict extension of the
    first, and the first public prefix longer than both. *)
Definition org_wide : upstream :=
  {| private := "https://github.com/org";
     public := "https://gitlab.example.com/public-org";
     public_branch := None |}.

Definition one_repo : upstream :=
  {| private := "https://github.com/org/repo";
     public := "https://github.com/pub/repo";
     public_branch := Some "main" |}.

End Upstream.

(** ** Exceptions and effects *)

Module Py.

(** The exceptions raised by the code under study, with their message. *)
Inductive exn :=
| DoozerFatalError (msg : string)
| ValueError (msg : string)
| IOError (msg : string)
| IndexError (msg : string).

(** A computation that may raise. *)
Definition result (A : Type) : Type := exn + A.

(** A [for x in l: body] loop over a state, left by the first [raise]. *)
Fixpoint for_each {S A : Type} (body : S -> A -> result S) (l : list A)
    (st : S) : result S :=
  match l with
  | [] => inr st
  | x :: l' =>
      match body st x with
      | inl e => inl e
      | inr st' => for_each body l' st'
      end
  end.

(** [d[key] = v] on a dict kept as the list of its items in insertion
    order: a present key keeps its place. *)
Fixpoint dict_set {K V : Type} `{EqDecision K} (key : K) (v : V)
    (d : list (K * V)) : list (K * V) :=
  match d with
  | [] => [(key, v)]
  | (k, w) :: d' =>
      if decide (k = key) then (k, v) :: d'
      else (k, w) :: dict_set key v d'
  end.

(** [d.popitem()]: the item inserted last and the remaining dict; [None]
    stands for the [KeyError] of an empty dict. *)
Fixpoint popitem {K V : Type} (d : list (K * V))
    : option ((K * V) * list (K * V)) :=
  match d with
  | [] => None
  | [kv] => Some (kv, [])
  | kv :: d' =>
      match popitem d' with
      | Some (last, rest) => Some (last, kv :: rest)
      | None => None
      end
  end.

(** [s.split(c)] *)
Fixpoint split_char (c : ascii) (s : string) : list string :=
  match s with
  | EmptyString => [EmptyString]
  | String d s' =>
      if Ascii.eqb c d then EmptyString :: split_char c s'
      else match split_char c s' with
           | [] => [String d EmptyString]
           | w :: ws => String d w :: ws
           end
  end.

End Py.

(** ** Source branch detection *)

Module Branch.
Import PyStr Py.

(** *** [int(branch, 16)]

    Python's integer parser on a [str] of code points below 256: white
    space around the literal, one sign, an optional [0x] prefix, and
    hexadecimal digits that single underscores may separate. *)

(** C [isspace] in the C locale, the white space of the parser proper. *)
Definition is_c_space (c : ascii) : bool :=
  let n := nat_of_ascii c in
  (((9 <=? n) && (n <=? 13)) || (n =? 32))%nat.

(** The white space that [int] skips around the literal.  Before it
    parses, [int] turns the characters from 128 on that are Unicode white
    space (below 256: U+0085 and U+00A0) into blanks; the characters
    below 128 are left as they are, so that of them only the C white
    space is skipped. *)
Definition is_int_space (c : ascii) : bool :=
  let n := nat_of_ascii c in
  (is_c_space c || (n =? 133) || (n =? 160))%nat.

Definition is_hex_digit (c : ascii) : bool :=
  let n := nat_of_ascii c in
  (((48 <=? n) && (n <=? 57)) || ((65 <=? n) && (n <=? 70))
   || ((97 <=? n) && (n <=? 102)))%nat.

Definition skip_sign (s : string) : string :=
  match s with
  | String c s' => if Ascii.eqb c "+" || Ascii.eqb c "-" then s' else s
  | EmptyString => s
  end.

(** The [0x]/[0X] prefix, after which one underscore is allowed. *)
Definition skip_hex_prefix (s : string) : string :=
  match s with
  | String z (String c s') =>
      if Ascii.eqb z "0" && (Ascii.eqb c "x" || Ascii.eqb c "X")
      then match s' with
           | String u s'' => if Ascii.eqb u "_" then s'' else s'
           | EmptyString => s'
           end
      else s
  | _ => s
  end.

(** The digit scan: [prev_us] tells that the previous character was an
    underscore, [digits] counts the digits read.  [None] is a syntax
    error; otherwise the number of digits and the unread text. *)
Fixpoint scan_digits (prev_us : bool) (digits : nat) (s : string)
    : option (nat * string) :=
  match s with
  | EmptyString => if prev_us then None else Some (digits, s)
  | String c s' =>
      if Ascii.eqb c "_" then
        if prev_us then None else scan_digits true digits s'
      else if is_hex_digit c then scan_digits false (S digits) s'
      else if prev_us then None else Some (digits, s)
  end.

(** [True] when [int(s, 16)] returns, [False] when it raises
    [ValueError]. *)
Definition int16_parses (s : string) : bool :=
  let s := lstrip_by is_int_space s in
  let s := skip_sign s in
  let s := skip_hex_prefix s in
  if startswith s "_" then false
  else
    match scan_digits false 0 s with
    | None => false
    | Some (O, _) => false
    | Some (S _, rest) =>
        match lstrip_by is_int_space rest with
        | EmptyString => true
        | _ => false
        end
    end.

(** [Runtime.is_branch_commit_hash] *)
Definition is_branch_commit_hash (branch : string) : bool :=
  if (7 <=? String.length branch)%nat then
    if int16_parses branch then true else false
  else false.

(** *** The remote *)

(** [source_details["branch"]] *)
Record branches := {
  target : string;
  fallback : option string;
  stage : option string
}.

Record source_details := {
  url : string;
  branch : branches
}.

(** One [git ls-remote --heads url branch] invocation. *)
Inductive event := LsRemote (git_url branch : string).

(** A computation that queries the remote: the queries made, in order,
    and the value returned or the exception raised. *)
Definition M (A : Type) : Type := list event * result A.

Definition ret {A} (a : A) : M A := ([], inr a).
Definition raise {A} (e : exn) : M A := ([], inl e).
Definition bind {A B} (m : M A) (k : A -> M B) : M B :=
  match m with
  | (t, inl e) => (t, inl e)
  | (t, inr a) => let '(t', r) := k a in ((t ++ t')%list, r)
  end.

Notation "'let*' x ':=' m 'in' k" := (bind m (fun x => k))
  (at level 10, x name, m at level 100, k at level 200).

(** [result.split()[0]] for a stripped, non-empty [result]. *)
Fixpoint first_token (s : string) : string :=
  match s with
  | EmptyString => EmptyString
  | String c s' => if isspace c then EmptyString else String c (first_token s')
  end.

Section WithRemote.
(** The outcome of [exectools.cmd_assert('git ls-remote --heads ...',
    retries=3)]: its standard output, or [None] when it raises. *)
Variable ls_remote : string -> string -> option string.

(** [Runtime._get_remote_branch_ref] *)
Definition _get_remote_branch_ref (git_url branch : string)
    : M (option string) :=
  ([LsRemote git_url branch],
   inr match ls_remote git_url branch with
       | None => None
       | Some out =>
           let result := strip out in
           if negb (truthy result) && is_branch_commit_hash branch
           then Some branch
           else if truthy result then Some (first_token result) else None
       end).

(** [Runtime.detect_remote_source_branch]; [stage_opt] is [self.stage]
    and [use_source_fallback_branch] the group configuration key
    ([None] when missing). *)
Definition detect_remote_source_branch (stage_opt : bool)
    (use_source_fallback_branch : option string) (sd : source_details)
    : M (string * string) :=
  let git_url := url sd in
  let branches := branch sd in
  let branch := target branches in
  let fallback_branch := fallback branches in
  let '(branch, fallback_branch) :=
    if bool_decide (use_source_fallback_branch = Some "always")
       && otruthy fallback_branch
    then (default "" fallback_branch, None)
    else if bool_decide (use_source_fallback_branch = Some "never")
    then (branch, None)
    else (branch, fallback_branch) in
  let stage_branch := if stage_opt then stage branches else None in
  if otruthy stage_branch then
    let stage_branch := default "" stage_branch in
    let* result := _get_remote_branch_ref git_url stage_branch in
    if otruthy result then ret (stage_branch, default "" result)
    else raise (DoozerFatalError
           ("--stage option specified and no stage branch named "
              +:+ dquote +:+ stage_branch +:+ dquote
              +:+ " exists for " +:+ git_url))
  else if is_branch_commit_hash branch then ret (branch, branch)
  else
    let* result := _get_remote_branch_ref git_url branch in
    if otruthy result then ret (branch, default "" result)
    else if negb (otruthy fallback_branch) then
      raise (DoozerFatalError
               ("Requested target branch " +:+ branch
                  +:+ " does not exist and no fallback provided"))
    else
      let fallback_branch := default "" fallback_branch in
      let* result := _get_remote_branch_ref git_url fallback_branch in
      if otruthy result then ret (fallback_branch, default "" result)
      else raise (DoozerFatalError
             ("Requested fallback branch " +:+ branch
                +:+ " does not exist")).

End WithRemote.

(** *** Remotes and configurations used in the examples *)

(** A remote without any head: [git ls-remote] prints nothing. *)
Definition no_heads (git_url branch : string) : option string := Some "".

(** A remote that cannot be reached: every query raises. *)
Definition unreachable (git_url branch : string) : option string := None.

(** A remote whose only head is [main]. *)
Definition only_main (git_url branch : string) : option string :=
  if String.eqb branch "main"
  then Some ("7e66b10fbcd6bb4988275ffad0a69f563695901f"
               +:+ String (ascii_of_nat 9) "refs/heads/main"
               +:+ String (ascii_of_nat 10) "")
  else Some "".


Definition details (t : string) (fb : option string) : source_details :=
  {| url := "https://github.com/org/repo";
     branch := {| target := t; fallback := fb; stage := None |} |}.

(** The same with a stage branch. *)
Definition staged (t st : string) : source_details :=
  {| url := "https://github.com/org/repo";
     branch := {| target := t; fallback := None; stage := Some st |} |}.

(** Branch names that [int(_, 16)] reads although they are not made of
    hexadecimal digits only; the last one starts with U+00A0. *)
Definition odd_hashes : list string :=
  ["+abcdef1"; "-abcdef1"; "0xabcdef"; "0Xabcdef"; "abc_def1"; " abcdef1 ";
   String (ascii_of_nat 160) "abcdef1"].

End Branch.

(** ** Assembly name validation *)

Module Assembly.
Import PyStr Py.

(** The part of Python's [re] syntax the runtime's patterns use. *)
Inductive regex :=
| Empty
| Eps
| Class (p : ascii -> bool)
| Seq (r1 r2 : regex)
| Alt (r1 r2 : regex)
| Star (r : regex).

(** [r+] *)
Definition Plus (r : regex) : regex := Seq r (Star r).

Fixpoint nullable (r : regex) : bool :=
  match r with
  | Empty => false
  | Eps => true
  | Class _ => false
  | Seq r1 r2 => nullable r1 && nullable r2
  | Alt r1 r2 => nullable r1 || nullable r2
  | Star _ => true
  end.

Fixpoint deriv (c : ascii) (r : regex) : regex :=
  match r with
  | Empty => Empty
  | Eps => Empty
  | Class p => if p c then Eps else Empty
  | Seq r1 r2 =>
      if nullable r1
      then Alt (Seq (deriv c r1) r2) (deriv c r2)
      else Seq (deriv c r1) r2
  | Alt r1 r2 => Alt (deriv c r1) (deriv c r2)
  | Star r1 => Seq (deriv c r1) (Star r1)
  end.

(** [re.fullmatch(r, s) is not None] *)
Fixpoint fullmatch (r : regex) (s : string) : bool :=
  match s with
  | EmptyString => nullable r
  | String c s' => fullmatch (deriv c r) s'
  end.

Section WithUnicode.
(** [str.isalnum] on the code points from 128 on, a table of the Python
    runtime. *)
Variable isalnum_high : ascii -> bool.

(** The class [\w] of a [str] pattern. *)
Definition is_word (c : ascii) : bool :=
  let n := nat_of_ascii c in
  if (n <? 128)%nat then
    (((48 <=? n) && (n <=? 57)) || ((65 <=? n) && (n <=? 90))
     || ((97 <=? n) && (n <=? 122)) || (n =? 95))%nat
  else isalnum_high c.

(** The class [[\w.]] *)
Definition word_or_dot (c : ascii) : bool := is_word c || Ascii.eqb c ".".

(** The pattern [[\w.]+] *)
Definition assembly_pattern : regex := Plus (Class word_or_dot).

(** [s[0] == '.'] *)
Definition first_is_dot (s : string) : bool :=
  match s with
  | String c _ => Ascii.eqb c "."
  | EmptyString => false
  end.

(** [s[-1] == '.'] *)
Definition last_is_dot (s : string) : bool :=
  first_is_dot (String.rev s).

(** The assembly check of [Runtime.initialize]: the value left in
    [self.assembly], or the [ValueError].  The two index tests are only
    reached by a non-empty name, as [or] stops at the failed match. *)
Definition check_assembly (assemblies_enabled enable_assemblies : bool)
    (assembly : string) : result (option string) :=
  if assemblies_enabled || enable_assemblies then
    if negb (fullmatch assembly_pattern assembly)
       || first_is_dot assembly || last_is_dot assembly
    then inl (ValueError "Assembly names may only consist of alphanumerics, ., and _, but not start or end with a dot (.).")
    else inr (Some assembly)
  else inr None.

End WithUnicode.

(** A runtime table without alphanumerics from 128 on (plain ASCII). *)
Definition ascii_only (c : ascii) : bool := false.

End Assembly.

(** ** The image tree and the build order *)

Module ImageTree.
Import PyStr Py.
Local Open Scope list_scope.

(** The fields of [ImageMetadata] the tree is built from.  The objects of
    [image_map] are named by their [distgit_key]; [parent] and [children]
    hold the keys of the objects they refer to. *)
Record ImageMetadata := {
  distgit_key : string;
  parent : option string;
  children : list string
}.

(** [self.image_map]: the values of the dict in insertion order. *)
Abbreviation image_map_t := (list ImageMetadata).

(** [self.image_map[key]], [None] when [key not in self.image_map]. *)
Fixpoint lookup_image (key : string) (image_map : image_map_t)
    : option ImageMetadata :=
  match image_map with
  | [] => None
  | i :: rest =>
      if String.eqb (distgit_key i) key then Some i
      else lookup_image key rest
  end.

(** [self.image_tree] and its branches: dicts from a key to a dict. *)
#[warnings="-register-all"]
Inductive tree := Tree (branches : list (string * tree)).

(** [image_lists], a dict keyed by the levels [0 .. n-1], as the list of
    its values in key order. *)
Abbreviation image_lists_t := (list (list string)).

(** [if level not in image_lists: image_lists[level] = []] *)
Definition ensure_level (level : nat) (image_lists : image_lists_t)
    : image_lists_t :=
  if decide (level < length image_lists) then image_lists
  else image_lists ++ replicate (S level - length image_lists) [].

(** [image_lists[level].append(key)] *)
Definition append_at (level : nat) (key : string)
    (image_lists : image_lists_t) : image_lists_t :=
  alter (fun l => l ++ [key]) level image_lists.

(** The loop [for sub_child in child.children] of [add_child_branch];
    [recurse] is the recursive call on a sub-child, which returns the
    contents of the new branch [branch[sub_child.distgit_key]]. *)
Fixpoint for_children
    (recurse : ImageMetadata -> image_lists_t
               -> option (list (string * tree) * image_lists_t))
    (image_map : image_map_t) (level : nat) (subs : list string)
    (branch : list (string * tree)) (image_lists : image_lists_t)
    : option (list (string * tree) * image_lists_t) :=
  match subs with
  | [] => Some (branch, image_lists)
  | key :: subs' =>
      match lookup_image key image_map with
      | None => for_children recurse image_map level subs' branch image_lists
      | Some sub_child =>
          let image_lists := append_at level key image_lists in
          match recurse sub_child image_lists with
          | None => None
          | Some (sub_branch, image_lists) =>
              for_children recurse image_map level subs'
                (dict_set key (Tree sub_branch) branch) image_lists
          end
      end
  end.

(** The nested function [add_child_branch(child, branch, level)].  The
    recursion of the source is bounded here by [fuel]; [None] means that
    the bound was reached.  The result is the filled [branch] and the
    updated [image_lists]. *)
Fixpoint add_child_branch (fuel : nat) (image_map : image_map_t)
    (child : ImageMetadata) (branch : list (string * tree)) (level : nat)
    (image_lists : image_lists_t)
    : option (list (string * tree) * image_lists_t) :=
  match fuel with
  | O => None
  | S fuel' =>
      let image_lists := ensure_level level image_lists in
      for_children
        (fun sub_child image_lists =>
           add_child_branch fuel' image_map sub_child [] (S level) image_lists)
        image_map level (children child) branch image_lists
  end.

(** The loop over [self.image_map.values()] that starts a branch at every
    image without parent. *)
Fixpoint add_roots (fuel : nat) (image_map : image_map_t)
    (images : list ImageMetadata) (image_tree : list (string * tree))
    (image_lists : image_lists_t)
    : option (list (string * tree) * image_lists_t) :=
  match images with
  | [] => Some (image_tree, image_lists)
  | image :: rest =>
      match parent image with
      | Some _ => add_roots fuel image_map rest image_tree image_lists
      | None =>
          let image_lists := append_at 0 (distgit_key image) image_lists in
          match add_child_branch fuel image_map image [] 1 image_lists with
          | None => None
          | Some (branch, image_lists) =>
              add_roots fuel image_map rest
                (dict_set (distgit_key image) (Tree branch) image_tree)
                image_lists
          end
      end
  end.

(** [if i not in self.image_order: self.image_order.append(i)] *)
Definition append_new (image_order : list string) (i : string)
    : list string :=
  if decide (i ∈ image_order) then image_order else image_order ++ [i].

(** The final loops: the levels in increasing order, each in its order. *)
Definition order_levels (image_lists : image_lists_t) : list string :=
  fold_left (fun image_order level => fold_left append_new level image_order)
    image_lists [].

(** [Runtime.generate_image_tree]: the new [image_tree] and
    [image_order]. *)
Definition generate_image_tree (fuel : nat) (image_map : image_map_t)
    : option (tree * list string) :=
  match add_roots fuel image_map image_map [] [[]] with
  | None => None
  | Some (image_tree, image_lists) =>
      Some (Tree image_tree, order_levels image_lists)
  end.

(** *** The shape of the image map *)

(** The parent and children attributes agree, as [resolve_parent] sets
    them: a child that is in the map has the image as resolved parent. *)
Definition children_resolved (image_map : image_map_t) : Prop :=
  forall p c ci,
    p ∈ image_map -> c ∈ children p ->
    lookup_image c image_map = Some ci ->
    parent ci = Some (distgit_key p).

(** [key] is listed at [level] of [image_lists]. *)
Definition at_level (image_lists : image_lists_t) (level : nat)
    (key : string) : Prop :=
  exists l, image_lists !! level = Some l /\ key ∈ l.

(** The number of resolved parents above an image of the map. *)
Inductive at_depth (image_map : image_map_t) : string -> nat -> Prop :=
| depth_root key i :
    lookup_image key image_map = Some i -> parent i = None ->
    at_depth image_map key 0
| depth_child key i p d :
    lookup_image key image_map = Some i -> parent i = Some p ->
    at_depth image_map p d ->
    at_depth image_map key (S d).

(** What holds of [image_lists] all along: a key listed at a level has
    that many parents above it, and the parent of a key listed at a level
    above 0 is listed one level below. *)
Definition levels_sound (image_map : image_map_t)
    (image_lists : image_lists_t) : Prop :=
  (forall level key,
      at_level image_lists level key -> at_depth image_map key level)
  /\ (forall level key,
        at_level image_lists (S level) key ->
        exists i p, lookup_image key image_map = Some i
                    /\ parent i = Some p
                    /\ at_level image_lists level p).

(** [image_lists] only grows. *)
Definition grows (image_lists image_lists' : image_lists_t) : Prop :=
  length image_lists <= length image_lists'
  /\ forall level key,
       at_level image_lists level key -> at_level image_lists' level key.


(** A base image with two children, one of them with a child of its
    own, and a second root. *)
Definition small_group : image_map_t :=
  [ {| distgit_key := "base"; parent := None; children := ["cli"; "tools"] |};
    {| distgit_key := "cli"; parent := Some "base"; children := ["console"] |};
    {| distgit_key := "console"; parent := Some "cli"; children := [] |};
    {| distgit_key := "tools"; parent := Some "base"; children := [] |};
    {| distgit_key := "etcd"; parent := None; children := [] |} ].

End ImageTree.

(** ** The consistency checks of [Runtime.initialize] *)

Module Checks.
Import PyStr Py.
Local Open Scope list_scope.

(** *** Cyclic parents (lines 632-636) *)

Section Cycles.
(** [image.is_ancestor(child)], a method of [ImageMetadata]. *)
Variable is_ancestor : ImageTree.ImageMetadata -> string -> bool.

Definition check_child (image : ImageTree.ImageMetadata) (_ : unit)
    (child : string) : result unit :=
  if is_ancestor image child
  then inl (DoozerFatalError
              (child +:+ " cannot be both a parent and dependent of "
                 +:+ ImageTree.distgit_key image))
  else inr tt.

Definition check_image (_ : unit) (image : ImageTree.ImageMetadata)
    : result unit :=
  for_each (check_child image) (ImageTree.children image) tt.

Definition check_cycles (image_map : ImageTree.image_map_t) : result unit :=
  for_each check_image image_map tt.
End Cycles.

(** *** Names in bundle (lines 583-600) *)

(** An entry of [image_name_data]: its key and the two fields read from
    its data. *)
Record image_data := {
  key : string;
  data_name : string;
  data_name_in_bundle : option string
}.

Record name_maps := {
  image_name_map : gmap string string;
  name_in_bundle_map : gmap string string
}.

(** The nested function [_register_name_in_bundle]; [img_key] is the
    [img.key] of the enclosing loop. *)
Definition _register_name_in_bundle (img_key : string)
    (name_in_bundle distgit_key : string) (st : name_maps)
    : result name_maps :=
  match name_in_bundle_map st !! name_in_bundle with
  | Some taken_by =>
      inl (ValueError
             ("Image " +:+ distgit_key +:+ " has name_in_bundle="
                +:+ name_in_bundle +:+ ", which is already taken by image "
                +:+ taken_by))
  | None =>
      inr {| image_name_map := image_name_map st;
             name_in_bundle_map :=
               <[name_in_bundle := img_key]> (name_in_bundle_map st) |}
  end.

(** The body of [for img in image_name_data.values()]. *)
Definition register_names (st : name_maps) (img : image_data)
    : result name_maps :=
  let name := data_name img in
  match split_char "/" name !! 1%nat with
  | None => inl (IndexError "list index out of range")
  | Some short_name =>
      let st := {| image_name_map :=
                     <[short_name := key img]>
                       (<[name := key img]> (image_name_map st));
                   name_in_bundle_map := name_in_bundle_map st |} in
      if otruthy (data_name_in_bundle img) then
        _register_name_in_bundle (key img)
          (default "" (data_name_in_bundle img)) (key img) st
      else
        let short_name_without_ose :=
          if startswith short_name "ose-" then drop 4 short_name
          else short_name in
        match _register_name_in_bundle (key img) short_name_without_ose
                (key img) st with
        | inl e => inl e
        | inr st =>
            let short_name_with_ose := "ose-" +:+ short_name_without_ose in
            _register_name_in_bundle (key img) short_name_with_ose
              (key img) st
        end
  end.

Definition register_all_names (image_name_data : list image_data)
    (st : name_maps) : result name_maps :=
  for_each register_names image_name_data st.

(** *** Duplicate distgit and branch (lines 651-658) *)

(** What the check reads of a metadata object; [branch] is the value of
    [meta.branch()]. *)
Record meta := {
  namespace : string;
  name : string;
  branch : string;
  config_filename : string
}.

Definition collide_key (m : meta) : string :=
  namespace m +:+ "/" +:+ name m +:+ "/#" +:+ branch m.

Definition check_collision (no_collide_check : gmap string meta) (m : meta)
    : result (gmap string meta) :=
  let key := collide_key m in
  match no_collide_check !! key with
  | Some other =>
      inl (IOError
             ("Complete duplicate distgit & branch; something wrong with metadata: "
                +:+ key +:+ " from " +:+ config_filename m +:+ " and "
                +:+ config_filename other))
  | None => inr (<[key := m]> no_collide_check)
  end.

(** The loop over [list(self.rpm_map.values()) +
    list(self.image_map.values())]. *)
Definition check_collisions (rpm_metas image_metas : list meta)
    : result (gmap string meta) :=
  for_each check_collision (rpm_metas ++ image_metas) ∅.

(** *** Configurations with two offenders each *)

(** Modelled from the spec: [ImageMetadata.is_ancestor] belongs to a
    module that is not among the sources; the spec has the check raise
    "if a node is found to be its own ancestor".  The walk below follows
    the resolved parents of [image], at most [fuel] of them, and tells
    whether [child] is met. *)
Fixpoint walk_parents (fuel : nat) (image_map : ImageTree.image_map_t)
    (parent : option string) (child : string) : bool :=
  match fuel, parent with
  | S fuel', Some p =>
      if String.eqb p child then true
      else match ImageTree.lookup_image p image_map with
           | Some pi => walk_parents fuel' image_map (ImageTree.parent pi) child
           | None => false
           end
  | _, _ => false
  end.

Definition is_ancestor_in (image_map : ImageTree.image_map_t)
    (image : ImageTree.ImageMetadata) (child : string) : bool :=
  walk_parents (length image_map) image_map (ImageTree.parent image) child.

(** Two separate cycles: [alpha] and [beta] name each other as parent,
    and so do [gamma] and [delta]. *)
Definition two_cycles : ImageTree.image_map_t :=
  [ ImageTree.Build_ImageMetadata "alpha" (Some "beta") ["beta"];
    ImageTree.Build_ImageMetadata "beta" (Some "alpha") ["alpha"];
    ImageTree.Build_ImageMetadata "gamma" (Some "delta") ["delta"];
    ImageTree.Build_ImageMetadata "delta" (Some "gamma") ["gamma"] ].

(** Two pairs of images with the same name in bundle, [foo] and [bar]. *)
Definition two_name_clashes : list image_data :=
  [ {| key := "ose-foo"; data_name := "openshift/ose-foo";
       data_name_in_bundle := None |};
    {| key := "foo"; data_name := "openshift/foo";
       data_name_in_bundle := None |};
    {| key := "ose-bar"; data_name := "openshift/ose-bar";
       data_name_in_bundle := None |};
    {| key := "bar"; data_name := "openshift/bar";
       data_name_in_bundle := None |} ].

(** Two images that declare the same name in bundle. *)
Definition operator_image : image_data :=
  {| key := "my-operator"; data_name := "openshift/ose-my-operator";
     data_name_in_bundle := Some "operator" |}.

Definition operand_image : image_data :=
  {| key := "my-operand"; data_name := "openshift/ose-my-operand";
     data_name_in_bundle := Some "operator" |}.

Definition no_names : name_maps :=
  {| image_name_map := ∅; name_in_bundle_map := ∅ |}.

(** Two pairs of metadata files for the same distgit and branch. *)
Definition two_duplicates : list meta :=
  [ {| namespace := "containers"; name := "foo"; branch := "rhaos-4.14";
       config_filename := "foo.yml" |};
    {| namespace := "containers"; name := "foo"; branch := "rhaos-4.14";
       config_filename := "foo-copy.yml" |};
    {| namespace := "containers"; name := "bar"; branch := "rhaos-4.14";
       config_filename := "bar.yml" |};
    {| namespace := "containers"; name := "bar"; branch := "rhaos-4.14";
       config_filename := "bar-copy.yml" |} ].

End Checks.

(** ** Named semaphores *)

Module Semaphores.
Import PyStr Py.
Local Open Scope list_scope.

(** The synchronisation objects of [multiprocessing]. *)
Inductive primitive :=
| Lock
| Semaphore (count : nat).

(** The objects allocated so far, named by their position, and the
    registry [self.named_semaphores] from a key to an object. *)
Record runtime := {
  heap : list primitive;
  named_semaphores : gmap string nat
}.

(** The state left by [__init__]: [{'': Lock()}]. *)
Definition init : runtime :=
  {| heap := [Lock]; named_semaphores := {[ "" := 0%nat ]} |}.

(** *** [pathlib] on POSIX *)

Record pure_path := {
  root : string;
  parts : list string
}.

Fixpoint count_leading (c : ascii) (s : string) : nat :=
  match s with
  | String d s' => if Ascii.eqb c d then S (count_leading c s') else O
  | EmptyString => O
  end.

(** The components kept by the parser: neither empty nor [.]. *)
Definition kept (x : string) : bool :=
  truthy x && negb (String.eqb x ".").

(** [pathlib.PurePosixPath(s)]: two leading slashes are kept as the
    root, any other number of them is one slash. *)
Definition parse_path (s : string) : pure_path :=
  let n := count_leading "/" s in
  {| root := match n with
             | O => ""
             | 2 => "//"
             | _ => "/"
             end;
     parts := filter (fun x => kept x = true) (split_char "/" (drop n s)) |}.

Fixpoint join (sep : string) (l : list string) : string :=
  match l with
  | [] => ""
  | [x] => x
  | x :: l' => x +:+ sep +:+ join sep l'
  end.

(** [str(path)] *)
Definition path_str (p : pure_path) : string :=
  match root p, parts p with
  | EmptyString, [] => "."
  | r, ps => r +:+ join "/" ps
  end.

(** [path.absolute()] with [cwd] the value of [os.getcwd()]. *)
Definition absolute (cwd : string) (p : pure_path) : pure_path :=
  if truthy (root p) then p
  else let c := parse_path cwd in
       {| root := root c; parts := parts c ++ parts p |}.

(** The key [p] computed at the head of [get_named_semaphore]. *)
Definition normalized_key (cwd lock_name : string) (is_dir : bool) : string :=
  if is_dir
  then "_dir::" +:+ path_str (absolute cwd (parse_path lock_name))
  else lock_name.

(** [Runtime.get_named_semaphore]: the object returned and the new state.
    The body runs with the registry's own lock [named_semaphores['']]
    held, so it is one atomic step. *)
Definition get_named_semaphore (cwd : string) (lock_name : string)
    (is_dir : bool) (count : nat) (rt : runtime) : nat * runtime :=
  let p := normalized_key cwd lock_name is_dir in
  match named_semaphores rt !! p with
  | Some sem => (sem, rt)
  | None =>
      let new_semaphore := length (heap rt) in
      (new_semaphore,
       {| heap := heap rt ++ [Semaphore count];
          named_semaphores := <[p := new_semaphore]> (named_semaphores rt) |})
  end.

(** A call of [get_named_semaphore] with its arguments and the working
    directory it runs in. *)
Record call := {
  call_cwd : string;
  lock_name : string;
  is_dir : bool;
  count : nat
}.

Definition call_key (c : call) : string :=
  normalized_key (call_cwd c) (lock_name c) (is_dir c).

Definition do_call (c : call) (rt : runtime) : nat * runtime :=
  get_named_semaphore (call_cwd c) (lock_name c) (is_dir c) (count c) rt.

(** The state after a sequence of calls. *)
Definition run (calls : list call) (rt : runtime) : runtime :=
  fold_left (fun rt c => snd (do_call c rt)) calls rt.

(** The two spellings of the directory of the documentation, and a
    request for the reserved key. *)
Definition tmp_x_slash (cwd : string) (n : nat) : call :=
  {| call_cwd := cwd; lock_name := "/tmp/x/"; is_dir := true; count := n |}.

Definition tmp_x (cwd : string) (n : nat) : call :=
  {| call_cwd := cwd; lock_name := "/tmp/x"; is_dir := true; count := n |}.

Definition reserved_key (n : nat) : call :=
  {| call_cwd := "/"; lock_name := ""; is_dir := false; count := n |}.

End Semaphores.

(** ** The pool of koji sessions *)

Module SessionPool.
Import Py.
Local Open Scope list_scope.

(** A koji client session: the one attribute the pool writes. *)
Record session := { force_instance_caching : bool }.

(** The session objects allocated so far, named by their position, and
    the two dicts of the runtime: [session_pool] from a slot id to its
    session, [session_pool_available] (items in insertion order) with the
    slots that are not leased.  Both dicts refer to the same objects. *)
Record runtime := {
  sessions : list session;
  session_pool : gmap nat nat;
  session_pool_available : list (nat * nat)
}.

(** The state left by [__init__]. *)
Definition init : runtime :=
  {| sessions := []; session_pool := ∅; session_pool_available := [] |}.

(** [session.force_instance_caching = v] *)
Definition set_caching (session : nat) (v : bool) (rt : runtime) : runtime :=
  {| sessions := <[session := {| force_instance_caching := v |}]> (sessions rt);
     session_pool := session_pool rt;
     session_pool_available := session_pool_available rt |}.

(** What one pass through the [with self.mutex] block of the loop
    decides: [break] with a session, or fall through to [time.sleep]. *)
Inductive decision :=
| Break (session_id session : nat)
| Sleep (seconds : nat).

Section WithClient.
(** The object built by [self.build_retrying_koji_client()]. *)
Variable new_client : session.

(** The [with self.mutex] block of the [while True] loop. *)
Definition decide_session (rt : runtime) : decision * runtime :=
  match popitem (session_pool_available rt) with
  | None =>
      if decide (size (session_pool rt) < 30) then
        let new_session := length (sessions rt) in
        let session_id := size (session_pool rt) in
        (Break session_id new_session,
         {| sessions := sessions rt ++ [new_client];
            session_pool := <[session_id := new_session]> (session_pool rt);
            session_pool_available := session_pool_available rt |})
      else (Sleep 5, rt)
  | Some ((session_id, session), rest) =>
      (Break session_id session,
       {| sessions := sessions rt;
          session_pool := session_pool rt;
          session_pool_available := rest |})
  end.

(** The [with self.mutex] block of the [finally] clause. *)
Definition put_back (session_id session : nat) (rt : runtime) : runtime :=
  {| sessions := sessions rt;
     session_pool := session_pool rt;
     session_pool_available :=
       dict_set session_id session (session_pool_available rt) |}.

(** How the body of the caller's [with] statement is left. *)
Inductive outcome :=
| Returned
| Raised (e : exn).

(** Where a thread stands inside [pooled_koji_client_session]. *)
Inductive position :=
| Deciding (caching : bool)
| Sleeping (caching : bool) (seconds : nat)
| Leased (caching : bool) (session_id session : nat)
| Yielded (session_id session : nat)
| Finally (o : outcome) (session_id session : nat)
| Returning (o : outcome) (session_id session : nat)
| Left (o : outcome).

(** One atomic step of a thread; [o] is how the caller's body ends
    when the thread is at the [yield]. *)
Definition step (o : outcome) (pos : position) (rt : runtime)
    : position * runtime :=
  match pos with
  | Deciding caching =>
      match decide_session rt with
      | (Break session_id session, rt') =>
          (Leased caching session_id session, rt')
      | (Sleep seconds, rt') => (Sleeping caching seconds, rt')
      end
  | Sleeping caching _ => (Deciding caching, rt)
  | Leased caching session_id session =>
      (Yielded session_id session, set_caching session caching rt)
  | Yielded session_id session => (Finally o session_id session, rt)
  | Finally o' session_id session =>
      (Returning o' session_id session, set_caching session false rt)
  | Returning o' session_id session =>
      (Left o', put_back session_id session rt)
  | Left o' => (Left o', rt)
  end.

(** The [finally] clause as a whole, from the [yield] on. *)
Definition leave (o : outcome) (session_id session : nat) (rt : runtime)
    : outcome * runtime :=
  (o, put_back session_id session (set_caching session false rt)).

(** Any number of threads that use the pool: a step of the system is a
    step of one of them. *)
Definition system : Type := list position * runtime.

Inductive system_step : system -> system -> Prop :=
| thread_step (threads : list position) (rt : runtime) (i : nat)
    (pos : position) (o : outcome) :
    threads !! i = Some pos ->
    system_step (threads, rt)
      (<[i := fst (step o pos rt)]> threads, snd (step o pos rt))
| thread_enters (threads : list position) (rt : runtime)
    (caching : bool) :
    system_step (threads, rt) (threads ++ [Deciding caching], rt).

Inductive reachable : system -> Prop :=
| reachable_init : reachable ([], init)
| reachable_step (s s' : system) :
    reachable s -> system_step s s' -> reachable s'.

End WithClient.

(** A client as [KojiWrapper] builds it, caching off. *)
Definition plain_client : session := {| force_instance_caching := false |}.

(** A pool at capacity with every session leased. *)
Definition exhausted : runtime :=
  {| sessions := replicate 30 plain_client;
     session_pool := list_to_map (zip (seq 0 30) (seq 0 30));
     session_pool_available := [] |}.

(** A pool with the one session of slot 0, leased with caching on. *)
Definition one_leased : runtime :=
  {| sessions := [ {| force_instance_caching := true |} ];
     session_pool := {[ 0%nat := 0%nat ]};
     session_pool_available := [] |}.

End SessionPool.

From stdpp Require Import pretty.

(** ** Users of the build order *)

Module TreeOps.
Import Py ImageTree.
Local Open Scope list_scope.

(** [Runtime.ordered_image_metas]: [[self.image_map[dg] for dg in
    self.image_order]]; [None] stands for the [KeyError] of a key that is
    not in the map. *)
Definition ordered_image_metas (image_map : image_map_t)
    (image_order : list string) : option (list ImageMetadata) :=
  mapM (fun dg => lookup_image dg image_map) image_order.

(** The body of the first loop of [filter_failed_image_trees]. *)
Definition propagate_failure (failed : list string) (i : ImageMetadata)
    : list string :=
  match parent i with
  | Some p => if decide (p ∈ failed) then failed ++ [distgit_key i] else failed
  | None => failed
  end.

(** [del self.image_map[f]] *)
Definition delete_image (f : string) (image_map : image_map_t) : image_map_t :=
  filter (fun i => distgit_key i <> f) image_map.

(** The body of the second loop. *)
Definition remove_failed (image_map : image_map_t) (f : string)
    : image_map_t :=
  match lookup_image f image_map with
  | Some _ => delete_image f image_map
  | None => image_map
  end.

(** [Runtime.filter_failed_image_trees]: the list returned, and the new
    [image_map], [image_tree] and [image_order]. *)
Definition filter_failed_image_trees (fuel : nat) (image_map : image_map_t)
    (image_order : list string) (failed : list string)
    : option (list string * image_map_t * tree * list string) :=
  match ordered_image_metas image_map image_order with
  | None => None
  | Some metas =>
      let failed := fold_left propagate_failure metas failed in
      let image_map := fold_left remove_failed failed image_map in
      match generate_image_tree fuel image_map with
      | None => None
      | Some (image_tree, image_order) =>
          Some (failed, image_map, image_tree, image_order)
      end
  end.

(** The children attributes are complete: an image of the map is listed
    among the children of its resolved parent. *)
Definition parents_listed (image_map : image_map_t) : Prop :=
  forall c p pi,
    c ∈ image_map -> parent c = Some p ->
    lookup_image p image_map = Some pi ->
    distgit_key c ∈ children pi.

(** The children of [key] that are in the map are listed one level below
    [level]. *)
Definition closed_at (image_map : image_map_t) (image_lists : image_lists_t)
    (level : nat) (key : string) : Prop :=
  forall i c ci,
    lookup_image key image_map = Some i -> c ∈ children i ->
    lookup_image c image_map = Some ci ->
    at_level image_lists (S level) c.

(** Every key listed by [image_lists'] was listed by [image_lists] or has
    its children listed. *)
Definition completes (image_map : image_map_t)
    (image_lists image_lists' : image_lists_t) : Prop :=
  forall level key,
    at_level image_lists' level key ->
    at_level image_lists level key
    \/ closed_at image_map image_lists' level key.

End TreeOps.

(** ** Leases of the session pool *)

Module Leases.
Import SessionPool.
Local Open Scope list_scope.

(** The slot and session a thread has in hand, from the [break] of the
    loop until the session is put back. *)
Definition holding (pos : position) : option (nat * nat) :=
  match pos with
  | Leased _ session_id session
  | Yielded session_id session
  | Finally _ session_id session
  | Returning _ session_id session => Some (session_id, session)
  | Deciding _ | Sleeping _ _ | Left _ => None
  end.

(** The leases of all threads. *)
Definition leases (threads : list position) : list (nat * nat) :=
  omap holding threads.

(** Every slot of the pool that is leased or available. *)
Definition occupied (s : system) : list (nat * nat) :=
  leases (fst s) ++ session_pool_available (snd s).

(** What the two dicts and the leases keep: the pool holds the sessions
    [0 .. n-1] under the slots [0 .. n-1], and no slot is leased or
    available twice. *)
Definition pool_invariant (s : system) : Prop :=
  length (sessions (snd s)) = size (session_pool (snd s))
  /\ (forall id,
         session_pool (snd s) !! id
         = if decide (id < size (session_pool (snd s))) then Some id else None)
  /\ Forall (fun lease => lease.2 = lease.1
                          /\ lease.1 < size (session_pool (snd s)))
       (occupied s)
  /\ NoDup (fst <$> occupied s).

(** Three threads that enter, the first two taking a session each. *)
Definition two_leases : system :=
  ([Yielded 0 0; Leased true 1 1; Deciding false],
   {| sessions := [ {| force_instance_caching := false |};
                    plain_client ];
      session_pool := {[ 0%nat := 0%nat; 1%nat := 1%nat ]};
      session_pool_available := [] |}).

End Leases.

(** ** Rules of the public-upstream translation *)

Module Rules.
Import Upstream.

(** The values the loop of [get_public_upstream] keeps for a rule. *)
Definition target_of (conv : string -> string) (u : upstream) : target :=
  {| target_priv_prefix := conv (private u);
     target_pub_prefix := conv (public u);
     target_pub_branch := public_branch u |}.

End Rules.

(** ** Candidates of the branch detection *)

Module Candidates.
Import Branch.
Local Open Scope list_scope.



End Candidates.

(** ** Names in bundle of one image *)

Module BundleNames.
Import PyStr Py Checks.
Local Open Scope list_scope.

(** The names that the body of [for img in image_name_data.values()]
    passes to [_register_name_in_bundle], in the order of the calls;
    [None] when [name.split('/')[1]] does not exist. *)
Definition bundle_names (img : image_data) : option (list string) :=
  match split_char "/" (data_name img) !! 1%nat with
  | None => None
  | Some short_name =>
      if otruthy (data_name_in_bundle img)
      then Some [default "" (data_name_in_bundle img)]
      else
        let short_name_without_ose :=
          if startswith short_name "ose-" then drop 4 short_name
          else short_name in
        Some [short_name_without_ose; "ose-" +:+ short_name_without_ose]
  end.

End BundleNames.

(** ** More [str] operations *)

Module Text.
Import PyStr Py.

(** [s.replace(c, new)] for a one-character [c] *)
Fixpoint replace_char (c : ascii) (new : string) (s : string) : string :=
  match s with
  | EmptyString => EmptyString
  | String d s' =>
      if Ascii.eqb c d then new +:+ replace_char c new s'
      else String d (replace_char c new s')
  end.

(** No character of [s] is [c]. *)
Definition no_char (c : ascii) (s : string) : bool :=
  all_chars (fun d => negb (Ascii.eqb c d)) s.

(** [l[-1]] on the result of a [split], which is never empty. *)
Definition last_item (l : list string) : string := List.last l EmptyString.

(** The characters [\n] and [\r]. *)
Definition LF : ascii := ascii_of_nat 10.
Definition CR : ascii := ascii_of_nat 13.

End Text.

(** ** The record log (lines 1005-1033) *)

Module Records.
Import PyStr Py Text.

(** The body of [for k, v in kwargs.items()], on the [str()] of the key
    and of the value; [None] stands for the [AssertionError]. *)
Definition add_field (record : string) (kv : string * string)
    : option string :=
  let (k, v) := kv in
  if contains k (String LF EmptyString) then None
  else
    let v := replace_char CR "" (replace_char LF " ;;; " v) in
    Some (record +:+ k +:+ "=" +:+ v +:+ "|").

Fixpoint add_fields (record : string) (kwargs : list (string * string))
    : option string :=
  match kwargs with
  | [] => Some record
  | kv :: kwargs' =>
      match add_field record kv with
      | Some record' => add_fields record' kwargs'
      | None => None
      end
  end.

(** [add_record] on the text of [record.log]: the new text of the file. *)
Definition add_record (record_type : string)
    (kwargs : list (string * string)) (record_log : string)
    : option string :=
  match add_fields (record_type +:+ "|") kwargs with
  | Some record => Some (record_log +:+ record +:+ String LF EmptyString)
  | None => None
  end.

(** A record of two fields, one of them with a line feed and a carriage
    return in its value. *)
Definition dockerfile_notify : list (string * string) :=
  [ ("distgit", "containers/foo");
    ("reason", "line one" +:+ String CR (String LF "line two")) ].

End Records.

(** ** Pull specs in brew (lines 1086-1113) *)

Module Brew.
Import PyStr Py Text.

Section Resolve.
(** [group_config.urls.brew_image_host], a [str], and
    [group_config.urls.brew_image_namespace], [None] when [Missing]. *)
Variable brew_image_host : string.
Variable brew_image_namespace : option string.

Definition resolve_brew_image_url (image_name_and_version : string)
    : string :=
  let url :=
    if contains image_name_and_version brew_image_host
    then image_name_and_version
    else match brew_image_namespace with
         | Some ns =>
             let name := replace_char "/" "-" image_name_and_version in
             String.concat "/" [brew_image_host; ns; name]
         | None =>
             String.concat "/" [brew_image_host; image_name_and_version]
         end in
  if negb (contains (last_item (split_char "/" url)) ":")
  then url +:+ ":latest"
  else url.
End Resolve.

End Brew.

(** ** The group and its commitish (lines 383-386) *)

Module Group.
Import PyStr Py.

(** The new values of [self.group] and [self.group_commitish];
    [split_once] finds a separator exactly when ['@' in self.group]. *)
Definition split_group (group : string) : string * string :=
  match split_once "@" group with
  | Some (group', group_commitish) => (group', group_commitish)
  | None => (group, group)
  end.

End Group.

(** ** Lists given on the command line (lines 489-497) *)

Module Flatten.
Import PyStr Py Text.
Local Open Scope list_scope.

(** [[x for x in n.replace(' ', ',').split(',') if x != '']] *)
Definition csv_values (n : string) : list string :=
  filter (fun x => x <> EmptyString) (split_char "," (replace_char " " "," n)).

(** [flatten_list]; [names] is [None] for Python's [None].  The result,
    [list(set(...))], is a list without duplicates in an order that
    Python leaves open: it is kept as the set. *)
Definition flatten_list (names : option (list string)) : gset string :=
  match names with
  | None | Some [] => ∅
  | Some names => list_to_set (concat (csv_values <$> names))
  end.

End Flatten.

(** ** Version texts (lines 1494-1505) *)

Module Version.
Import PyStr Py Assembly Text.

(** The class [\d] of a [str] pattern on the code points below 256, where
    the decimal digits are [0] to [9]. *)
Definition is_digit (c : ascii) : bool :=
  let n := nat_of_ascii c in ((48 <=? n) && (n <=? 57))%nat.

(** [r?] *)
Definition Opt (r : regex) : regex := Alt Eps r.

(** The pattern [^v\d+((\.\d+)+)?$] under [re.match]: [^] holds where
    [match] starts, and [$] holds at the end of the text and before a
    line feed that ends the text, so that the match is a full match of
    the text with an optional last line feed. *)
Definition version_pattern : regex :=
  Seq (Class (Ascii.eqb "v"))
    (Seq (Plus (Class is_digit))
       (Seq (Opt (Plus (Seq (Class (Ascii.eqb ".")) (Plus (Class is_digit)))))
          (Opt (Class (Ascii.eqb LF))))).

(** [Runtime.valid_version] *)
Definition valid_version (version : string) : bool :=
  fullmatch version_pattern version.

(** A non-empty text of decimal digits. *)
Definition is_number (s : string) : bool := truthy s && all_chars is_digit s.

(** The texts of a pattern, as [re] defines them. *)
Inductive lang : regex -> string -> Prop :=
| lang_Eps : lang Eps EmptyString
| lang_Class (p : ascii -> bool) (c : ascii) :
    p c = true -> lang (Class p) (String c EmptyString)
| lang_Seq (r1 r2 : regex) (s1 s2 : string) :
    lang r1 s1 -> lang r2 s2 -> lang (Seq r1 r2) (s1 +:+ s2)
| lang_Alt_l (r1 r2 : regex) (s : string) : lang r1 s -> lang (Alt r1 r2) s
| lang_Alt_r (r1 r2 : regex) (s : string) : lang r2 s -> lang (Alt r1 r2) s
| lang_Star_nil (r : regex) : lang (Star r) EmptyString
| lang_Star_cons (r : regex) (s1 s2 : string) :
    lang r s1 -> lang (Star r) s2 -> lang (Star r) (s1 +:+ s2).

End Version.

(** ** The shared koji session (lines 737-752) *)

Module SharedSession.
Import Py.
Local Open Scope list_scope.

(** [self._koji_client_session] holds the client object, named by its
    number.  The two other fields only keep count of what the runtime has
    done: the clients that [build_retrying_koji_client] returned, and the
    clients on which [gssapi_login] was called. *)
Record runtime := {
  _koji_client_session : option nat;
  clients_built : nat;
  login_calls : list nat
}.

Definition init : runtime :=
  {| _koji_client_session := None; clients_built := 0; login_calls := [] |}.

(** One entry of the context manager: the value of [self.disable_gssapi]
    at that time, and whether [build_retrying_koji_client] and
    [gssapi_login] raise. *)
Record entry := {
  disable_gssapi : bool;
  build_raises : bool;
  login_raises : bool
}.

(** [shared_koji_client_session] up to its [yield], under [koji_lock]:
    the session that is yielded, or [None] when an exception leaves the
    context manager. *)
Definition shared_koji_client_session (e : entry) (rt : runtime)
    : option nat * runtime :=
  match _koji_client_session rt with
  | None =>
      if build_raises e then (None, rt)
      else
        let client := clients_built rt in
        let rt := {| _koji_client_session := Some client;
                     clients_built := S (clients_built rt);
                     login_calls := login_calls rt |} in
        if negb (disable_gssapi e) then
          let rt := {| _koji_client_session := _koji_client_session rt;
                       clients_built := clients_built rt;
                       login_calls := login_calls rt ++ [client] |} in
          if login_raises e then (None, rt) else (Some client, rt)
        else (Some client, rt)
  | Some client => (Some client, rt)
  end.

(** The entries of a run, one after the other as the lock has them. *)
Fixpoint enter_all (es : list entry) (rt : runtime)
    : list (option nat) * runtime :=
  match es with
  | [] => ([], rt)
  | e :: es' =>
      let (y, rt) := shared_koji_client_session e rt in
      let (ys, rt) := enter_all es' rt in
      (y :: ys, rt)
  end.

(** At most one client was ever built, it is the one that is held, and
    at most one login was called, on that client. *)
Definition single_client (rt : runtime) : Prop :=
  match _koji_client_session rt with
  | None => clients_built rt = 0 /\ login_calls rt = []
  | Some client =>
      client = 0 /\ clients_built rt = 1
      /\ (login_calls rt = [] \/ login_calls rt = [0])
  end.

(** A run whose first login fails. *)
Definition failed_login : list entry :=
  [ {| disable_gssapi := false; build_raises := false; login_raises := true |};
    {| disable_gssapi := false; build_raises := false; login_raises := false |} ].

End SharedSession.

(** ** Source aliases (lines 926-981) *)

Module SourceAlias.
Import PyStr Py Text Upstream Records.
Local Open Scope list_scope.

(** The named tuple [SourceResolution]. *)
Record SourceResolution := {
  source_path : string;
  url : option string;
  branch : option string;
  public_upstream_url : option string;
  public_upstream_branch : option string
}.

(** An entry of [self.state['source_alias']]. *)
Record alias_state := {
  state_url : string;
  state_branch : string;
  state_path : string
}.

(** The parts of the runtime that [register_source_alias] writes;
    [state_source_alias] is [None] as long as [self.state] has no
    ['source_alias'] key, and [record_log] is the text of [record.log]. *)
Record runtime := {
  source_resolutions : gmap string SourceResolution;
  state_source_alias : option (gmap string alias_state);
  record_log : string
}.

(** What [exectools.cmd_gather] returns. *)
Record gathered := {
  rc : Z;
  out : string;
  err : string
}.

(** An exception of [register_source_alias]: one of the runtime's, or
    the [AssertionError] of [add_record]. *)
Inductive error :=
| Raised (e : exn)
| AssertionError.

(** [s.replace(c, new, 1)] for a one-character [c] *)
Fixpoint replace_first (c : ascii) (new : string) (s : string) : string :=
  match s with
  | EmptyString => EmptyString
  | String d s' =>
      if Ascii.eqb c d then new +:+ s'
      else String d (replace_first c new s')
  end.

(** The hyperlink made of the origin url (lines 939-946). *)
Definition hyperlink (origin_url : string) : string :=
  if startswith origin_url "git@" then
    let origin_url := drop 4 origin_url in
    let origin_url := replace_first ":" "/" origin_url in
    let origin_url :=
      if endswith origin_url ".git"
      then take (String.length origin_url - 4) origin_url
      else origin_url in
    "https://" +:+ origin_url
  else origin_url.

(** [x or '?'] *)
Definition or_unknown (x : option string) : string :=
  if otruthy x then default "" x else "?".

Section Register.
(** The normaliser of [get_public_upstream], [os.path.abspath], and
    [assertion.isdir], which gives the exception it raises, if any. *)
Variable convert_remote_git_to_https : string -> string.
Variable abspath : string -> string.
Variable isdir : string -> string -> option exn.

(** [group_config.public_upstreams], empty when the key is missing. *)
Variable public_upstreams : list upstream.

(** The [SourceResolution] of lines 961-972. *)
Definition resolution (path : string) (url branch : option string)
    : result SourceResolution :=
  match public_upstreams with
  | [] =>
      inr {| source_path := path; url := url; branch := branch;
             public_upstream_url := None; public_upstream_branch := None |}
  | _ =>
      if negb (otruthy url && otruthy branch) then
        inl (DoozerFatalError
               ("Couldn't detect source URL or branch for local source "
                  +:+ path +:+ ". Is it a valid Git repo?"))
      else
        let (public_upstream_url, public_upstream_branch) :=
          get_public_upstream convert_remote_git_to_https public_upstreams
            (default "" url) in
        if bool_decide (branch = Some "HEAD") then
          inr {| source_path := path; url := url; branch := branch;
                 public_upstream_url := None;
                 public_upstream_branch := None |}
        else
          let public_upstream_branch :=
            if negb (otruthy public_upstream_branch) then branch
            else public_upstream_branch in
          inr {| source_path := path; url := url; branch := branch;
                 public_upstream_url := Some public_upstream_url;
                 public_upstream_branch := public_upstream_branch |}
  end.

(** [register_source_alias]; [origin] and [head] are what the two [git]
    commands give in [path]. *)
Definition register_source_alias (alias path : string)
    (origin head : gathered) (rt : runtime) : error + runtime :=
  let path := abspath path in
  match isdir path ("Error registering source alias " +:+ alias) with
  | Some e => inl (Raised e)
  | None =>
      let url := if (rc origin =? 0)%Z then Some (strip (out origin))
                 else None in
      let origin_url := match url with
                        | Some u => hyperlink u
                        | None => "?"
                        end in
      let branch := if (rc head =? 0)%Z then Some (strip (out head))
                    else None in
      match resolution path url branch with
      | inl e => inl (Raised e)
      | inr r =>
          let entry := {| state_url := origin_url;
                          state_branch := or_unknown branch;
                          state_path := path |} in
          match add_record "source_alias"
                  [ ("alias", alias); ("origin_url", origin_url);
                    ("branch", or_unknown branch); ("path", path) ]
                  (record_log rt) with
          | None => inl AssertionError
          | Some log =>
              inr {| source_resolutions :=
                       <[alias := r]> (source_resolutions rt);
                     state_source_alias :=
                       Some (<[alias := entry]>
                               (default ∅ (state_source_alias rt)));
                     record_log := log |}
          end
      end
  end.
End Register.

(** A checkout of [git@github.com:openshift/origin.git] on a branch. *)
Definition origin_checkout : gathered * gathered :=
  ( {| rc := 0; out := "git@github.com:openshift/origin.git" +:+ String LF "";
       err := "" |},
    {| rc := 0; out := "release-4.14" +:+ String LF ""; err := "" |} ).

Definition fresh : runtime :=
  {| source_resolutions := ∅; state_source_alias := None; record_log := "" |}.

End SourceAlias.

(** ** Modes of group members (lines 499-506, 568-576 and 1073-1074) *)

Module Modes.
Import PyStr Py.
Local Open Scope list_scope.

(** [d.get('mode', 'enabled')]; [d] is the value of the key, [None]
    when the key is missing. *)
Definition mode_of (d : option string) : string := default "enabled" d.

Definition filter_wip (d : option string) : bool :=
  bool_decide (mode_of d ∈ ["wip"; "enabled"]).

Definition filter_enabled (d : option string) : bool :=
  bool_decide (mode_of d = "enabled").

Definition filter_disabled (d : option string) : bool :=
  bool_decide (mode_of d ∈ ["enabled"; "disabled"]).

(** The choice of [filter_func] in [initialize]; [None] is Python's
    [None], with which every member is loaded. *)
Definition filter_func (load_wip load_disabled : bool)
    : option (option string -> bool) :=
  if load_wip && load_disabled then None
  else if load_wip then Some filter_wip
  else if load_disabled then Some filter_disabled
  else Some filter_enabled.

(** Whether a member passes the chosen filter. *)
Definition passes (f : option (option string -> bool)) (d : option string)
    : bool :=
  match f with
  | None => true
  | Some f => f d
  end.

(** The test of [late_resolve_image] on the mode of the member: whether
    the member is turned down. *)
Definition turned_down (load_wip load_disabled : bool) (d : option string)
    : bool :=
  let mode := mode_of d in
  (bool_decide (mode = "disabled") && negb load_disabled)
  || (bool_decide (mode = "wip") && negb load_wip).

End Modes.

(** ** Payload images (lines 895-912) *)

Module Payload.
Import PyStr Py.
Local Open Scope list_scope.

(** The attributes of an [ImageMetadata] that are read here. *)
Record ImageMetadata := {
  distgit_key : string;
  is_payload : bool;
  image_name_short : string
}.

(** The body of the loop over [self.image_metas()]. *)
Definition add_payload (payload_images : list ImageMetadata)
    (image_meta : ImageMetadata) : result (list ImageMetadata) :=
  if is_payload image_meta then
    if negb (startswith (image_name_short image_meta) "ose-") then
      inl (ValueError
             (distgit_key image_meta
                +:+ " does not conform to payload naming convention with image name: "
                +:+ image_name_short image_meta))
    else inr (payload_images ++ [image_meta])
  else inr payload_images.

Definition get_payload_image_metas (image_metas : list ImageMetadata)
    : result (list ImageMetadata) :=
  for_each add_payload image_metas [].

(** A payload image and a base image that is not in the payload. *)
Definition cli_and_base : list ImageMetadata :=
  [ {| distgit_key := "openshift-enterprise-base"; is_payload := false;
       image_name_short := "openshift-enterprise-base" |};
    {| distgit_key := "ose-cli"; is_payload := true;
       image_name_short := "ose-cli" |} ].

End Payload.

(** ** The head of a source checkout (lines 1432-1453) *)

Module SourceHead.
Import PyStr Py.
Local Open Scope list_scope.

(** [s.split(c, n)]: at most [n] cuts, from the left. *)
Fixpoint split_n (c : ascii) (s : string) (n : nat) : list string :=
  match s with
  | EmptyString => [EmptyString]
  | String d s' =>
      match n with
      | O => [s]
      | S n' =>
          if Ascii.eqb c d then EmptyString :: split_n c s' n'
          else match split_n c s' n with
               | [] => [String d EmptyString]
               | w :: ws => String d w :: ws
               end
      end
  end.

Section Head.
(** [os.path.join], and the text of a file as [f.read()] gives it. *)
Variable path_join : string -> string -> string.
Variable read : string -> string.

(** [resolve_source_head], on the value that [resolve_source] returned
    for [meta] ([None] for Python's [None]). *)
Definition resolve_source_head (source_dir : option string)
    : result (option string) :=
  if negb (otruthy source_dir) then inr None
  else
    let head_content :=
      strip (read (path_join (default "" source_dir) ".git/HEAD")) in
    if startswith head_content "ref:" then
      match split_n "/" head_content 2 !! 2%nat with
      | Some branch => inr (Some branch)
      | None => inl (IndexError "list index out of range")
      end
    else inr (Some head_content).
End Head.

End SourceHead.

(** ** Cloning with a cache (lines 1182-1235) *)

Module GitClone.
Import PyStr Py Text.
Local Open Scope list_scope.

(** Python lists are objects: the store holds the lists allocated so
    far, named by their position, and a variable of list type holds a
    position. *)
Abbreviation store := (list (list string)).

(** What [git_clone] does to the outside. *)
Inductive event :=
| Mkdirs (path : string)
| Acquire (lock_name : string)
| Release (lock_name : string)
| Mkdtemp (dir : string)
| CmdText (cwd : option string) (cmd : string)
| Rename (src dst : string)
| FireAndForget (cwd cmd : string)
| CmdArgs (cmd : list string) (retries : nat) (on_retry : list string)
    (set_env : list (string * string)).

(** What the outside answers during one call: whether the cache
    directory of the repository exists at the first test, the directory
    that [mkdtemp] makes, the exceptions of the two set-up commands and
    of [os.rename], if any, whether the directory exists at the test of
    the handler, and the exception of the clone command, if any.  The
    other calls ([util.mkdirs], [tempfile.mkdtemp], taking the semaphore
    and [exectools.fire_and_forget]) are taken to return. *)
Record world := {
  exists_before : bool;
  tmp_repo_dir : string;
  init_raises : option exn;
  remote_add_raises : option exn;
  rename_raises : option exn;
  exists_after : bool;
  clone_raises : option exn
}.

(** A step: it changes the store, does things outside, and returns or
    raises. *)
Definition M (A : Type) : Type := store -> store * list event * result A.

Definition ret {A : Type} (x : A) : M A := fun st => (st, [], inr x).

Definition raise {A : Type} (e : exn) : M A := fun st => (st, [], inl e).

Definition bind {A B : Type} (m : M A) (k : A -> M B) : M B :=
  fun st =>
    match m st with
    | (st1, t1, inl e) => (st1, t1, inl e)
    | (st1, t1, inr x) =>
        match k x st1 with
        | (st2, t2, r) => (st2, t1 ++ t2, r)
        end
    end.

Definition emit (ev : event) : M unit := fun st => (st, [ev], inr tt).

(** A call that raises [e] if the outside says so. *)
Definition may_raise (ev : event) (e : option exn) : M unit :=
  fun st =>
    match e with
    | Some e => (st, [ev], inl e)
    | None => (st, [ev], inr tt)
    end.

(** [with lock: body]: the lock is released on every way out. *)
Definition with_lock {A : Type} (lock_name : string) (body : M A) : M A :=
  fun st =>
    match body st with
    | (st1, t1, r) => (st1, Acquire lock_name :: t1 ++ [Release lock_name], r)
    end.

(** [x or []] for a list variable: a falsy [x] gives a new list. *)
Definition or_new_list (x : option nat) : M nat :=
  fun st =>
    match x with
    | Some a =>
        match st !! a with
        | Some (_ :: _) => (st, [], inr a)
        | _ => (st ++ [[]], [], inr (length st))
        end
    | None => (st ++ [[]], [], inr (length st))
    end.

(** [l.extend(more)] *)
Definition extend (a : nat) (more : list string) : M unit :=
  fun st => (<[a := default [] (st !! a) ++ more]> st, [], inr tt).

(** The value of a list variable. *)
Definition read_list (a : nat) : M (list string) :=
  fun st => (st, [], inr (default [] (st !! a))).

(** [s.split(cc)] for the separator made of [c] twice. *)
Fixpoint split_pair (c : ascii) (s : string) : list string :=
  match s with
  | EmptyString => [EmptyString]
  | String a s' =>
      match s' with
      | String b s'' =>
          if Ascii.eqb a c && Ascii.eqb b c
          then EmptyString :: split_pair c s''
          else match split_pair c s' with
               | [] => [String a EmptyString]
               | w :: ws => String a w :: ws
               end
      | EmptyString => [String a EmptyString]
      end
  end.

Section Clone.
(** [artcommonlib.util.convert_remote_git_to_https] and
    [os.path.join]. *)
Variable convert_remote_git_to_https : string -> string.
Variable path_join : string -> string -> string.

(** [self.cache_dir] and [self.user]. *)
Variable cache_dir : option string.
Variable user : option string.

(** The cache directory of a remote (lines 1187-1192). *)
Definition git_cache_dir : string :=
  path_join
    (path_join (default "" cache_dir)
       (if otruthy user then default "" user else "default"))
    "git".

Definition repo_dir (remote_url : string) : string :=
  let normalized_url := convert_remote_git_to_https remote_url in
  let file_friendly_url :=
    replace_char "/" "_" (last_item (split_pair "/" normalized_url)) in
  path_join git_cache_dir file_friendly_url.

(** The body of [if not os.path.exists(repo_dir)]. *)
Definition init_cache (w : world) (remote_url : string) : M unit :=
  with_lock (repo_dir remote_url)
    (bind (emit (Mkdtemp git_cache_dir)) (fun _ =>
     bind (may_raise (CmdText None ("git init --bare " +:+ tmp_repo_dir w))
             (init_raises w)) (fun _ =>
     bind (may_raise (CmdText (Some (tmp_repo_dir w))
                        ("git remote add origin " +:+ remote_url))
             (remote_add_raises w)) (fun _ =>
     bind (emit (Rename (tmp_repo_dir w) (repo_dir remote_url))) (fun _ =>
     match rename_raises w with
     | Some e => if negb (exists_after w) then raise e else ret tt
     | None => ret tt
     end))))).

(** [git_clone]; [gitargs] is the list object that the caller passes, if
    any, [set_env] the value of that argument. *)
Definition git_clone (w : world) (remote_url target_dir : string)
    (gitargs : option nat) (set_env : option (list (string * string)))
    (timeout : Z) : M unit :=
  bind (or_new_list gitargs) (fun gitargs =>
  let set_env := default [] set_env in
  bind (if otruthy cache_dir then
          bind (emit (Mkdirs git_cache_dir)) (fun _ =>
          bind (if negb (exists_before w) then init_cache w remote_url
                else ret tt) (fun _ =>
          bind (emit (FireAndForget (repo_dir remote_url) "git fetch --all"))
            (fun _ =>
          extend gitargs
            ["--dissociate"; "--reference-if-able"; repo_dir remote_url])))
        else ret tt) (fun _ =>
  bind (extend gitargs ["--recurse-submodules"]) (fun _ =>
  bind (read_list gitargs) (fun args =>
  let cmd :=
    (if bool_decide (timeout <> 0%Z) then ["timeout"; pretty timeout] else [])
    ++ ["git"; "clone"; remote_url] ++ args ++ [target_dir] in
  may_raise (CmdArgs cmd 3 ["rm"; "-rf"; target_dir] set_env)
    (clone_raises w))))).

(** The arguments that a call adds to [gitargs]. *)
Definition added_args (remote_url : string) : list string :=
  (if otruthy cache_dir
   then ["--dissociate"; "--reference-if-able"; repo_dir remote_url]
   else [])
  ++ ["--recurse-submodules"].
End Clone.

(** An outside where the cache directory exists and nothing fails. *)
Definition warm_cache : world :=
  {| exists_before := true; tmp_repo_dir := "/cache/tmp1";
     init_raises := None; remote_add_raises := None; rename_raises := None;
     exists_after := true; clone_raises := None |}.

End GitClone.

(** * Theorems *)

Import PyStr Py.

(** ** Public-upstream translation *)

Section PublicUpstream.
Import Upstream.

(** C7: with the single rule from [git@github.com:org] to
    [https://example.com/pub], and a normaliser that writes the scp forms
    of the remote and of the private prefix as https URLs and leaves the
    public prefix as it is, [get_public_upstream] maps
    [git@github.com:org/priv.git] to [https://example.com/pub/priv] (with
    the rule's public branch). *)
Theorem get_public_upstream_org_rule (conv : string -> string)
    (pb : option string) :
  conv "git@github.com:org/priv.git" = "https://github.com/org/priv" ->
  conv "git@github.com:org" = "https://github.com/org" ->
  conv "https://example.com/pub" = "https://example.com/pub" ->
  get_public_upstream conv [org_rule pb] "git@github.com:org/priv.git"
  = ("https://example.com/pub/priv", pb).
Proof.
  intros Hremote Hpriv Hpub.
  unfold get_public_upstream, org_rule; simpl.
  unfold consider; simpl.
  rewrite Hremote, Hpriv, Hpub.
  reflexivity.
Qed.

Lemma get_public_upstream_org_rule_witness :
  get_public_upstream Util.convert_remote_git_to_https [org_rule None]
    "git@github.com:org/priv.git"
  = ("https://example.com/pub/priv", None).
Proof.
  apply (get_public_upstream_org_rule Util.convert_remote_git_to_https None);
    reflexivity.
Defined.

(** C1 (at a failing input): the remote [https://github.com/org/repo]
    matches both rules and the private prefix of [one_repo] strictly
    extends that of [org_wide], yet the substitution is made with
    [org_wide]: the contender is only replaced by a private prefix longer
    than its *public* prefix.  This holds with every normaliser that
    leaves the four https URLs of the example as they are. *)
Theorem get_public_upstream_keeps_shorter_prefix (conv : string -> string) :
  conv "https://github.com/org/repo" = "https://github.com/org/repo" ->
  conv "https://github.com/org" = "https://github.com/org" ->
  conv "https://gitlab.example.com/public-org"
  = "https://gitlab.example.com/public-org" ->
  conv "https://github.com/pub/repo" = "https://github.com/pub/repo" ->
  let remote := "https://github.com/org/repo" in
  matches conv remote org_wide = true
  /\ matches conv remote one_repo = true
  /\ startswith (conv (private one_repo)) (conv (private org_wide)) = true
  /\ String.length (conv (private org_wide))
       < String.length (conv (private one_repo))
  /\ get_public_upstream conv [org_wide; one_repo] remote
       = substitute_with conv org_wide remote
  /\ get_public_upstream conv [org_wide; one_repo] remote
       = ("https://gitlab.example.com/public-org/repo", None)
  /\ substitute_with conv one_repo remote
       = ("https://github.com/pub/repo", Some "main").
Proof.
  intros Hremote Hpriv1 Hpub1 Hpub2 remote. subst remote.
  unfold matches, substitute_with, get_public_upstream, consider,
    org_wide, one_repo; simpl.
  rewrite Hremote, Hpriv1, Hpub1, Hpub2. vm_compute.
  repeat split; lia.
Qed.

Lemma get_public_upstream_keeps_shorter_prefix_witness :
  get_public_upstream Util.convert_remote_git_to_https [org_wide; one_repo]
    "https://github.com/org/repo"
  = ("https://gitlab.example.com/public-org/repo", None).
Proof.
  apply (get_public_upstream_keeps_shorter_prefix
           Util.convert_remote_git_to_https); reflexivity.
Defined.

End PublicUpstream.

(** ** Source branch detection *)

Section BranchDetection.
Import Branch.

Lemma hex_not_space c : is_hex_digit c = true -> is_int_space c = false.
Proof.
  destruct c as [[] [] [] [] [] [] [] []]; vm_compute; congruence.
Qed.

Lemma hex_not_special c :
  is_hex_digit c = true ->
  Ascii.eqb c "+" = false /\ Ascii.eqb c "-" = false
  /\ Ascii.eqb c "x" = false /\ Ascii.eqb c "X" = false
  /\ Ascii.eqb c "_" = false.
Proof.
  destruct c as [[] [] [] [] [] [] [] []]; vm_compute; intuition congruence.
Qed.

Lemma scan_digits_hex s : forall n,
  all_chars is_hex_digit s = true ->
  scan_digits false n s = Some (n + String.length s, "").
Proof.
  induction s as [|c s IH]; intros n H; simpl in *.
  - f_equal. f_equal. lia.
  - apply andb_prop in H as [Hc Hs].
    destruct (hex_not_special c Hc) as (_ & _ & _ & _ & Hus).
    rewrite Hus, Hc, (IH (S n) Hs). f_equal. f_equal. lia.
Qed.

(** A non-empty text of hexadecimal digits is read by [int(_, 16)]. *)
Lemma int16_parses_hex s :
  all_chars is_hex_digit s = true -> s <> "" -> int16_parses s = true.
Proof.
  intros H Hne. destruct s as [|c s]; [congruence|].
  pose proof H as Hall. simpl in H. apply andb_prop in H as [Hc Hs].
  destruct (hex_not_special c Hc) as (Hp & Hm & Hx & HX & Hus).
  unfold int16_parses.
  assert (E1 : lstrip_by is_int_space (String c s) = String c s).
  { simpl. now rewrite (hex_not_space c Hc). }
  rewrite E1.
  assert (E2 : skip_sign (String c s) = String c s).
  { simpl. now rewrite Hp, Hm. }
  rewrite E2.
  assert (E3 : skip_hex_prefix (String c s) = String c s).
  { destruct s as [|d s]; [reflexivity|]. simpl in Hs.
    apply andb_prop in Hs as [Hd _].
    destruct (hex_not_special d Hd) as (_ & _ & Hdx & HdX & _).
    simpl. rewrite Hdx, HdX, andb_false_r. reflexivity. }
  rewrite E3.
  assert (E4 : startswith (String c s) "_" = false).
  { unfold startswith. cbn [String.prefix].
    destruct (ascii_dec "_" c) as [<-|]; [discriminate Hus|reflexivity]. }
  rewrite E4, (scan_digits_hex _ 0 Hall). simpl. reflexivity.
Qed.

Lemma is_branch_commit_hash_hex s :
  all_chars is_hex_digit s = true -> 7 <= String.length s ->
  is_branch_commit_hash s = true.
Proof.
  intros H Hlen. unfold is_branch_commit_hash.
  destruct (Nat.leb_spec 7 (String.length s)); [|lia].
  rewrite int16_parses_hex; [reflexivity|assumption|].
  intros ->. simpl in Hlen. lia.
Qed.

(** Whatever [is_branch_commit_hash] accepts as the target is returned
    at once, unless a stage branch or a forced fallback takes its place. *)
Lemma detect_returns_commit_hash (ls_remote : string -> string -> option string)
    (stage_opt : bool) (policy : option string) (sd : source_details) :
  is_branch_commit_hash (target (branch sd)) = true ->
  otruthy (if stage_opt then stage (branch sd) else None) = false ->
  policy <> Some "always" \/ otruthy (fallback (branch sd)) = false ->
  detect_remote_source_branch ls_remote stage_opt policy sd
  = ([], inr (target (branch sd), target (branch sd))).
Proof.
  intros Hhash Hstage Hpol. unfold detect_remote_source_branch.
  assert (E : bool_decide (policy = Some "always")
              && otruthy (fallback (branch sd)) = false).
  { destruct Hpol as [Hp|Hf].
    - rewrite bool_decide_eq_false_2; auto.
    - rewrite Hf. apply andb_false_r. }
  rewrite E.
  destruct (bool_decide (policy = Some "never")); simpl;
    rewrite Hstage, Hhash; reflexivity.
Qed.

(** C4 (counterexample): with [use_source_fallback_branch: always] and a
    fallback branch, the hexadecimal target [abcdef1] is not returned:
    the fallback takes its place and is looked up on the remote. *)
Lemma detect_forced_fallback_replaces_hash :
  all_chars is_hex_digit "abcdef1" = true
  /\ 7 <= String.length "abcdef1"
  /\ detect_remote_source_branch only_main false (Some "always")
       (details "abcdef1" (Some "main"))
     = ([LsRemote "https://github.com/org/repo" "main"],
        inr ("main", "7e66b10fbcd6bb4988275ffad0a69f563695901f"))
  /\ detect_remote_source_branch only_main false (Some "always")
       (details "abcdef1" (Some "main"))
     <> ([], inr ("abcdef1", "abcdef1")).
Proof. vm_compute. repeat split; try lia. discriminate. Qed.

(** C4 (amended): a target branch of at least 7 hexadecimal digits is
    returned as it is, as branch and as commit, without any query to the
    remote, when no stage branch is in force and the fallback branch is
    not forced ([use_source_fallback_branch] is not [always], or no
    fallback is configured). *)
Theorem detect_hex_target_without_lookup
    (ls_remote : string -> string -> option string) (stage_opt : bool)
    (policy : option string) (sd : source_details) :
  all_chars is_hex_digit (target (branch sd)) = true ->
  7 <= String.length (target (branch sd)) ->
  otruthy (if stage_opt then stage (branch sd) else None) = false ->
  policy <> Some "always" \/ otruthy (fallback (branch sd)) = false ->
  detect_remote_source_branch ls_remote stage_opt policy sd
  = ([], inr (target (branch sd), target (branch sd))).
Proof.
  intros Hhex Hlen. apply detect_returns_commit_hash.
  now apply is_branch_commit_hash_hex.
Qed.

Lemma detect_hex_target_without_lookup_witness :
  detect_remote_source_branch unreachable true (Some "never")
    (details "52edbcd8945af0dc728ad20f53dcd78c7478e8c2" (Some "main"))
  = ([], inr ("52edbcd8945af0dc728ad20f53dcd78c7478e8c2",
              "52edbcd8945af0dc728ad20f53dcd78c7478e8c2")).
Proof.
  apply (detect_hex_target_without_lookup unreachable true (Some "never")
           (details "52edbcd8945af0dc728ad20f53dcd78c7478e8c2" (Some "main"))).
  - reflexivity.
  - simpl. lia.
  - reflexivity.
  - left. discriminate.
Defined.

(** C10 (counterexample): [0xabcdef] is such a branch name.  As the stage
    branch in force it is looked up on the remote, and the run fails when
    the remote cannot be reached; as the target with a forced fallback it
    is set aside, and the fallback is looked up in its place. *)
Lemma detect_looks_up_beside_odd_hash :
  7 <= String.length "0xabcdef"
  /\ all_chars is_hex_digit "0xabcdef" = false
  /\ is_branch_commit_hash "0xabcdef" = true
  /\ detect_remote_source_branch unreachable true None
       (staged "main" "0xabcdef")
     = ([LsRemote "https://github.com/org/repo" "0xabcdef"],
        inl (DoozerFatalError
               ("--stage option specified and no stage branch named "
                  +:+ dquote +:+ "0xabcdef" +:+ dquote
                  +:+ " exists for https://github.com/org/repo")))
  /\ detect_remote_source_branch only_main false (Some "always")
       (details "0xabcdef" (Some "main"))
     = ([LsRemote "https://github.com/org/repo" "main"],
        inr ("main", "7e66b10fbcd6bb4988275ffad0a69f563695901f")).
Proof. vm_compute. repeat split; lia. Qed.

(** C10 (amended): [is_branch_commit_hash] holds of branch names of 7
    characters or more that are not made of hexadecimal digits (a sign, a
    [0x] prefix, an underscore between digits, white space around), and
    every branch name it holds of is, as the target branch, returned by
    [detect_remote_source_branch] as its own commit without any query to
    the remote when no stage branch is in force and the fallback is not
    forced. *)
Theorem is_branch_commit_hash_accepts_non_hex :
  Forall (fun b => 7 <= String.length b
                   /\ all_chars is_hex_digit b = false
                   /\ is_branch_commit_hash b = true) odd_hashes
  /\ forall (ls_remote : string -> string -> option string)
       (stage_opt : bool) (policy : option string) (sd : source_details),
       is_branch_commit_hash (target (branch sd)) = true ->
       otruthy (if stage_opt then stage (branch sd) else None) = false ->
       policy <> Some "always" \/ otruthy (fallback (branch sd)) = false ->
       detect_remote_source_branch ls_remote stage_opt policy sd
       = ([], inr (target (branch sd), target (branch sd))).
Proof.
  split.
  - unfold odd_hashes. repeat constructor; simpl; lia.
  - apply detect_returns_commit_hash.
Qed.

Lemma is_branch_commit_hash_accepts_non_hex_witness :
  detect_remote_source_branch no_heads false None (details "0xabcdef" None)
  = ([], inr ("0xabcdef", "0xabcdef")).
Proof.
  apply (proj2 is_branch_commit_hash_accepts_non_hex no_heads false None
           (details "0xabcdef" None)).
  - reflexivity.
  - reflexivity.
  - left. discriminate.
Defined.





End BranchDetection.

(** ** Assembly names *)

Section AssemblyNames.
Import Assembly.

Lemma fullmatch_Empty s : fullmatch Empty s = false.
Proof. induction s; simpl; auto. Qed.

Lemma fullmatch_Alt s : forall r1 r2,
  fullmatch (Alt r1 r2) s = fullmatch r1 s || fullmatch r2 s.
Proof. induction s as [|c s IH]; intros; simpl; auto. Qed.

Lemma fullmatch_Seq_Empty s : forall r, fullmatch (Seq Empty r) s = false.
Proof. induction s as [|c s IH]; intros; simpl; auto. Qed.

Lemma fullmatch_Seq_Eps s : forall r,
  fullmatch (Seq Eps r) s = fullmatch r s.
Proof.
  destruct s as [|c s]; intros; simpl; [reflexivity|].
  now rewrite fullmatch_Alt, fullmatch_Seq_Empty.
Qed.

Lemma fullmatch_after_Class (p : ascii -> bool) c r s :
  fullmatch (Seq (if p c then Eps else Empty) r) s = p c && fullmatch r s.
Proof.
  destruct (p c); simpl.
  - apply fullmatch_Seq_Eps.
  - apply fullmatch_Seq_Empty.
Qed.

Lemma fullmatch_Star_Class (p : ascii -> bool) s :
  fullmatch (Star (Class p)) s = all_chars p s.
Proof.
  induction s as [|c s IH]; simpl; [reflexivity|].
  now rewrite fullmatch_after_Class, IH.
Qed.

(** [c+] matches the non-empty texts whose characters are all in [c]. *)
Lemma fullmatch_Plus_Class (p : ascii -> bool) s :
  fullmatch (Plus (Class p)) s = truthy s && all_chars p s.
Proof.
  destruct s as [|c s]; simpl; [reflexivity|].
  now rewrite fullmatch_after_Class, fullmatch_Star_Class.
Qed.

(** C8: with assemblies enabled by the group or forced on the command
    line, the check of [initialize] keeps [4.14] and [my_release] and
    raises [ValueError] for [.foo], [foo.] and [foo/bar]; in general a
    name is kept exactly when it is a non-empty text of word characters
    and dots that neither starts nor ends with a dot, and is refused
    with [ValueError] otherwise. *)
Theorem check_assembly_names (isalnum_high : ascii -> bool)
    (assemblies_enabled enable_assemblies : bool) :
  assemblies_enabled || enable_assemblies = true ->
  let check := check_assembly isalnum_high assemblies_enabled
                 enable_assemblies in
  check "4.14" = inr (Some "4.14")
  /\ check "my_release" = inr (Some "my_release")
  /\ (exists msg, check ".foo" = inl (ValueError msg))
  /\ (exists msg, check "foo." = inl (ValueError msg))
  /\ (exists msg, check "foo/bar" = inl (ValueError msg))
  /\ forall name,
       let well_formed :=
         fullmatch (assembly_pattern isalnum_high) name
         && negb (first_is_dot name) && negb (last_is_dot name) in
       (fullmatch (assembly_pattern isalnum_high) name
        = truthy name && all_chars (word_or_dot isalnum_high) name)
       /\ (well_formed = true -> check name = inr (Some name))
       /\ (well_formed = false -> exists msg, check name = inl (ValueError msg)).
Proof.
  intros Hen check. subst check. unfold check_assembly. rewrite Hen.
  repeat split; try reflexivity; try (eexists; reflexivity).
  - apply fullmatch_Plus_Class.
  - intros H. apply andb_prop in H as [H H3]. apply andb_prop in H as [H1 H2].
    apply negb_true_iff in H2, H3. now rewrite H1, H2, H3.
  - intros H.
    destruct (fullmatch _ name); simpl in *; [|eauto].
    destruct (first_is_dot name); simpl in *; [eauto|].
    destruct (last_is_dot name); simpl in *; [eauto|discriminate].
Qed.

Lemma check_assembly_names_witness :
  check_assembly ascii_only true false "4.14" = inr (Some "4.14")
  /\ exists msg, check_assembly ascii_only true false "foo/bar"
                   = inl (ValueError msg).
Proof.
  pose proof (check_assembly_names ascii_only true false eq_refl)
    as (H1 & _ & _ & _ & H5 & _).
  split; [exact H1|exact H5].
Defined.

End AssemblyNames.

(** ** The consistency checks of [initialize] *)

Section ConsistencyChecks.
Import Checks.
Local Open Scope list_scope.

Lemma for_each_app {S A : Type} (body : S -> A -> result S) (l1 l2 : list A) :
  forall st,
    for_each body (l1 ++ l2) st
    = match for_each body l1 st with
      | inl e => inl e
      | inr st' => for_each body l2 st'
      end.
Proof.
  induction l1 as [|x l1 IH]; intros st; simpl; [reflexivity|].
  destruct (body st x); [reflexivity|apply IH].
Qed.

(** A loop is left at the first element whose body raises, whatever
    comes after it. *)
Lemma for_each_first_raise {S A : Type} (body : S -> A -> result S)
    (before after : list A) (x : A) (st st' : S) (e : exn) :
  for_each body before st = inr st' -> body st' x = inl e ->
  for_each body (before ++ x :: after) st = inl e.
Proof. intros H1 H2. rewrite for_each_app, H1. simpl. now rewrite H2. Qed.

Lemma for_each_unit_ok {A : Type} (body : unit -> A -> result unit)
    (l : list A) :
  (forall x, x ∈ l -> body tt x = inr tt) -> for_each body l tt = inr tt.
Proof.
  induction l as [|x l IH]; intros H; simpl; [reflexivity|].
  rewrite (H x); [|left]. apply IH. intros y Hy. apply H. now right.
Qed.

(** C2 (counterexample): with two cycles, two clashes of names in bundle
    or two duplicated distgits, each check raises for the first offender
    and its message does not name the second one. *)
Lemma checks_report_first_offender_only :
  (check_cycles (is_ancestor_in two_cycles) two_cycles
   = inl (DoozerFatalError
            "beta cannot be both a parent and dependent of alpha")
   /\ contains "beta cannot be both a parent and dependent of alpha"
        "gamma" = false
   /\ contains "beta cannot be both a parent and dependent of alpha"
        "delta" = false
   /\ is_ancestor_in two_cycles
        (ImageTree.Build_ImageMetadata "gamma" (Some "delta") ["delta"])
        "delta" = true)
  /\ (register_all_names two_name_clashes no_names
      = inl (ValueError
               "Image foo has name_in_bundle=foo, which is already taken by image ose-foo")
      /\ contains
           "Image foo has name_in_bundle=foo, which is already taken by image ose-foo"
           "bar" = false)
  /\ (check_collisions [] two_duplicates
      = inl (IOError
               "Complete duplicate distgit & branch; something wrong with metadata: containers/foo/#rhaos-4.14 from foo-copy.yml and foo.yml")
      /\ contains
           "Complete duplicate distgit & branch; something wrong with metadata: containers/foo/#rhaos-4.14 from foo-copy.yml and foo.yml"
           "bar" = false).
Proof. vm_compute. repeat split. Qed.

(** A loop that raises does so at some element, after the elements
    before it have passed. *)
Lemma for_each_raise_split {S A : Type} (body : S -> A -> result S)
    (l : list A) : forall (st : S) (e : exn),
  for_each body l st = inl e ->
  exists before x after st',
    l = before ++ x :: after
    /\ for_each body before st = inr st'
    /\ body st' x = inl e.
Proof.
  induction l as [|x l IH]; intros st e H; simpl in H; [discriminate|].
  destruct (body st x) as [e'|st1] eqn:Hx.
  - injection H as <-. exists [], x, l, st. auto.
  - destruct (IH _ _ H) as (before & y & after & st' & -> & Hb & Hy).
    exists (x :: before), y, after, st'. simpl. rewrite Hx. auto.
Qed.

Lemma ose_prefix_ne (w : string) : w <> "ose-" +:+ w.
Proof.
  intros E. apply (f_equal String.length) in E.
  change ("ose-" +:+ w)
    with (String "o" (String "s" (String "e" (String "-" w)))) in E.
  simpl in E. lia.
Qed.

(** What [register_names] raises, and when: without a second part in
    the image name an [IndexError]; otherwise the error of the first of
    its names in bundle that is taken, naming the image, that name and
    its holder. *)
Lemma register_names_error (st : name_maps) (img : image_data) (e : exn) :
  register_names st img = inl e ->
  (split_char "/" (data_name img) !! 1%nat = None
   /\ e = IndexError "list index out of range")
  \/ exists short_name n taken_by,
       split_char "/" (data_name img) !! 1%nat = Some short_name
       /\ name_in_bundle_map st !! n = Some taken_by
       /\ e = ValueError
                ("Image " +:+ key img +:+ " has name_in_bundle=" +:+ n
                   +:+ ", which is already taken by image " +:+ taken_by)
       /\ (let w := if startswith short_name "ose-" then drop 4 short_name
                    else short_name in
           if otruthy (data_name_in_bundle img)
           then n = default "" (data_name_in_bundle img)
           else n = w
                \/ (n = "ose-" +:+ w /\ name_in_bundle_map st !! w = None)).
Proof.
  unfold register_names.
  destruct (split_char "/" (data_name img) !! 1%nat) as [short|] eqn:Hsplit.
  2: { intros [= <-]. left. auto. }
  intros H. right. exists short.
  destruct (otruthy (data_name_in_bundle img)) eqn:Hdecl.
  - unfold _register_name_in_bundle in H. simpl in H.
    destruct (name_in_bundle_map st !! default "" (data_name_in_bundle img))
      as [taken|] eqn:Htaken; [|discriminate].
    injection H as <-.
    exists (default "" (data_name_in_bundle img)), taken.
    split; [reflexivity|]. split; [exact Htaken|].
    split; reflexivity.
  - set (w := if startswith short "ose-" then drop 4 short else short) in *.
    unfold _register_name_in_bundle in H. simpl in H.
    destruct (name_in_bundle_map st !! w) as [taken|] eqn:Hw.
    + injection H as <-. exists w, taken.
      split; [reflexivity|]. split; [exact Hw|].
      split; [reflexivity|]. now left.
    + simpl in H.
      rewrite lookup_insert_ne in H by apply ose_prefix_ne.
      destruct (name_in_bundle_map st !! ("ose-" +:+ w)) as [taken|] eqn:Hw';
        [|discriminate].
      injection H as <-. exists ("ose-" +:+ w), taken.
      split; [reflexivity|]. split; [exact Hw'|].
      split; [reflexivity|]. right. split; reflexivity.
Qed.

(** C2 (amended): each of the three checks stops at the first offender
    in iteration order and raises an error that names this offender and
    the item it clashes with; what follows it is not examined.  For the
    cycle check the first image with a child it descends from.  For the
    names in bundle the first image whose registration raises: the error
    names the image, the name that is taken (the declared name, or else
    the name derived from the short name, without and then with [ose-])
    and the image that holds it, and every error of this check other
    than the [IndexError] of an image name without second part is of
    this form.  For the distgits the first metadata whose namespace,
    name and branch were seen before. *)
Theorem checks_raise_at_first_offender :
  (forall (is_ancestor : ImageTree.ImageMetadata -> string -> bool)
      (before after : list ImageTree.ImageMetadata)
      (image : ImageTree.ImageMetadata) (c1 c2 : list string)
      (child : string),
      check_cycles is_ancestor before = inr tt ->
      ImageTree.children image = c1 ++ child :: c2 ->
      (forall c, c ∈ c1 -> is_ancestor image c = false) ->
      is_ancestor image child = true ->
      check_cycles is_ancestor (before ++ image :: after)
      = inl (DoozerFatalError
               (child +:+ " cannot be both a parent and dependent of "
                  +:+ ImageTree.distgit_key image)))
  /\ (forall (before after : list image_data) (img : image_data)
        (st st' : name_maps) (e : exn),
        register_all_names before st = inr st' ->
        register_names st' img = inl e ->
        register_all_names (before ++ img :: after) st = inl e)
  /\ (forall (before after : list image_data) (img : image_data)
        (st st' : name_maps) (short_name name_in_bundle taken_by : string),
        register_all_names before st = inr st' ->
        split_char "/" (data_name img) !! 1%nat = Some short_name ->
        data_name_in_bundle img = Some name_in_bundle ->
        truthy name_in_bundle = true ->
        name_in_bundle_map st' !! name_in_bundle = Some taken_by ->
        register_all_names (before ++ img :: after) st
        = inl (ValueError
                 ("Image " +:+ key img +:+ " has name_in_bundle="
                    +:+ name_in_bundle
                    +:+ ", which is already taken by image " +:+ taken_by)))
  /\ (forall (before after : list image_data) (img : image_data)
        (st st' : name_maps) (short_name taken_by : string),
        register_all_names before st = inr st' ->
        split_char "/" (data_name img) !! 1%nat = Some short_name ->
        otruthy (data_name_in_bundle img) = false ->
        let w := if startswith short_name "ose-" then drop 4 short_name
                 else short_name in
        (name_in_bundle_map st' !! w = Some taken_by ->
         register_all_names (before ++ img :: after) st
         = inl (ValueError
                  ("Image " +:+ key img +:+ " has name_in_bundle=" +:+ w
                     +:+ ", which is already taken by image " +:+ taken_by)))
        /\ (name_in_bundle_map st' !! w = None ->
            name_in_bundle_map st' !! ("ose-" +:+ w) = Some taken_by ->
            register_all_names (before ++ img :: after) st
            = inl (ValueError
                     ("Image " +:+ key img +:+ " has name_in_bundle="
                        +:+ "ose-" +:+ w
                        +:+ ", which is already taken by image "
                        +:+ taken_by))))
  /\ (forall (image_name_data : list image_data) (st : name_maps) (e : exn),
        register_all_names image_name_data st = inl e ->
        exists before img after st',
          image_name_data = before ++ img :: after
          /\ register_all_names before st = inr st'
          /\ ((split_char "/" (data_name img) !! 1%nat = None
               /\ e = IndexError "list index out of range")
              \/ exists short_name n taken_by,
                   split_char "/" (data_name img) !! 1%nat = Some short_name
                   /\ name_in_bundle_map st' !! n = Some taken_by
                   /\ e = ValueError
                            ("Image " +:+ key img +:+ " has name_in_bundle="
                               +:+ n
                               +:+ ", which is already taken by image "
                               +:+ taken_by)
                   /\ (let w := if startswith short_name "ose-"
                                then drop 4 short_name else short_name in
                       if otruthy (data_name_in_bundle img)
                       then n = default "" (data_name_in_bundle img)
                       else n = w \/ n = "ose-" +:+ w)))
  /\ (forall (rpm_metas image_metas before after : list meta) (m other : meta)
        (seen : gmap string meta),
        rpm_metas ++ image_metas = before ++ m :: after ->
        check_collisions [] before = inr seen ->
        seen !! collide_key m = Some other ->
        check_collisions rpm_metas image_metas
        = inl (IOError
                 ("Complete duplicate distgit & branch; something wrong with metadata: "
                    +:+ collide_key m +:+ " from " +:+ config_filename m
                    +:+ " and " +:+ config_filename other))).
Proof.
  split; [|split; [|split; [|split; [|split]]]].
  - intros is_ancestor before after image c1 c2 child Hb Hch Hc1 Hchild.
    unfold check_cycles. apply (for_each_first_raise _ _ _ _ _ _ _ Hb).
    unfold check_image. rewrite Hch.
    apply for_each_first_raise with (st' := tt).
    + apply for_each_unit_ok. intros c Hc. unfold check_child.
      now rewrite (Hc1 c Hc).
    + unfold check_child. now rewrite Hchild.
  - intros before after img st st' e Hb He.
    now apply for_each_first_raise with st'.
  - intros before after img st st' short nib taken Hb Hsplit Hnib Htr Htaken.
    unfold register_all_names. apply (for_each_first_raise _ _ _ _ _ _ _ Hb).
    unfold register_names. rewrite Hsplit, Hnib. simpl. rewrite Htr.
    unfold _register_name_in_bundle. simpl. now rewrite Htaken.
  - intros before after img st st' short taken Hb Hsplit Hdecl w. split.
    + intros Hw. unfold register_all_names.
      apply (for_each_first_raise _ _ _ _ _ _ _ Hb).
      unfold register_names. rewrite Hsplit, Hdecl. fold w.
      unfold _register_name_in_bundle. simpl. now rewrite Hw.
    + intros Hw Hose. unfold register_all_names.
      apply (for_each_first_raise _ _ _ _ _ _ _ Hb).
      unfold register_names. rewrite Hsplit, Hdecl. fold w.
      unfold _register_name_in_bundle. simpl. rewrite Hw. simpl.
      rewrite lookup_insert_ne by apply ose_prefix_ne.
      now rewrite Hose.
  - intros data st e H. unfold register_all_names in H.
    apply for_each_raise_split in H
      as (before & img & after & st' & -> & Hb & He).
    exists before, img, after, st'. split; [reflexivity|].
    split; [exact Hb|].
    apply register_names_error in He
      as [He|(short & n & taken & Hs & Hn & -> & Hwhich)]; [now left|].
    right. exists short, n, taken.
    split; [exact Hs|]. split; [exact Hn|]. split; [reflexivity|].
    cbv zeta in *. destruct (otruthy (data_name_in_bundle img));
      [exact Hwhich|].
    destruct Hwhich as [->|[-> _]]; auto.
  - intros rpm_metas image_metas before after m other seen Heq Hb Hseen.
    unfold check_collisions in *. rewrite Heq. simpl in Hb.
    apply (for_each_first_raise _ _ _ _ _ _ _ Hb).
    unfold check_collision. now rewrite Hseen.
Qed.

Lemma checks_raise_at_first_offender_witness :
  check_cycles (is_ancestor_in two_cycles) two_cycles
  = inl (DoozerFatalError
           "beta cannot be both a parent and dependent of alpha")
  /\ register_all_names [operator_image; operand_image] no_names
     = inl (ValueError
              "Image my-operand has name_in_bundle=operator, which is already taken by image my-operator")
  /\ register_all_names two_name_clashes no_names
     = inl (ValueError
              "Image foo has name_in_bundle=foo, which is already taken by image ose-foo")
  /\ check_collisions [] two_duplicates
     = inl (IOError
              "Complete duplicate distgit & branch; something wrong with metadata: containers/foo/#rhaos-4.14 from foo-copy.yml and foo.yml").
Proof.
  destruct checks_raise_at_first_offender as (Hc & _ & Hn & Hw & _ & Hd).
  split; [|split; [|split]].
  - apply (Hc (is_ancestor_in two_cycles) []
             [ImageTree.Build_ImageMetadata "beta" (Some "alpha") ["alpha"];
              ImageTree.Build_ImageMetadata "gamma" (Some "delta") ["delta"];
              ImageTree.Build_ImageMetadata "delta" (Some "gamma") ["gamma"]]
             (ImageTree.Build_ImageMetadata "alpha" (Some "beta") ["beta"])
             [] [] "beta"); try reflexivity.
    intros c Hin. inversion Hin.
  - eapply (Hn [operator_image] [] operand_image no_names _
              "ose-my-operand" "operator" "my-operator"); reflexivity.
  - eapply (proj1 (Hw (list.take 1 two_name_clashes)
                     (list.drop 2 two_name_clashes)
                     {| key := "foo"; data_name := "openshift/foo";
                        data_name_in_bundle := None |}
                     no_names _ "foo" "ose-foo" eq_refl eq_refl eq_refl));
      reflexivity.
  - eapply (Hd [] two_duplicates
              [Build_meta "containers" "foo" "rhaos-4.14" "foo.yml"]
              [Build_meta "containers" "bar" "rhaos-4.14" "bar.yml";
               Build_meta "containers" "bar" "rhaos-4.14" "bar-copy.yml"]
              (Build_meta "containers" "foo" "rhaos-4.14" "foo-copy.yml")
              (Build_meta "containers" "foo" "rhaos-4.14" "foo.yml"));
      reflexivity.
Defined.

End ConsistencyChecks.

(** ** Named semaphores *)

Section NamedSemaphores.
Import Semaphores.
Local Open Scope list_scope.

(** An entry of the registry is never removed nor replaced. *)
Lemma do_call_keeps (c : call) (rt : runtime) (k : string) (a : nat) :
  named_semaphores rt !! k = Some a ->
  named_semaphores (snd (do_call c rt)) !! k = Some a.
Proof.
  intros H. unfold do_call, get_named_semaphore.
  destruct (named_semaphores rt !! normalized_key _ _ _) eqn:E; simpl; auto.
  rewrite lookup_insert_ne; auto. intros <-. congruence.
Qed.

Lemma run_keeps (calls : list call) : forall (rt : runtime) k a,
  named_semaphores rt !! k = Some a ->
  named_semaphores (run calls rt) !! k = Some a.
Proof.
  induction calls as [|c calls IH]; intros rt k a H; simpl; auto.
  apply IH. now apply do_call_keeps.
Qed.

(** After a call its key is bound to the object it returned. *)
Lemma do_call_binds (c : call) (rt : runtime) :
  named_semaphores (snd (do_call c rt)) !! call_key c
  = Some (fst (do_call c rt)).
Proof.
  unfold do_call, get_named_semaphore, call_key.
  destruct (named_semaphores rt !! normalized_key _ _ _) eqn:E; simpl; auto.
  apply lookup_insert_eq.
Qed.

Lemma do_call_bound (c : call) (rt : runtime) (a : nat) :
  named_semaphores rt !! call_key c = Some a -> fst (do_call c rt) = a.
Proof.
  unfold do_call, get_named_semaphore, call_key. now intros ->.
Qed.

(** A key that no call asked for stays unbound. *)
Lemma run_unbound (calls : list call) : forall (rt : runtime) k,
  named_semaphores rt !! k = None ->
  (forall c, c ∈ calls -> call_key c <> k) ->
  named_semaphores (run calls rt) !! k = None.
Proof.
  induction calls as [|c calls IH]; intros rt k H Hne; simpl; auto.
  apply IH.
  - unfold do_call, get_named_semaphore.
    destruct (named_semaphores rt !! normalized_key _ _ _) eqn:E; simpl; auto.
    rewrite lookup_insert_ne; auto. apply (Hne c). left.
  - intros c' Hc'. apply Hne. now right.
Qed.

(** The key [''] is the registry's own: [__init__] binds it to the lock
    that guards the registry, so a call for it creates nothing and
    returns that lock. *)
Lemma reserved_key_returns_registry_lock :
  fst (do_call (reserved_key 1) init) = 0
  /\ heap init !! 0 = Some Lock
  /\ snd (do_call (reserved_key 1) init) = init
  /\ ~ (length (heap init) <= fst (do_call (reserved_key 1) init)).
Proof. vm_compute. repeat split. lia. Qed.

(** C9: every call of [get_named_semaphore] after the first one for a
    key returns the object that the first one returned; the first call
    for a key creates that object, a semaphore with the requested count
    (the key [''] aside, which the registry reserves for its own lock);
    and in directory mode [/tmp/x/] and [/tmp/x] are the same key, so
    both get the identical lock. *)
Theorem named_semaphore_is_shared :
  (forall (rt : runtime) (first later : call) (others : list call),
      call_key later = call_key first ->
      fst (do_call later (run others (snd (do_call first rt))))
      = fst (do_call first rt))
  /\ (forall (before : list call) (first : call),
        call_key first <> "" ->
        (forall c, c ∈ before -> call_key c <> call_key first) ->
        let rt0 := run before init in
        let sem := fst (do_call first rt0) in
        heap rt0 !! sem = None
        /\ heap (snd (do_call first rt0)) !! sem
           = Some (Semaphore (count first)))
  /\ (forall (rt : runtime) (cwd1 cwd2 : string) (n1 n2 : nat)
        (others : list call),
        fst (do_call (tmp_x cwd2 n2)
               (run others (snd (do_call (tmp_x_slash cwd1 n1) rt))))
        = fst (do_call (tmp_x_slash cwd1 n1) rt)
        /\ fst (do_call (tmp_x_slash cwd2 n2)
                  (run others (snd (do_call (tmp_x cwd1 n1) rt))))
           = fst (do_call (tmp_x cwd1 n1) rt)).
Proof.
  assert (Hshared : forall rt first later others,
             call_key later = call_key first ->
             fst (do_call later (run others (snd (do_call first rt))))
             = fst (do_call first rt)).
  { intros rt first later others Hkey. apply do_call_bound.
    rewrite Hkey. apply run_keeps, do_call_binds. }
  split; [exact Hshared|split].
  - intros before first Hne Hfirst rt0 sem. subst sem.
    assert (Hnone : named_semaphores rt0 !! call_key first = None).
    { apply run_unbound; [|exact Hfirst].
      unfold init; simpl. apply lookup_singleton_ne. congruence. }
    unfold do_call, get_named_semaphore. fold (call_key first).
    rewrite Hnone. simpl. split.
    + apply lookup_ge_None. lia.
    + now apply list_lookup_middle.
  - intros rt cwd1 cwd2 n1 n2 others. split; apply Hshared; reflexivity.
Qed.

Lemma named_semaphore_is_shared_witness :
  fst (do_call (tmp_x "/home" 1)
         (run [reserved_key 1] (snd (do_call (tmp_x_slash "/" 2) init))))
  = fst (do_call (tmp_x_slash "/" 2) init)
  /\ heap (snd (do_call (tmp_x_slash "/" 2) (run [reserved_key 1] init)))
       !! fst (do_call (tmp_x_slash "/" 2) (run [reserved_key 1] init))
     = Some (Semaphore 2).
Proof.
  destruct named_semaphore_is_shared as (Hshared & Hfresh & _).
  split.
  - apply (Hshared init (tmp_x_slash "/" 2) (tmp_x "/home" 1)
             [reserved_key 1]). reflexivity.
  - apply (Hfresh [reserved_key 1] (tmp_x_slash "/" 2)).
    + discriminate.
    + intros c Hc. apply list_elem_of_singleton in Hc as ->. discriminate.
Defined.

End NamedSemaphores.

(** ** The pool of koji sessions *)

Section PooledSessions.
Import SessionPool.
Local Open Scope list_scope.

Lemma decide_session_bound (new_client : session) (rt : runtime) :
  size (session_pool rt) <= 30 ->
  size (session_pool (snd (decide_session new_client rt))) <= 30.
Proof.
  intros H. unfold decide_session.
  destruct (popitem (session_pool_available rt)) as [[[id s] rest]|]; simpl; auto.
  destruct (decide (size (session_pool rt) < 30)) as [Hlt|]; simpl; auto.
  rewrite map_size_insert. destruct (session_pool rt !! _); simpl; lia.
Qed.

Lemma step_bound (new_client : session) (o : outcome) (pos : position)
    (rt : runtime) :
  size (session_pool rt) <= 30 ->
  size (session_pool (snd (step new_client o pos rt))) <= 30.
Proof.
  intros H. destruct pos; simpl; auto.
  pose proof (decide_session_bound new_client rt H) as Hd.
  destruct (decide_session new_client rt) as [[id s|n] rt']; simpl in *; auto.
Qed.

Lemma dict_set_elem {K V : Type} `{EqDecision K} (k : K) (v : V)
    (d : list (K * V)) :
  (k, v) ∈ dict_set k v d.
Proof.
  induction d as [|[k' w] d IH]; simpl.
  - left.
  - destruct (decide (k' = k)) as [->|]; [left|now right].
Qed.

(** C6: under any interleaving of the threads that use it, the pool never
    holds more than 30 sessions; a thread that finds no session
    available and the pool at capacity changes nothing, sleeps 5 and
    takes the decision again; and however the caller's body is left, by
    return or by an exception, the [finally] clause sets the caching flag
    of the leased session to [False] and puts the session back among the
    available ones. *)
Theorem pooled_session_contract (new_client : session) :
  (forall s : system, reachable new_client s ->
                      size (session_pool (snd s)) <= 30)
  /\ (forall (rt rt' : runtime) (caching : bool) (o o' : outcome),
        session_pool_available rt = [] ->
        30 <= size (session_pool rt) ->
        decide_session new_client rt = (Sleep 5, rt)
        /\ step new_client o (Deciding caching) rt = (Sleeping caching 5, rt)
        /\ step new_client o' (Sleeping caching 5) rt'
           = (Deciding caching, rt'))
  /\ (forall (o o1 o2 : outcome) (session_id session : nat)
        (rt rt1 rt2 : runtime),
        session < length (sessions rt1) ->
        step new_client o (Yielded session_id session) rt
        = (Finally o session_id session, rt)
        /\ fst (step new_client o1 (Finally o session_id session) rt1)
           = Returning o session_id session
        /\ sessions (snd (step new_client o1 (Finally o session_id session) rt1))
             !! session
           = Some {| force_instance_caching := false |}
        /\ fst (step new_client o2 (Returning o session_id session) rt2)
           = Left o
        /\ (session_id, session)
             ∈ session_pool_available
                 (snd (step new_client o2 (Returning o session_id session) rt2))
        /\ snd (leave o session_id session rt1)
           = snd (step new_client o2 (Returning o session_id session)
                    (snd (step new_client o1 (Finally o session_id session) rt1)))).
Proof.
  split; [|split].
  - intros s Hs. induction Hs as [|s s' Hs IH Hstep].
    + simpl. rewrite map_size_empty. lia.
    + destruct Hstep as [threads rt i pos o Hpos|threads rt caching]; simpl in *.
      * now apply step_bound.
      * exact IH.
  - intros rt rt' caching o o' Hav Hfull.
    assert (Hd : decide_session new_client rt = (Sleep 5, rt)).
    { unfold decide_session. rewrite Hav. simpl.
      destruct (decide (size (session_pool rt) < 30)); [lia|reflexivity]. }
    split; [exact Hd|]. split; [|reflexivity].
    simpl. now rewrite Hd.
  - intros o o1 o2 session_id session rt rt1 rt2 Hlt. simpl.
    repeat split.
    + now apply list_lookup_insert_eq.
    + apply dict_set_elem.
Qed.

Lemma pooled_session_contract_witness :
  decide_session plain_client exhausted = (Sleep 5, exhausted)
  /\ sessions (snd (step plain_client Returned
                      (Finally (Raised (IOError "connection reset")) 0 0)
                      one_leased)) !! 0
     = Some {| force_instance_caching := false |}.
Proof.
  destruct (pooled_session_contract plain_client) as (_ & Hfull & Hleave).
  split.
  - apply (Hfull exhausted exhausted false Returned Returned).
    + reflexivity.
    + vm_compute. lia.
  - apply (Hleave (Raised (IOError "connection reset")) Returned Returned
             0 0 one_leased one_leased one_leased).
    simpl. lia.
Defined.

End PooledSessions.

(** ** The build order *)

Section BuildOrder.
Import ImageTree.
Local Open Scope list_scope.

(** *** The order computed from the levels *)

Lemma order_levels_concat (image_lists : image_lists_t) : forall acc,
  fold_left (fun order level => fold_left append_new level order)
    image_lists acc
  = fold_left append_new (concat image_lists) acc.
Proof.
  induction image_lists as [|l ls IH]; intros acc; simpl; [reflexivity|].
  now rewrite fold_left_app, IH.
Qed.

Lemma append_all_extends (xs : list string) : forall acc,
  exists ext, fold_left append_new xs acc = acc ++ ext.
Proof.
  induction xs as [|x xs IH]; intros acc; simpl.
  - exists []. now rewrite app_nil_r.
  - destruct (IH (append_new acc x)) as [ext Hext]. rewrite Hext.
    unfold append_new. destruct (decide (x ∈ acc)); [now exists ext|].
    exists (x :: ext). now rewrite <- app_assoc.
Qed.

Lemma append_all_elem (xs : list string) : forall acc x,
  x ∈ fold_left append_new xs acc <-> x ∈ acc \/ x ∈ xs.
Proof.
  induction xs as [|y xs IH]; intros acc x; simpl.
  - rewrite elem_of_nil. tauto.
  - rewrite IH, elem_of_cons. unfold append_new.
    destruct (decide (y ∈ acc)) as [Hy|Hy].
    + split; [tauto|]. intros [H|[->|H]]; auto.
    + rewrite elem_of_app, list_elem_of_singleton. tauto.
Qed.

Lemma append_all_NoDup (xs : list string) : forall acc,
  NoDup acc -> NoDup (fold_left append_new xs acc).
Proof.
  induction xs as [|y xs IH]; intros acc H; simpl; [exact H|].
  apply IH. unfold append_new. destruct (decide (y ∈ acc)); [exact H|].
  apply NoDup_app. repeat split; auto.
  - intros x Hx Hx'. apply list_elem_of_singleton in Hx' as ->. auto.
  - apply NoDup_singleton.
Qed.

Lemma elem_of_concat (ls : list (list string)) (x : string) :
  x ∈ concat ls <-> exists l, l ∈ ls /\ x ∈ l.
Proof.
  induction ls as [|l ls IH]; simpl.
  - split; [intros H; inversion H|intros (l & H & _); inversion H].
  - rewrite elem_of_app, IH. split.
    + intros [H|(l' & H1 & H2)]; [exists l|exists l']; split; auto;
        [left|now right].
    + intros (l' & H1 & H2). apply elem_of_cons in H1 as [->|H1]; eauto.
Qed.

(** An element that is listed at some level only after level [d], while
    [x] is listed at level [d], comes after [x] in the order. *)
Lemma order_levels_after (image_lists : image_lists_t) (d : nat)
    (x y : string) (before after : list string) :
  at_level image_lists d x ->
  (forall lvl, lvl <= d -> ~ at_level image_lists lvl y) ->
  order_levels image_lists = before ++ y :: after ->
  x ∈ before.
Proof.
  intros Hx Hy Horder. unfold order_levels in Horder.
  rewrite order_levels_concat in Horder.
  rewrite <- (take_drop (S d) image_lists), concat_app, fold_left_app in Horder.
  set (low := fold_left append_new (concat (list.take (S d) image_lists)) []) in *.
  assert (Hxlow : x ∈ low).
  { apply append_all_elem. right. destruct Hx as (l & Hl & Hxl).
    apply elem_of_concat. exists l. split; [|exact Hxl].
    apply list_elem_of_lookup. exists d. rewrite lookup_take_lt; auto. }
  assert (Hylow : y ∉ low).
  { intros Hin. apply append_all_elem in Hin as [Hin|Hin]; [inversion Hin|].
    apply elem_of_concat in Hin as (l & Hl & Hyl).
    apply list_elem_of_lookup in Hl as [lvl Hlvl].
    pose proof (lookup_lt_Some _ _ _ Hlvl) as Hlt.
    rewrite length_take in Hlt.
    rewrite lookup_take_lt in Hlvl by lia.
    apply (Hy lvl); [lia|]. now exists l. }
  destruct (append_all_extends (concat (list.drop (S d) image_lists)) low)
    as [ext Hext].
  rewrite Hext in Horder.
  apply app_eq_inv in Horder as [(k & Hlow & Hk)|(k & Hbefore & _)].
  - destruct k as [|z k].
    + rewrite app_nil_r in Hlow. now rewrite <- Hlow.
    + simpl in Hk. injection Hk as <- _. exfalso. apply Hylow.
      rewrite Hlow. apply elem_of_app. right. left.
  - rewrite Hbefore. apply elem_of_app. now left.
Qed.

(** *** Lookups in the image map *)

Lemma lookup_image_Some (image_map : image_map_t) key i :
  lookup_image key image_map = Some i ->
  i ∈ image_map /\ distgit_key i = key.
Proof.
  induction image_map as [|j rest IH]; simpl; [discriminate|].
  destruct (String.eqb_spec (distgit_key j) key) as [E|E].
  - intros [= ->]. split; [left|exact E].
  - intros H. destruct (IH H). split; [now right|assumption].
Qed.

Lemma lookup_image_elem (image_map : image_map_t) i :
  NoDup (distgit_key <$> image_map) -> i ∈ image_map ->
  lookup_image (distgit_key i) image_map = Some i.
Proof.
  induction image_map as [|j rest IH]; intros Hnd Hin; [inversion Hin|].
  simpl in *. apply NoDup_cons in Hnd as [Hj Hnd].
  apply elem_of_cons in Hin as [->|Hin].
  - now rewrite String.eqb_refl.
  - destruct (String.eqb_spec (distgit_key j) (distgit_key i)) as [E|E].
    + exfalso. apply Hj. rewrite E. now apply list_elem_of_fmap_2.
    + now apply IH.
Qed.

(** *** Levels *)

Lemma at_level_ensure level (image_lists : image_lists_t) lvl key :
  at_level (ensure_level level image_lists) lvl key
  <-> at_level image_lists lvl key.
Proof.
  unfold ensure_level, at_level.
  destruct (decide (level < length image_lists)); [reflexivity|].
  split; intros (l & Hl & Hk); exists l; split; auto.
  - apply lookup_app_Some in Hl as [Hl|[_ Hl]]; [exact Hl|].
    apply lookup_replicate in Hl as [-> _]. inversion Hk.
  - now apply lookup_app_l_Some.
Qed.

Lemma length_ensure level (image_lists : image_lists_t) :
  level < length (ensure_level level image_lists)
  /\ length image_lists <= length (ensure_level level image_lists).
Proof.
  unfold ensure_level.
  destruct (decide (level < length image_lists)); [lia|].
  rewrite length_app, length_replicate. lia.
Qed.

Lemma at_level_append level key (image_lists : image_lists_t) lvl k :
  level < length image_lists ->
  at_level (append_at level key image_lists) lvl k
  <-> at_level image_lists lvl k \/ (lvl = level /\ k = key).
Proof.
  intros Hlt. unfold append_at, at_level.
  destruct (lookup_lt_is_Some_2 _ _ Hlt) as [l0 Hl0].
  split.
  - intros (l & Hl & Hk). rewrite list_lookup_alter in Hl.
    destruct (decide (level = lvl)) as [<-|Hne].
    + rewrite Hl0 in Hl. simpl in Hl. injection Hl as <-.
      apply elem_of_app in Hk as [Hk|Hk].
      * left. now exists l0.
      * right. apply list_elem_of_singleton in Hk. auto.
    + left. now exists l.
  - intros [(l & Hl & Hk)|[-> ->]].
    + destruct (decide (level = lvl)) as [<-|Hne].
      * exists (l0 ++ [key]). rewrite list_lookup_alter_eq, Hl0.
        split; [reflexivity|]. rewrite Hl0 in Hl. injection Hl as <-.
        apply elem_of_app. now left.
      * exists l. now rewrite list_lookup_alter_ne.
    + exists (l0 ++ [key]). rewrite list_lookup_alter_eq, Hl0.
      split; [reflexivity|]. apply elem_of_app. right. left.
Qed.

Lemma grows_refl (il : image_lists_t) : grows il il.
Proof. split; auto. Qed.

Lemma grows_trans (il1 il2 il3 : image_lists_t) :
  grows il1 il2 -> grows il2 il3 -> grows il1 il3.
Proof. intros [L1 H1] [L2 H2]. split; [lia|auto]. Qed.

Lemma grows_ensure level (il : image_lists_t) :
  grows il (ensure_level level il).
Proof.
  split; [apply length_ensure|]. intros lvl k. now rewrite at_level_ensure.
Qed.

Lemma grows_append level key (il : image_lists_t) :
  level < length il -> grows il (append_at level key il).
Proof.
  intros Hlt. split.
  - unfold append_at. now rewrite length_alter.
  - intros lvl k H. apply at_level_append; auto.
Qed.

Section WithImageMap.
Variable image_map : image_map_t.
Hypothesis Hkeys : NoDup (distgit_key <$> image_map).
Hypothesis Hres : children_resolved image_map.

(** *** Depths *)

Lemma at_depth_functional key d :
  at_depth image_map key d ->
  forall d', at_depth image_map key d' -> d = d'.
Proof.
  induction 1 as [key i Hi Hp|key i p d Hi Hp Hd IH];
    intros d' H'; inversion H' as [k' i' Hi' Hp'|k' i' p' e Hi' Hp' Hd'];
    subst; rewrite Hi in Hi'; injection Hi' as <-; try congruence.
  rewrite Hp in Hp'. injection Hp' as <-. f_equal. now apply IH.
Qed.

(** The parents above a key are as many different keys of the map. *)
Lemma at_depth_path key d :
  at_depth image_map key d ->
  exists path : list string,
    length path = S d /\ NoDup path
    /\ (forall x, x ∈ path -> x ∈ distgit_key <$> image_map)
    /\ (forall x, x ∈ path ->
                  exists d', d' <= d /\ at_depth image_map x d').
Proof.
  induction 1 as [key i Hi Hp|key i p d Hi Hp Hd IH].
  - exists [key]. repeat split.
    + apply NoDup_singleton.
    + intros x Hx. apply list_elem_of_singleton in Hx as ->.
      destruct (lookup_image_Some _ _ _ Hi) as [Hin <-].
      now apply list_elem_of_fmap_2.
    + intros x Hx. apply list_elem_of_singleton in Hx as ->.
      exists 0. split; [lia|]. now apply depth_root with i.
  - destruct IH as (path & Hlen & Hnd & Hsub & Hdepth).
    exists (key :: path). repeat split.
    + simpl. now rewrite Hlen.
    + apply NoDup_cons. split; [|exact Hnd].
      intros Hin. destruct (Hdepth _ Hin) as (d' & Hle & Hd').
      assert (S d = d')
        by (eapply at_depth_functional; [eapply depth_child|]; eauto).
      lia.
    + intros x Hx. apply elem_of_cons in Hx as [->|Hx]; [|auto].
      destruct (lookup_image_Some _ _ _ Hi) as [Hin <-].
      now apply list_elem_of_fmap_2.
    + intros x Hx. apply elem_of_cons in Hx as [->|Hx].
      * exists (S d). split; [lia|]. now apply depth_child with i p.
      * destruct (Hdepth _ Hx) as (d' & Hle & Hd'). exists d'.
        split; [lia|exact Hd'].
Qed.

Lemma at_depth_bound key d :
  at_depth image_map key d -> d < length image_map.
Proof.
  intros H. destruct (at_depth_path _ _ H) as (path & Hlen & Hnd & Hsub & _).
  pose proof (submseteq_length _ _ (NoDup_submseteq _ _ Hnd Hsub)) as Hle.
  rewrite length_fmap in Hle. lia.
Qed.

(** *** The walk over the tree *)

Lemma levels_sound_append d key sub_child p (il : image_lists_t) :
  levels_sound image_map il ->
  S d < length il ->
  lookup_image key image_map = Some sub_child ->
  parent sub_child = Some p ->
  at_level il d p ->
  levels_sound image_map (append_at (S d) key il).
Proof.
  intros [HA HB] Hlt Hsub Hp Hat. split.
  - intros lvl k Hk. apply at_level_append in Hk as [Hk|[-> ->]]; auto.
    eapply depth_child; eauto.
  - intros lvl k Hk. apply at_level_append in Hk as [Hk|[[= ->] ->]]; auto.
    + destruct (HB _ _ Hk) as (i & q & Hi & Hq & Hlq).
      exists i, q. repeat split; auto. apply at_level_append; auto.
    + exists sub_child, p. repeat split; auto. apply at_level_append; auto.
Qed.

(** The loop over the children, given that the recursive call behaves
    on every image listed one level further. *)
Lemma for_children_sound recurse child d :
  (forall sub (il : image_lists_t),
      lookup_image (distgit_key sub) image_map = Some sub ->
      at_level il (S d) (distgit_key sub) ->
      levels_sound image_map il ->
      exists b il', recurse sub il = Some (b, il')
                    /\ levels_sound image_map il' /\ grows il il') ->
  child ∈ image_map ->
  forall subs, (forall c, c ∈ subs -> c ∈ children child) ->
  forall branch (il : image_lists_t),
    levels_sound image_map il ->
    at_level il d (distgit_key child) ->
    S d < length il ->
    exists b il',
      for_children recurse image_map (S d) subs branch il = Some (b, il')
      /\ levels_sound image_map il' /\ grows il il'.
Proof.
  intros Hrec Hchild subs.
  induction subs as [|key subs IH]; intros Hsubs branch il Hinv Hat Hlen; simpl.
  - exists branch, il. split; [reflexivity|].
    split; [exact Hinv|apply grows_refl].
  - assert (Hsubs' : forall c, c ∈ subs -> c ∈ children child)
      by (intros c Hc; apply Hsubs; now right).
    destruct (lookup_image key image_map) as [sub_child|] eqn:Hsub;
      [|now apply IH].
    assert (Hp : parent sub_child = Some (distgit_key child)).
    { apply (Hres child key sub_child); auto. apply Hsubs. left. }
    destruct (lookup_image_Some _ _ _ Hsub) as [_ Hkey].
    pose proof (levels_sound_append d key sub_child _ il Hinv Hlen Hsub Hp Hat)
      as Hinv1.
    pose proof (grows_append (S d) key il Hlen) as Hg1.
    destruct (Hrec sub_child (append_at (S d) key il))
      as (sub_branch & il2 & Hcall & Hinv2 & Hg2); auto.
    { now rewrite Hkey. }
    { rewrite Hkey. apply at_level_append; auto. }
    rewrite Hcall.
    pose proof (grows_trans _ _ _ Hg1 Hg2) as Hg.
    destruct (IH Hsubs' (dict_set key (Tree sub_branch) branch) il2)
      as (b & il3 & Hloop & Hinv3 & Hg3); auto.
    { now apply Hg. }
    { destruct Hg. lia. }
    exists b, il3. split; [exact Hloop|].
    split; [exact Hinv3|]. eapply grows_trans; eauto.
Qed.

Lemma add_child_branch_sound fuel : forall child branch d (il : image_lists_t),
  lookup_image (distgit_key child) image_map = Some child ->
  at_level il d (distgit_key child) ->
  levels_sound image_map il ->
  length image_map <= fuel + d ->
  exists b il',
    add_child_branch fuel image_map child branch (S d) il = Some (b, il')
    /\ levels_sound image_map il' /\ grows il il'.
Proof.
  induction fuel as [|fuel IH]; intros child branch d il Hchild Hat Hinv Hfuel.
  - pose proof (at_depth_bound _ _ (proj1 Hinv _ _ Hat)). lia.
  - simpl.
    pose proof (grows_ensure (S d) il) as Hg0.
    destruct (length_ensure (S d) il) as [Hlt _].
    destruct (for_children_sound
                (fun sub_child image_lists =>
                   add_child_branch fuel image_map sub_child []
                     (S (S d)) image_lists)
                child d) with (subs := children child) (branch := branch)
                (il := ensure_level (S d) il)
      as (b & il' & Hloop & Hinv' & Hg'); auto.
    + intros sub il0 Hsub Hat0 Hinv0. apply IH; auto. lia.
    + now destruct (lookup_image_Some _ _ _ Hchild).
    + destruct Hinv as [HA HB]. split.
      * intros lvl k Hk. apply at_level_ensure in Hk. auto.
      * intros lvl k Hk. apply at_level_ensure in Hk.
        destruct (HB _ _ Hk) as (i & p & Hi & Hp & Hlp).
        exists i, p. repeat split; auto. now apply at_level_ensure.
    + now apply at_level_ensure.
    + exists b, il'. split; [exact Hloop|].
      split; [exact Hinv'|]. eapply grows_trans; eauto.
Qed.

Lemma add_roots_sound fuel :
  length image_map <= fuel ->
  forall images, (forall i, i ∈ images -> i ∈ image_map) ->
  forall image_tree (il : image_lists_t),
    levels_sound image_map il -> 0 < length il ->
    exists t il',
      add_roots fuel image_map images image_tree il = Some (t, il')
      /\ levels_sound image_map il'.
Proof.
  intros Hfuel images.
  induction images as [|image rest IH]; intros Hin image_tree il Hinv Hlen; simpl.
  - eauto.
  - assert (Hrest : forall i, i ∈ rest -> i ∈ image_map)
      by (intros i Hi; apply Hin; now right).
    destruct (parent image) as [p|] eqn:Hp; [now apply IH|].
    assert (Himage : lookup_image (distgit_key image) image_map = Some image).
    { apply lookup_image_elem; auto. apply Hin. left. }
    assert (Hinv1 : levels_sound image_map
                      (append_at 0 (distgit_key image) il)).
    { destruct Hinv as [HA HB]. split.
      - intros lvl k Hk. apply at_level_append in Hk as [Hk|[-> ->]]; auto.
        now apply depth_root with image.
      - intros lvl k Hk. apply at_level_append in Hk as [Hk|[[=] _]]; auto.
        destruct (HB _ _ Hk) as (i & q & Hi & Hq & Hlq).
        exists i, q. repeat split; auto. apply at_level_append; auto. }
    destruct (add_child_branch_sound fuel image [] 0
                (append_at 0 (distgit_key image) il))
      as (b & il1 & Hcall & Hinv2 & Hg); auto.
    { apply at_level_append; auto. }
    { lia. }
    rewrite Hcall. apply IH; auto.
    pose proof (grows_append 0 (distgit_key image) il Hlen) as [Hl _].
    destruct Hg. lia.
Qed.

End WithImageMap.



Example small_group_order :
  snd <$> generate_image_tree 5 small_group
  = Some ["base"; "etcd"; "cli"; "tools"; "console"].
Proof. reflexivity. Qed.

Lemma small_group_resolved : children_resolved small_group.
Proof.
  intros p c ci Hp Hc Hl. unfold small_group in Hp.
  repeat (apply elem_of_cons in Hp as [->|Hp]);
    try (now apply elem_of_nil in Hp);
    simpl in Hc;
    repeat (apply elem_of_cons in Hc as [->|Hc]);
    try (now apply elem_of_nil in Hc);
    vm_compute in Hl; simplify_eq; reflexivity.
Qed.


End BuildOrder.

(** * Further properties of the runtime *)

(** ** The build order, continued *)

Section BuildOrderUses.
Import ImageTree TreeOps.
Local Open Scope list_scope.

Lemma order_levels_elem (il : image_lists_t) (key : string) :
  key ∈ order_levels il <-> exists level, at_level il level key.
Proof.
  unfold order_levels. rewrite order_levels_concat, append_all_elem.
  rewrite elem_of_concat. split.
  - intros [H|(l & Hl & Hk)]; [inversion H|].
    apply list_elem_of_lookup in Hl as [lvl Hlvl]. exists lvl. now exists l.
  - intros (lvl & l & Hl & Hk). right. exists l. split; [|exact Hk].
    apply list_elem_of_lookup. now exists lvl.
Qed.

Lemma levels_sound_start (image_map : image_map_t) :
  levels_sound image_map [[]].
Proof.
  split.
  - intros lvl k (l & Hl & Hk). destruct lvl; simpl in Hl.
    + injection Hl as <-. inversion Hk.
    + discriminate.
  - intros lvl k (l & Hl & Hk). discriminate.
Qed.

(** The order is read off lists that are sound for the map. *)
Lemma generate_image_tree_levels (image_map : image_map_t) (fuel : nat) :
  NoDup (distgit_key <$> image_map) ->
  children_resolved image_map ->
  length image_map <= fuel ->
  exists t il,
    generate_image_tree fuel image_map = Some (Tree t, order_levels il)
    /\ levels_sound image_map il.
Proof.
  intros Hkeys Hres Hfuel. unfold generate_image_tree.
  destruct (add_roots_sound image_map Hkeys Hres fuel Hfuel image_map
              (fun i H => H) [] [[]] (levels_sound_start image_map))
    as (t & il & Hroots & Hsound); [simpl; lia|].
  rewrite Hroots. now exists t, il.
Qed.

Lemma at_depth_lookup (image_map : image_map_t) key d :
  at_depth image_map key d ->
  exists i, lookup_image key image_map = Some i.
Proof. destruct 1; eauto. Qed.

Lemma ordered_keys (image_map : image_map_t) (order : list string)
    (metas : list ImageMetadata) :
  Forall2 (fun dg i => lookup_image dg image_map = Some i) order metas ->
  distgit_key <$> metas = order /\ forall i, i ∈ metas -> i ∈ image_map.
Proof.
  induction 1 as [|dg i order metas Hi _ [IH1 IH2]].
  - split; [reflexivity|]. intros i Hi. inversion Hi.
  - destruct (lookup_image_Some _ _ _ Hi) as [Hin Hkey].
    split; [now rewrite fmap_cons, Hkey, IH1|].
    intros j Hj. apply elem_of_cons in Hj as [->|Hj]; auto.
Qed.

(** X1: [image_order] only lists images of the map whose whole chain of
    resolved parents is in the map, so [ordered_image_metas] finds every
    key and returns the images in that order; an image whose resolved
    parent has been left out of the map is not listed. *)
Theorem image_order_within_map (image_map : image_map_t) (fuel : nat) :
  NoDup (distgit_key <$> image_map) ->
  children_resolved image_map ->
  length image_map <= fuel ->
  exists image_tree image_order metas,
    generate_image_tree fuel image_map = Some (image_tree, image_order)
    /\ ordered_image_metas image_map image_order = Some metas
    /\ distgit_key <$> metas = image_order
    /\ (forall key, key ∈ image_order ->
                    exists d, at_depth image_map key d)
    /\ (forall i p, i ∈ image_map -> parent i = Some p ->
                    lookup_image p image_map = None ->
                    distgit_key i ∉ image_order).
Proof.
  intros Hkeys Hres Hfuel.
  destruct (generate_image_tree_levels image_map fuel Hkeys Hres Hfuel)
    as (t & il & Hgen & HA & HB).
  assert (Hdepth : forall key, key ∈ order_levels il ->
                               exists d, at_depth image_map key d).
  { intros key Hin. apply order_levels_elem in Hin as [lvl Hat]. eauto. }
  assert (Hsome : is_Some (ordered_image_metas image_map (order_levels il))).
  { apply mapM_is_Some, Forall_forall. intros key Hin.
    destruct (Hdepth key Hin) as [d Hd].
    destruct (at_depth_lookup _ _ _ Hd) as [i Hi]. simpl. eauto. }
  destruct Hsome as [metas Hmetas].
  exists (Tree t), (order_levels il), metas.
  split; [exact Hgen|]. split; [exact Hmetas|].
  split; [apply (ordered_keys image_map), mapM_Some, Hmetas|].
  split; [exact Hdepth|].
  intros i p Hi Hp Hnone Hin. destruct (Hdepth _ Hin) as [d Hd].
  pose proof (lookup_image_elem _ _ Hkeys Hi) as Hlook.
  inversion Hd as [k j Hj Hpj|k j q e Hj Hpj Hq]; subst;
    rewrite Hlook in Hj; injection Hj as <-; [congruence|].
  rewrite Hp in Hpj. injection Hpj as <-.
  destruct (at_depth_lookup _ _ _ Hq) as [pi Hpi]. congruence.
Qed.

Lemma image_order_within_map_witness :
  exists image_tree image_order metas,
    generate_image_tree 5 small_group = Some (image_tree, image_order)
    /\ ordered_image_metas small_group image_order = Some metas
    /\ distgit_key <$> metas = image_order
    /\ (forall key, key ∈ image_order ->
                    exists d, at_depth small_group key d)
    /\ (forall i p, i ∈ small_group -> parent i = Some p ->
                    lookup_image p small_group = None ->
                    distgit_key i ∉ image_order).
Proof.
  apply (image_order_within_map small_group 5).
  - apply (bool_decide_unpack _). vm_compute. exact I.
  - exact small_group_resolved.
  - simpl. lia.
Defined.

(** X2: on an image map with one image per key in which every image
    listed among the children of an image has that image as its resolved
    parent, the order is breadth first: an image with fewer resolved
    parents above it stands before every image with more of them. *)
Theorem image_order_by_level (image_map : image_map_t) (fuel : nat) :
  NoDup (distgit_key <$> image_map) ->
  children_resolved image_map ->
  length image_map <= fuel ->
  exists image_tree image_order,
    generate_image_tree fuel image_map = Some (image_tree, image_order)
    /\ forall x y dx dy before after,
         at_depth image_map x dx -> at_depth image_map y dy -> dx < dy ->
         x ∈ image_order ->
         image_order = before ++ y :: after ->
         x ∈ before.
Proof.
  intros Hkeys Hres Hfuel.
  destruct (generate_image_tree_levels image_map fuel Hkeys Hres Hfuel)
    as (t & il & Hgen & HA & HB).
  exists (Tree t), (order_levels il). split; [exact Hgen|].
  intros x y dx dy before after Hx Hy Hlt Hin Horder.
  apply order_levels_elem in Hin as [lvl Hat].
  pose proof (at_depth_functional image_map _ _ (HA _ _ Hat) _ Hx) as ->.
  apply (order_levels_after il dx x y before after Hat); [|exact Horder].
  intros lvl' Hle Hat'.
  pose proof (at_depth_functional image_map _ _ (HA _ _ Hat') _ Hy). lia.
Qed.

Lemma image_order_by_level_witness :
  exists image_tree image_order,
    generate_image_tree 5 small_group = Some (image_tree, image_order)
    /\ forall x y dx dy before after,
         at_depth small_group x dx -> at_depth small_group y dy -> dx < dy ->
         x ∈ image_order ->
         image_order = before ++ y :: after ->
         x ∈ before.
Proof.
  apply (image_order_by_level small_group 5).
  - apply (bool_decide_unpack _). vm_compute. exact I.
  - exact small_group_resolved.
  - simpl. lia.
Defined.

(** *** Nothing reachable is left out *)

Lemma closed_at_grows (image_map : image_map_t) (il il' : image_lists_t)
    level key :
  closed_at image_map il level key -> grows il il' ->
  closed_at image_map il' level key.
Proof. intros H [_ Hg] i c ci Hi Hc Hci. eapply Hg, H; eauto. Qed.

Lemma completes_trans (image_map : image_map_t) (il1 il2 il3 : image_lists_t) :
  completes image_map il1 il2 -> completes image_map il2 il3 ->
  grows il2 il3 -> completes image_map il1 il3.
Proof.
  intros H12 H23 Hg lvl k Hk.
  destruct (H23 _ _ Hk) as [Hk2|Hc]; [|now right].
  destruct (H12 _ _ Hk2) as [Hk1|Hc]; [now left|right].
  eapply closed_at_grows; eauto.
Qed.

Lemma for_children_complete (image_map : image_map_t) recurse d :
  (forall sub (il : image_lists_t) b il',
      recurse sub il = Some (b, il') ->
      lookup_image (distgit_key sub) image_map = Some sub ->
      grows il il' /\ closed_at image_map il' (S d) (distgit_key sub)
      /\ completes image_map il il') ->
  forall subs branch (il : image_lists_t) b il',
    S d < length il ->
    for_children recurse image_map (S d) subs branch il = Some (b, il') ->
    grows il il'
    /\ (forall c ci, c ∈ subs -> lookup_image c image_map = Some ci ->
                     at_level il' (S d) c)
    /\ completes image_map il il'.
Proof.
  intros Hrec subs.
  induction subs as [|key subs IH]; intros branch il b il' Hlen Hrun;
    simpl in Hrun.
  - injection Hrun as <- <-. split; [apply grows_refl|].
    split; [intros c ci Hc; inversion Hc|]. intros lvl k Hk. now left.
  - destruct (lookup_image key image_map) as [sub|] eqn:Hsub.
    + destruct (recurse sub (append_at (S d) key il)) as [[sb il2]|] eqn:Hcall;
        [|discriminate].
      destruct (lookup_image_Some _ _ _ Hsub) as [_ Hkey].
      assert (Hsubkey : lookup_image (distgit_key sub) image_map = Some sub)
        by now rewrite Hkey.
      destruct (Hrec _ _ _ _ Hcall Hsubkey) as (Hg2 & Hclosed & Hcomp2).
      pose proof (grows_append (S d) key il Hlen) as Hg1.
      assert (Hlen2 : S d < length il2) by (destruct Hg1, Hg2; lia).
      destruct (IH _ _ _ _ Hlen2 Hrun) as (Hg3 & Hlisted & Hcomp3).
      split; [eauto using grows_trans|]. split.
      * intros c ci Hc Hci. apply elem_of_cons in Hc as [->|Hc]; [|eauto].
        apply Hg3, Hg2. apply at_level_append; auto.
      * intros lvl k Hk. destruct (Hcomp3 _ _ Hk) as [Hk2|Hc]; [|now right].
        destruct (Hcomp2 _ _ Hk2) as [Hk1|Hc];
          [|right; eapply closed_at_grows; eauto].
        apply at_level_append in Hk1 as [Hk0|[-> ->]]; [now left| |exact Hlen].
        right. rewrite <- Hkey. eapply closed_at_grows; eauto.
    + destruct (IH _ _ _ _ Hlen Hrun) as (Hg & Hlisted & Hcomp).
      split; [exact Hg|]. split; [|exact Hcomp].
      intros c ci Hc Hci. apply elem_of_cons in Hc as [->|Hc]; [congruence|eauto].
Qed.

Lemma add_child_branch_complete (image_map : image_map_t) fuel :
  forall child branch d (il : image_lists_t) b il',
    add_child_branch fuel image_map child branch (S d) il = Some (b, il') ->
    lookup_image (distgit_key child) image_map = Some child ->
    grows il il' /\ closed_at image_map il' d (distgit_key child)
    /\ completes image_map il il'.
Proof.
  induction fuel as [|fuel IH]; intros child branch d il b il' Hrun Hchild;
    [discriminate|].
  simpl in Hrun.
  destruct (length_ensure (S d) il) as [Hlt _].
  destruct (for_children_complete image_map _ d
              (fun sub il0 b0 il0' H => IH sub [] (S d) il0 b0 il0' H)
              _ _ _ _ _ Hlt Hrun) as (Hg & Hlisted & Hcomp).
  split; [eauto using grows_trans, grows_ensure|]. split.
  - intros i c ci Hi Hc Hci. rewrite Hchild in Hi. injection Hi as <-. eauto.
  - intros lvl k Hk. destruct (Hcomp _ _ Hk) as [Hk1|Hc]; [left|now right].
    now apply at_level_ensure in Hk1.
Qed.

Lemma add_roots_complete (image_map : image_map_t) fuel :
  NoDup (distgit_key <$> image_map) ->
  forall images, (forall i, i ∈ images -> i ∈ image_map) ->
  forall image_tree (il : image_lists_t) t il',
    0 < length il ->
    add_roots fuel image_map images image_tree il = Some (t, il') ->
    grows il il'
    /\ (forall i, i ∈ images -> parent i = None ->
                  at_level il' 0 (distgit_key i))
    /\ completes image_map il il'.
Proof.
  intros Hkeys images.
  induction images as [|image rest IH]; intros Hin image_tree il t il' Hlen Hrun;
    simpl in Hrun.
  - injection Hrun as <- <-. split; [apply grows_refl|].
    split; [intros i Hi; inversion Hi|]. intros lvl k Hk. now left.
  - assert (Hrest : forall i, i ∈ rest -> i ∈ image_map)
      by (intros i Hi; apply Hin; now right).
    destruct (parent image) as [p|] eqn:Hp.
    + destruct (IH Hrest _ _ _ _ Hlen Hrun) as (Hg & Hroots & Hcomp).
      split; [exact Hg|]. split; [|exact Hcomp].
      intros i Hi Hpi. apply elem_of_cons in Hi as [->|Hi]; [congruence|eauto].
    + destruct (add_child_branch fuel image_map image [] 1
                  (append_at 0 (distgit_key image) il))
        as [[b il1]|] eqn:Hcall; [|discriminate].
      assert (Himage : lookup_image (distgit_key image) image_map = Some image).
      { apply lookup_image_elem; auto. apply Hin. left. }
      destruct (add_child_branch_complete _ _ _ _ _ _ _ _ Hcall Himage)
        as (Hg1 & Hclosed & Hcomp1).
      pose proof (grows_append 0 (distgit_key image) il Hlen) as Hg0.
      assert (Hlen1 : 0 < length il1) by (destruct Hg0, Hg1; lia).
      destruct (IH Hrest _ _ _ _ Hlen1 Hrun) as (Hg2 & Hroots & Hcomp2).
      split; [eauto using grows_trans|]. split.
      * intros i Hi Hpi. apply elem_of_cons in Hi as [->|Hi]; [|eauto].
        apply Hg2, Hg1. apply at_level_append; auto.
      * intros lvl k Hk. destruct (Hcomp2 _ _ Hk) as [Hk1|Hc]; [|now right].
        destruct (Hcomp1 _ _ Hk1) as [Hk0|Hc];
          [|right; eapply closed_at_grows; eauto].
        apply at_level_append in Hk0 as [Hk0|[-> ->]]; [now left| |exact Hlen].
        right. eapply closed_at_grows; eauto.
Qed.

(** X3: when the children attributes are also complete, every image of
    the map that descends from an image without parent through resolved
    parents in the map is listed in [image_order]. *)
Theorem image_order_complete (image_map : image_map_t) (fuel : nat) :
  NoDup (distgit_key <$> image_map) ->
  children_resolved image_map ->
  parents_listed image_map ->
  length image_map <= fuel ->
  exists image_tree image_order,
    generate_image_tree fuel image_map = Some (image_tree, image_order)
    /\ forall key d, at_depth image_map key d -> key ∈ image_order.
Proof.
  intros Hkeys Hres Hlisted Hfuel. unfold generate_image_tree.
  destruct (add_roots_sound image_map Hkeys Hres fuel Hfuel image_map
              (fun i H => H) [] [[]] (levels_sound_start image_map))
    as (t & il & Hroots & Hsound); [simpl; lia|].
  rewrite Hroots. exists (Tree t), (order_levels il).
  split; [reflexivity|].
  destruct (add_roots_complete image_map fuel Hkeys image_map (fun i H => H)
              [] [[]] t il) as (_ & Hlevel0 & Hcomp); [simpl; lia|exact Hroots|].
  intros key d Hd. apply order_levels_elem. exists d.
  induction Hd as [key i Hi Hp|key i p d Hi Hp Hd IH].
  - destruct (lookup_image_Some _ _ _ Hi) as [Hin <-]. auto.
  - destruct (Hcomp _ _ IH) as [(l & Hl & Hk)|Hclosed].
    + destruct d; simpl in Hl; [|discriminate].
      injection Hl as <-. inversion Hk.
    + destruct (at_depth_lookup _ _ _ Hd) as [pi Hpi].
      destruct (lookup_image_Some _ _ _ Hi) as [Hin Hkey].
      apply (Hclosed pi key i Hpi); [|exact Hi].
      rewrite <- Hkey. now apply (Hlisted i p pi).
Qed.

Lemma small_group_listed : parents_listed small_group.
Proof.
  intros c p pi Hc Hp Hl. unfold small_group in Hc.
  repeat (apply elem_of_cons in Hc as [->|Hc]);
    try (now apply elem_of_nil in Hc);
    simpl in Hp; simplify_eq; vm_compute in Hl; simplify_eq;
    simpl; set_solver.
Qed.

Lemma image_order_complete_witness :
  exists image_tree image_order,
    generate_image_tree 5 small_group = Some (image_tree, image_order)
    /\ forall key d, at_depth small_group key d -> key ∈ image_order.
Proof.
  apply (image_order_complete small_group 5).
  - apply (bool_decide_unpack _). vm_compute. exact I.
  - exact small_group_resolved.
  - exact small_group_listed.
  - simpl. lia.
Defined.

(** *** Failed trees *)

(** The core of the ordering: the resolved parent of a listed image of the
    map stands before it. *)
Lemma levels_parent_before (image_map : image_map_t) (il : image_lists_t)
    (i : ImageMetadata) (p : string) (before after : list string) :
  NoDup (distgit_key <$> image_map) ->
  levels_sound image_map il ->
  i ∈ image_map -> parent i = Some p ->
  order_levels il = before ++ distgit_key i :: after ->
  p ∈ before.
Proof.
  intros Hkeys [HA HB] Hi Hp Horder.
  assert (Hin : distgit_key i ∈ order_levels il).
  { rewrite Horder. apply elem_of_app. right. left. }
  apply order_levels_elem in Hin as [lvl Hat].
  pose proof (lookup_image_elem _ _ Hkeys Hi) as Hlook.
  pose proof (HA _ _ Hat) as Hdepth.
  destruct lvl as [|d].
  { inversion Hdepth as [k j Hj Hpj|]; subst. congruence. }
  destruct (HB _ _ Hat) as (j & q & Hj & Hq & Hlq).
  rewrite Hlook in Hj. injection Hj as <-.
  rewrite Hp in Hq. injection Hq as <-.
  apply (order_levels_after il d p (distgit_key i) before after Hlq);
    [|exact Horder].
  intros lvl' Hle Hat'.
  pose proof (at_depth_functional image_map _ _ Hdepth _ (HA _ _ Hat')). lia.
Qed.

Lemma order_levels_NoDup (il : image_lists_t) : NoDup (order_levels il).
Proof.
  unfold order_levels. rewrite order_levels_concat.
  apply append_all_NoDup, NoDup_nil_2.
Qed.

Lemma propagate_extends (metas : list ImageMetadata) : forall failed,
  exists ext, fold_left propagate_failure metas failed = failed ++ ext.
Proof.
  induction metas as [|j rest IH]; intros failed; simpl.
  - exists []. now rewrite app_nil_r.
  - destruct (IH (propagate_failure failed j)) as [ext Hext]. rewrite Hext.
    unfold propagate_failure. destruct (parent j) as [p|]; [|now exists ext].
    destruct (decide (p ∈ failed)); [|now exists ext].
    exists (distgit_key j :: ext). now rewrite <- app_assoc.
Qed.

Lemma propagate_elem (metas : list ImageMetadata) : forall failed x,
  x ∈ fold_left propagate_failure metas failed ->
  x ∈ failed \/ x ∈ distgit_key <$> metas.
Proof.
  induction metas as [|j rest IH]; intros failed x Hx; simpl in *; [now left|].
  apply IH in Hx as [Hx|Hx]; [|right; now right].
  unfold propagate_failure in Hx. destruct (parent j) as [p|]; [|now left].
  destruct (decide (p ∈ failed)); [|now left].
  apply elem_of_app in Hx as [Hx|Hx]; [now left|].
  apply list_elem_of_singleton in Hx as ->. right. left.
Qed.

(** One pass is enough when no parent comes after its child. *)
Lemma propagate_closure (metas : list ImageMetadata) : forall failed,
  (forall l1 i l2 p, metas = l1 ++ i :: l2 -> parent i = Some p ->
                     p ∉ distgit_key <$> (i :: l2)) ->
  forall i p, i ∈ metas -> parent i = Some p ->
              p ∈ fold_left propagate_failure metas failed ->
              distgit_key i ∈ fold_left propagate_failure metas failed.
Proof.
  induction metas as [|j rest IH]; intros failed Hpf i p Hi Hp Hin;
    [inversion Hi|].
  simpl in *.
  assert (Hpf' : forall l1 i l2 p, rest = l1 ++ i :: l2 -> parent i = Some p ->
                                   p ∉ distgit_key <$> (i :: l2)).
  { intros l1 i0 l2 p0 -> Hp0. apply (Hpf (j :: l1)); auto. }
  apply elem_of_cons in Hi as [->|Hi]; [|eapply IH; eauto].
  pose proof (Hpf [] j rest p eq_refl Hp) as Hnot.
  apply propagate_elem in Hin as [Hin|Hin];
    [|exfalso; apply Hnot; simpl; now right].
  destruct (propagate_extends rest (propagate_failure failed j)) as [ext ->].
  apply elem_of_app. left.
  unfold propagate_failure in *. rewrite Hp in *.
  destruct (decide (p ∈ failed)) as [Hpin|Hpout].
  - apply elem_of_app. right. left.
  - contradiction.
Qed.

Lemma lookup_image_None (image_map : image_map_t) key :
  lookup_image key image_map = None ->
  forall i, i ∈ image_map -> distgit_key i <> key.
Proof.
  induction image_map as [|j rest IH]; intros H i Hi; [inversion Hi|].
  simpl in H. destruct (String.eqb_spec (distgit_key j) key) as [E|E];
    [discriminate|].
  apply elem_of_cons in Hi as [->|Hi]; auto.
Qed.

Lemma remove_failed_elem (image_map : image_map_t) f i :
  i ∈ remove_failed image_map f <-> i ∈ image_map /\ distgit_key i <> f.
Proof.
  unfold remove_failed, delete_image.
  destruct (lookup_image f image_map) eqn:E.
  - rewrite list_elem_of_filter. tauto.
  - split; [|tauto]. intros Hi. split; [exact Hi|].
    now apply (lookup_image_None _ _ E).
Qed.

Lemma remove_all_elem (failed : list string) : forall (image_map : image_map_t) i,
  i ∈ fold_left remove_failed failed image_map
  <-> i ∈ image_map /\ distgit_key i ∉ failed.
Proof.
  induction failed as [|f rest IH]; intros image_map i; simpl.
  - rewrite elem_of_nil. tauto.
  - rewrite IH, remove_failed_elem, elem_of_cons. split.
    + intros [[Hi Hf] Hrest]. split; [exact Hi|]. intros [E|Hin]; auto.
    + intros [Hi Hnot]. repeat split; auto.
Qed.

Lemma remove_all_sublist (failed : list string) : forall (image_map : image_map_t),
  fold_left remove_failed failed image_map `sublist_of` image_map.
Proof.
  induction failed as [|f rest IH]; intros image_map; simpl; [reflexivity|].
  etransitivity; [apply IH|]. unfold remove_failed, delete_image.
  destruct (lookup_image f image_map); [apply sublist_filter|reflexivity].
Qed.

(** What is kept of a well-formed map is well formed. *)
Lemma sublist_well_formed (image_map kept : image_map_t) :
  NoDup (distgit_key <$> image_map) -> children_resolved image_map ->
  kept `sublist_of` image_map ->
  NoDup (distgit_key <$> kept) /\ children_resolved kept.
Proof.
  intros Hkeys Hres Hsub. split.
  - eapply sublist_NoDup; [exact Hkeys|]. now apply fmap_sublist.
  - intros p c ci Hp Hc Hci.
    destruct (lookup_image_Some _ _ _ Hci) as [Hin Hkey].
    apply (Hres p c ci); eauto using elem_of_sublist.
    rewrite <- Hkey. apply lookup_image_elem; eauto using elem_of_sublist.
Qed.

(** X4: on an image map with one image per key in which every image
    listed among the children of an image has that image as its resolved
    parent, [filter_failed_image_trees], run on the order that
    [generate_image_tree] computed for the map, returns the given list
    extended so that every listed image whose resolved parent failed has
    failed too; the images left in the map are exactly those that did not
    fail, and none of the failed keys is in the new [image_order]. *)
Theorem filter_failed_closes_trees (image_map : image_map_t) (fuel : nat)
    (image_tree : tree) (image_order failed : list string) :
  NoDup (distgit_key <$> image_map) ->
  children_resolved image_map ->
  length image_map <= fuel ->
  generate_image_tree fuel image_map = Some (image_tree, image_order) ->
  exists failed' image_map' image_tree' image_order',
    filter_failed_image_trees fuel image_map image_order failed
    = Some (failed', image_map', image_tree', image_order')
    /\ (exists added, failed' = failed ++ added)
    /\ (forall i p, i ∈ image_map -> distgit_key i ∈ image_order ->
                    parent i = Some p -> p ∈ failed' ->
                    distgit_key i ∈ failed')
    /\ (forall i, i ∈ image_map'
                  <-> i ∈ image_map /\ distgit_key i ∉ failed')
    /\ (forall key, key ∈ image_order' -> key ∉ failed').
Proof.
  intros Hkeys Hres Hfuel Hgen.
  destruct (generate_image_tree_levels image_map fuel Hkeys Hres Hfuel)
    as (t & il & Hgen' & Hsound).
  rewrite Hgen in Hgen'. injection Hgen' as -> ->.
  assert (Hsome : is_Some (ordered_image_metas image_map (order_levels il))).
  { apply mapM_is_Some, Forall_forall. intros key Hin.
    apply order_levels_elem in Hin as [lvl Hat].
    destruct (at_depth_lookup _ _ _ (proj1 Hsound _ _ Hat)) as [i Hi].
    simpl. eauto. }
  destruct Hsome as [metas Hmetas].
  destruct (ordered_keys image_map _ _ (proj1 (mapM_Some _ _ _) Hmetas))
    as [Hmkeys Hmin].
  unfold filter_failed_image_trees. rewrite Hmetas.
  set (failed' := fold_left propagate_failure metas failed).
  set (image_map' := fold_left remove_failed failed' image_map).
  pose proof (remove_all_sublist failed' image_map) as Hsub.
  fold image_map' in Hsub.
  destruct (sublist_well_formed _ _ Hkeys Hres Hsub) as [Hkeys' Hres'].
  assert (Hfuel' : length image_map' <= fuel)
    by (pose proof (sublist_length _ _ Hsub); lia).
  destruct (generate_image_tree_levels image_map' fuel Hkeys' Hres' Hfuel')
    as (t' & il' & Hgen' & Hsound').
  rewrite Hgen'.
  exists failed', image_map', (Tree t'), (order_levels il').
  split; [reflexivity|]. split; [apply propagate_extends|].
  split; [|split].
  - intros i p Hi Hlisted Hp Hpin.
    rewrite <- Hmkeys in Hlisted.
    apply list_elem_of_fmap in Hlisted as (j & Hkey & Hj).
    assert (j = i) as ->.
    { pose proof (lookup_image_elem _ _ Hkeys Hi) as H1.
      pose proof (lookup_image_elem _ _ Hkeys (Hmin _ Hj)) as H2.
      rewrite <- Hkey in H2. congruence. }
    apply (propagate_closure metas failed) with p; auto.
    intros l1 i0 l2 p0 Hsplit Hp0 Hbad.
    assert (Horder : order_levels il
                     = (distgit_key <$> l1) ++ distgit_key i0
                         :: (distgit_key <$> l2)).
    { rewrite <- Hmkeys, Hsplit, fmap_app, fmap_cons. reflexivity. }
    assert (Hi0 : i0 ∈ image_map).
    { apply Hmin. rewrite Hsplit. apply elem_of_app. right. left. }
    pose proof (levels_parent_before _ _ _ _ _ _ Hkeys Hsound Hi0 Hp0 Horder)
      as Hbefore.
    pose proof (order_levels_NoDup il) as Hnd. rewrite Horder in Hnd.
    apply NoDup_app in Hnd as (_ & Hdisj & _).
    apply (Hdisj _ Hbefore). now rewrite fmap_cons in Hbad.
  - intros i. apply remove_all_elem.
  - intros key Hin Hfailed.
    apply order_levels_elem in Hin as [lvl Hat].
    destruct (at_depth_lookup _ _ _ (proj1 Hsound' _ _ Hat)) as [i Hi].
    destruct (lookup_image_Some _ _ _ Hi) as [Hi' Hkey].
    apply remove_all_elem in Hi' as [_ Hnot]. now rewrite Hkey in Hnot.
Qed.

Lemma filter_failed_closes_trees_witness :
  exists failed' image_map' image_tree' image_order',
    filter_failed_image_trees 5 small_group
      ["base"; "etcd"; "cli"; "tools"; "console"] ["cli"]
    = Some (failed', image_map', image_tree', image_order')
    /\ (exists added, failed' = ["cli"] ++ added)
    /\ (forall i p, i ∈ small_group ->
                    distgit_key i ∈ ["base"; "etcd"; "cli"; "tools"; "console"] ->
                    parent i = Some p -> p ∈ failed' ->
                    distgit_key i ∈ failed')
    /\ (forall i, i ∈ image_map'
                  <-> i ∈ small_group /\ distgit_key i ∉ failed')
    /\ (forall key, key ∈ image_order' -> key ∉ failed').
Proof.
  destruct (generate_image_tree 5 small_group) as [[t o]|] eqn:E;
    [|discriminate E].
  assert (o = ["base"; "etcd"; "cli"; "tools"; "console"]) as ->
    by (vm_compute in E; congruence).
  apply (filter_failed_closes_trees small_group 5 t _ ["cli"]).
  - apply (bool_decide_unpack _). vm_compute. exact I.
  - exact small_group_resolved.
  - simpl. lia.
  - exact E.
Defined.

Example filter_failed_small_group :
  match filter_failed_image_trees 5 small_group
          ["base"; "etcd"; "cli"; "tools"; "console"] ["cli"] with
  | Some (failed, image_map, _, image_order) =>
      Some (failed, map distgit_key image_map, image_order)
  | None => None
  end
  = Some (["cli"; "console"], ["base"; "tools"; "etcd"],
          ["base"; "etcd"; "tools"]).
Proof. reflexivity. Qed.

End BuildOrderUses.

(** ** Leases of the session pool *)

Section SessionLeases.
Import SessionPool Leases.
Local Open Scope list_scope.

Lemma popitem_Some {K V : Type} (d : list (K * V)) kv rest :
  popitem d = Some (kv, rest) -> d = rest ++ [kv].
Proof.
  revert rest. induction d as [|x d IH]; intros rest H; [discriminate|].
  simpl in H. destruct d as [|y d].
  - injection H as <- <-. reflexivity.
  - destruct (popitem (y :: d)) as [[last r]|]; [|discriminate].
    injection H as <- <-. simpl. f_equal. now apply IH.
Qed.

Lemma popitem_None {K V : Type} (d : list (K * V)) :
  popitem d = None -> d = [].
Proof.
  induction d as [|x d IH]; intros H; [reflexivity|].
  simpl in H. destruct d as [|y d]; [discriminate|].
  destruct (popitem (y :: d)) as [[last r]|] eqn:E; [discriminate|].
  discriminate (IH eq_refl).
Qed.

Lemma dict_set_fresh {K V : Type} `{EqDecision K} (k : K) (v : V)
    (d : list (K * V)) :
  k ∉ d.*1 -> dict_set k v d = d ++ [(k, v)].
Proof.
  induction d as [|[k' w] d IH]; intros Hk; simpl; [reflexivity|].
  rewrite fmap_cons in Hk. apply not_elem_of_cons in Hk as [Hne Hk].
  destruct (decide (k' = k)) as [->|_]; [now destruct Hne|].
  now rewrite IH.
Qed.

(** The leases before and after one thread moves. *)
Lemma leases_insert (threads : list position) i pos pos' :
  threads !! i = Some pos ->
  exists rest,
    leases threads ≡ₚ option_list (holding pos) ++ rest
    /\ leases (<[i := pos']> threads) ≡ₚ option_list (holding pos') ++ rest.
Proof.
  intros Hi. exists (leases (list.take i threads)
                       ++ leases (list.drop (S i) threads)).
  pose proof (lookup_lt_Some _ _ _ Hi) as Hlt.
  rewrite (insert_take_drop _ _ _ Hlt).
  rewrite <- (take_drop_middle _ _ _ Hi) at 1.
  unfold leases. rewrite !omap_app. simpl.
  split.
  - destruct (holding pos); simpl; [symmetry; apply Permutation_middle|reflexivity].
  - destruct (holding pos'); simpl; [symmetry; apply Permutation_middle|reflexivity].
Qed.

(** A move that permutes the occupied slots and leaves the pool alone. *)
Lemma pool_invariant_permuted (s s' : system) :
  pool_invariant s ->
  length (sessions (snd s')) = length (sessions (snd s)) ->
  session_pool (snd s') = session_pool (snd s) ->
  occupied s' ≡ₚ occupied s ->
  pool_invariant s'.
Proof.
  intros (H1 & H2 & H3 & H4) Hlen Hpool Hperm. unfold pool_invariant.
  rewrite Hlen, Hpool, Hperm. auto.
Qed.

Lemma pool_invariant_step (new_client : session) (threads : list position)
    (rt : runtime) i pos o :
  pool_invariant (threads, rt) ->
  threads !! i = Some pos ->
  pool_invariant (<[i := fst (step new_client o pos rt)]> threads,
                  snd (step new_client o pos rt)).
Proof.
  intros Hinv Hi.
  destruct (leases_insert threads i pos (fst (step new_client o pos rt)) Hi)
    as (rest & Hold & Hnew).
  assert (Hsame : forall rt',
             length (sessions rt') = length (sessions rt) ->
             session_pool rt' = session_pool rt ->
             session_pool_available rt' = session_pool_available rt ->
             forall pos', holding pos' = holding pos ->
             leases (<[i := pos']> threads) ≡ₚ option_list (holding pos') ++ rest ->
             pool_invariant (<[i := pos']> threads, rt')).
  { intros rt' Hlen Hpool Hav pos' Hhold Hnew'.
    apply (pool_invariant_permuted (threads, rt)); auto.
    unfold occupied; simpl. now rewrite Hav, Hnew', Hhold, Hold. }
  destruct pos as [caching|caching n|caching id s|id s|o' id s|o' id s|o'];
    simpl in *; try (apply Hsame; auto; simpl; now rewrite ?length_insert).
  - (* the decision *)
    unfold decide_session in *.
    destruct (popitem (session_pool_available rt)) as [[[id s] rest_av]|] eqn:Hpop;
      simpl in *.
    + apply popitem_Some in Hpop.
      apply (pool_invariant_permuted (threads, rt)); auto.
      unfold occupied; simpl. rewrite Hnew, Hold, Hpop. simpl.
      rewrite (app_assoc rest rest_av). apply Permutation_cons_append.
    + apply popitem_None in Hpop.
      destruct (decide (size (session_pool rt) < 30)) as [Hroom|Hfull];
        simpl in *; [|apply Hsame; auto].
      destruct Hinv as (H1 & H2 & H3 & H4). simpl in *.
      assert (Hfree : session_pool rt !! size (session_pool rt) = None).
      { rewrite H2. case_decide; [lia|reflexivity]. }
      unfold pool_invariant, occupied in *; simpl in *.
      rewrite Hpop, app_nil_r in *.
      rewrite map_size_insert_None by exact Hfree.
      rewrite Hnew. simpl. rewrite Hold in H3, H4. simpl in H3, H4.
      split; [rewrite length_app; simpl; lia|]. split; [|split].
      * intros id. destruct (decide (id = size (session_pool rt))) as [->|Hne].
        { rewrite lookup_insert_eq. case_decide; [f_equal; lia|lia]. }
        rewrite lookup_insert_ne by auto. rewrite H2.
        repeat case_decide; auto; lia.
      * constructor; [simpl; lia|].
        eapply Forall_impl; [exact H3|]. intros [a b] [? ?]. simpl in *. lia.
      * constructor; [|exact H4].
        intros Hin. apply list_elem_of_fmap in Hin as ([a b] & E & Hab).
        rewrite Forall_forall in H3. destruct (H3 _ Hab). simpl in *. lia.
  - (* the session is put back *)
    destruct Hinv as (H1 & H2 & H3 & H4).
    unfold pool_invariant, occupied in *; simpl in *.
    assert (Hfresh : id ∉ (session_pool_available rt).*1).
    { rewrite Hold in H4. simpl in H4. rewrite fmap_app in H4.
      apply NoDup_cons in H4 as [Hnot _]. intros Hin. apply Hnot.
      apply elem_of_app. now right. }
    rewrite (dict_set_fresh _ _ _ Hfresh).
    assert (Hperm : leases (<[i := Left o']> threads)
                      ++ session_pool_available rt ++ [(id, s)]
                    ≡ₚ leases threads ++ session_pool_available rt).
    { rewrite Hnew, Hold. simpl. rewrite app_assoc.
      symmetry. apply Permutation_cons_append. }
    rewrite Hperm. auto.
Qed.

Lemma pool_invariant_reachable (new_client : session) (s : system) :
  reachable new_client s -> pool_invariant s.
Proof.
  induction 1 as [|s s' Hs IH Hstep].
  - unfold pool_invariant, occupied; simpl. rewrite map_size_empty.
    split; [reflexivity|].
    split; [intros id; rewrite lookup_empty; case_decide; [lia|reflexivity]|].
    split; [constructor|apply NoDup_nil_2].
  - destruct Hstep as [threads rt i pos o Hpos|threads rt caching].
    + now apply pool_invariant_step.
    + apply (pool_invariant_permuted (threads, rt)); auto.
      unfold occupied, leases; simpl. rewrite omap_app. simpl.
      now rewrite app_nil_r.
Qed.

Lemma leases_distinct (threads : list position) :
  NoDup (leases threads).*1 ->
  forall i j pi pj li lj,
    i <> j -> threads !! i = Some pi -> threads !! j = Some pj ->
    holding pi = Some li -> holding pj = Some lj ->
    li.1 <> lj.1.
Proof.
  assert (Helem : forall (t : list position) p l,
             p ∈ t -> holding p = Some l -> l.1 ∈ (leases t).*1).
  { intros t p l Hp Hl. apply list_elem_of_fmap. exists l. split; [reflexivity|].
    apply list_elem_of_omap. eauto. }
  induction threads as [|p t IH]; intros Hnd i j pi pj li lj Hne Hi Hj Hli Hlj;
    [discriminate|].
  unfold leases in Hnd. simpl in Hnd.
  destruct i as [|i], j as [|j]; simpl in *; try congruence.
  - injection Hi as ->. rewrite Hli in Hnd. rewrite fmap_cons in Hnd.
    apply NoDup_cons in Hnd as [Hnot _]. intros E. apply Hnot. rewrite E.
    eapply Helem; eauto. eapply list_elem_of_lookup_2; eauto.
  - injection Hj as ->. rewrite Hlj in Hnd. rewrite fmap_cons in Hnd.
    apply NoDup_cons in Hnd as [Hnot _]. intros E. apply Hnot. rewrite <- E.
    eapply Helem; eauto. eapply list_elem_of_lookup_2; eauto.
  - apply (IH) with i j pi pj; auto.
    destruct (holding p); [|exact Hnd].
    rewrite fmap_cons in Hnd. now apply NoDup_cons in Hnd as [_ Hnd].
Qed.

(** X5: a lease is exclusive.  In every state that the threads can reach,
    two threads never have the same slot or the same session in hand, a
    session in hand is not among the available ones, and it is the session
    that the pool holds under that slot. *)
Theorem pooled_session_is_exclusive (new_client : session)
    (threads : list position) (rt : runtime) :
  reachable new_client (threads, rt) ->
  (forall i j pi pj id session id' session',
      i <> j -> threads !! i = Some pi -> threads !! j = Some pj ->
      holding pi = Some (id, session) ->
      holding pj = Some (id', session') ->
      id <> id' /\ session <> session')
  /\ (forall i pos id session,
        threads !! i = Some pos -> holding pos = Some (id, session) ->
        (id ∉ (session_pool_available rt).*1)
        /\ session_pool rt !! id = Some session).
Proof.
  intros Hreach.
  destruct (pool_invariant_reachable _ _ Hreach) as (H1 & H2 & H3 & H4).
  unfold occupied in *; simpl in *.
  rewrite fmap_app in H4. apply NoDup_app in H4 as (Hnd & Hdisj & _).
  rewrite Forall_app, Forall_forall in H3. destruct H3 as [Hleases _].
  assert (Hin : forall i pos l, threads !! i = Some pos ->
                                holding pos = Some l -> l ∈ leases threads).
  { intros i pos l Hi Hl. apply list_elem_of_omap. exists pos.
    split; [|exact Hl]. eapply list_elem_of_lookup_2; eauto. }
  split.
  - intros i j pi pj id s id' s' Hne Hi Hj Hpi Hpj.
    pose proof (leases_distinct threads Hnd i j pi pj _ _ Hne Hi Hj Hpi Hpj)
      as Hids. simpl in Hids.
    destruct (Hleases _ (Hin _ _ _ Hi Hpi)) as [E1 _].
    destruct (Hleases _ (Hin _ _ _ Hj Hpj)) as [E2 _]. simpl in *.
    split; [exact Hids|congruence].
  - intros i pos id s Hi Hpos.
    pose proof (Hin _ _ _ Hi Hpos) as Hl.
    destruct (Hleases _ Hl) as [E Hlt]. simpl in *. split.
    + apply Hdisj. apply list_elem_of_fmap. now exists (id, s).
    + rewrite H2, E. case_decide; [reflexivity|lia].
Qed.

Lemma two_leases_reachable : reachable plain_client two_leases.
Proof.
  assert (R3 : reachable plain_client
                 ([Deciding false; Deciding true; Deciding false], init)).
  { apply (reachable_step _ ([Deciding false; Deciding true], init));
      [|apply (thread_enters _ [Deciding false; Deciding true] init false)].
    apply (reachable_step _ ([Deciding false], init));
      [|apply (thread_enters _ [Deciding false] init true)].
    apply (reachable_step _ ([], init));
      [apply reachable_init|apply (thread_enters _ [] init false)]. }
  pose proof (reachable_step _ _ _ R3
                (thread_step plain_client
                   [Deciding false; Deciding true; Deciding false] init
                   0 (Deciding false) Returned eq_refl)) as R4.
  vm_compute in R4.
  match type of R4 with
  | reachable _ (?th, ?rt) =>
      pose proof (reachable_step _ _ _ R4
                    (thread_step plain_client th rt 0 (Leased false 0 0)
                       Returned eq_refl)) as R5
  end.
  vm_compute in R5.
  match type of R5 with
  | reachable _ (?th, ?rt) =>
      pose proof (reachable_step _ _ _ R5
                    (thread_step plain_client th rt 1 (Deciding true)
                       Returned eq_refl)) as R6
  end.
  vm_compute in R6. exact R6.
Qed.

Lemma pooled_session_is_exclusive_witness :
  (0 <> 1 /\ 0 <> 1)
  /\ session_pool (snd two_leases) !! 1 = Some 1.
Proof.
  destruct (pooled_session_is_exclusive plain_client _ _ two_leases_reachable)
    as [Hdistinct Hpool].
  split.
  - apply (Hdistinct 0 1 (Yielded 0 0) (Leased true 1 1) 0 0 1 1);
      [lia|reflexivity..].
  - apply (Hpool 1 (Leased true 1 1) 1 1); reflexivity.
Defined.

End SessionLeases.

(** ** Named semaphores, continued *)

Section SemaphoreRegistry.
Import Semaphores.
Local Open Scope list_scope.

(** The registry names objects of the heap, each under one key only. *)
Lemma do_call_registry (c : call) (rt : runtime) :
  (forall k a, named_semaphores rt !! k = Some a -> a < length (heap rt)) ->
  (forall k1 k2 a, named_semaphores rt !! k1 = Some a ->
                   named_semaphores rt !! k2 = Some a -> k1 = k2) ->
  (forall k a, named_semaphores (snd (do_call c rt)) !! k = Some a ->
               a < length (heap (snd (do_call c rt))))
  /\ (forall k1 k2 a, named_semaphores (snd (do_call c rt)) !! k1 = Some a ->
                      named_semaphores (snd (do_call c rt)) !! k2 = Some a ->
                      k1 = k2).
Proof.
  intros Hbound Hinj. unfold do_call, get_named_semaphore.
  destruct (named_semaphores rt !! normalized_key _ _ _) eqn:E; simpl;
    [split; assumption|].
  set (p := normalized_key (call_cwd c) (lock_name c) (is_dir c)) in *.
  split.
  - intros k a. rewrite length_app. simpl.
    destruct (decide (p = k)) as [<-|Hne].
    + rewrite lookup_insert_eq. intros [= <-]. lia.
    + rewrite lookup_insert_ne by exact Hne. intros H.
      pose proof (Hbound _ _ H). lia.
  - intros k1 k2 a.
    destruct (decide (p = k1)) as [<-|Hne1], (decide (p = k2)) as [<-|Hne2];
      rewrite ?lookup_insert_eq, ?lookup_insert_ne by assumption; auto.
    + intros [= <-] H. pose proof (Hbound _ _ H). lia.
    + intros H [= <-]. pose proof (Hbound _ _ H). lia.
    + apply Hinj.
Qed.

Lemma run_registry (calls : list call) : forall rt : runtime,
  (forall k a, named_semaphores rt !! k = Some a -> a < length (heap rt)) ->
  (forall k1 k2 a, named_semaphores rt !! k1 = Some a ->
                   named_semaphores rt !! k2 = Some a -> k1 = k2) ->
  (forall k a, named_semaphores (run calls rt) !! k = Some a ->
               a < length (heap (run calls rt)))
  /\ (forall k1 k2 a, named_semaphores (run calls rt) !! k1 = Some a ->
                      named_semaphores (run calls rt) !! k2 = Some a ->
                      k1 = k2).
Proof.
  induction calls as [|c calls IH]; intros rt Hbound Hinj; simpl; [auto|].
  destruct (do_call_registry c rt Hbound Hinj). now apply IH.
Qed.

Lemma init_registry :
  (forall k a, named_semaphores init !! k = Some a -> a < length (heap init))
  /\ (forall k1 k2 a, named_semaphores init !! k1 = Some a ->
                      named_semaphores init !! k2 = Some a -> k1 = k2).
Proof.
  unfold init; simpl. split.
  - intros k a H. apply lookup_singleton_Some in H as [_ <-]. lia.
  - intros k1 k2 a H1 H2. apply lookup_singleton_Some in H1 as [<- _].
    apply lookup_singleton_Some in H2 as [<- _]. reflexivity.
Qed.

(** X6: different keys never share a lock.  After any calls, two requests
    whose normalised keys differ are answered with different objects,
    whatever is requested in between. *)
Theorem named_semaphores_are_separate (before others : list call)
    (c1 c2 : call) :
  call_key c1 <> call_key c2 ->
  fst (do_call c1 (run before init))
  <> fst (do_call c2 (run others (snd (do_call c1 (run before init))))).
Proof.
  intros Hne.
  set (rt1 := snd (do_call c1 (run before init))).
  set (rt2 := run others rt1).
  destruct init_registry as [Hb0 Hi0].
  destruct (run_registry before init Hb0 Hi0) as [Hb Hi].
  destruct (do_call_registry c1 _ Hb Hi) as [Hb1 Hi1]. fold rt1 in Hb1, Hi1.
  destruct (run_registry others rt1 Hb1 Hi1) as [Hb2 Hi2]. fold rt2 in Hb2, Hi2.
  destruct (do_call_registry c2 _ Hb2 Hi2) as [_ Hi3].
  intros E. apply Hne. apply (Hi3 _ _ (fst (do_call c1 (run before init)))).
  - apply do_call_keeps. unfold rt2. apply run_keeps. apply do_call_binds.
  - rewrite E. apply do_call_binds.
Qed.

Lemma named_semaphores_are_separate_witness :
  fst (do_call (tmp_x "/" 1) (run [reserved_key 1] init))
  <> fst (do_call (reserved_key 2)
            (run [tmp_x_slash "/" 3]
               (snd (do_call (tmp_x "/" 1) (run [reserved_key 1] init))))).
Proof.
  apply (named_semaphores_are_separate [reserved_key 1] [tmp_x_slash "/" 3]
           (tmp_x "/" 1) (reserved_key 2)).
  vm_compute. discriminate.
Defined.

Lemma do_call_heap (c : call) (rt : runtime) a x :
  heap rt !! a = Some x -> heap (snd (do_call c rt)) !! a = Some x.
Proof.
  intros H. unfold do_call, get_named_semaphore.
  destruct (named_semaphores rt !! normalized_key _ _ _); simpl; auto.
  now apply lookup_app_l_Some.
Qed.

Lemma run_heap (calls : list call) : forall (rt : runtime) a x,
  heap rt !! a = Some x -> heap (run calls rt) !! a = Some x.
Proof.
  induction calls as [|c calls IH]; intros rt a x H; simpl; auto.
  apply IH. now apply do_call_heap.
Qed.

(** X7: the count of a semaphore is set by the first request for its key
    and never changes: a later request for the same key, with whatever
    count, gets the semaphore with the count of the first request. *)
Theorem named_semaphore_keeps_first_count (before others : list call)
    (first later : call) :
  call_key first <> "" ->
  (forall c, c ∈ before -> call_key c <> call_key first) ->
  call_key later = call_key first ->
  let rt1 := snd (do_call first (run before init)) in
  let answer := do_call later (run others rt1) in
  heap (snd answer) !! fst answer = Some (Semaphore (count first)).
Proof.
  intros Hne Hfirst Hkey rt1 answer.
  set (rt0 := run before init) in *.
  assert (Hnone : named_semaphores rt0 !! call_key first = None).
  { apply run_unbound; [|exact Hfirst].
    unfold init; simpl. apply lookup_singleton_ne. congruence. }
  assert (Hsem : fst (do_call first rt0) = length (heap rt0)
                 /\ heap rt1 !! length (heap rt0)
                    = Some (Semaphore (count first))).
  { unfold rt1, do_call, get_named_semaphore. fold (call_key first).
    rewrite Hnone. simpl. split; [reflexivity|]. now apply list_lookup_middle. }
  destruct Hsem as [Hobj Hheap].
  assert (Hanswer : fst answer = length (heap rt0)).
  { unfold answer. rewrite <- Hobj. apply do_call_bound. rewrite Hkey.
    apply run_keeps, do_call_binds. }
  rewrite Hanswer. unfold answer. now apply do_call_heap, run_heap.
Qed.

Lemma named_semaphore_keeps_first_count_witness :
  heap (snd (do_call (tmp_x "/" 7)
               (run [reserved_key 1]
                  (snd (do_call (tmp_x_slash "/" 2) (run [] init))))))
    !! fst (do_call (tmp_x "/" 7)
              (run [reserved_key 1]
                 (snd (do_call (tmp_x_slash "/" 2) (run [] init)))))
  = Some (Semaphore 2).
Proof.
  apply (named_semaphore_keeps_first_count [] [reserved_key 1]
           (tmp_x_slash "/" 2) (tmp_x "/" 7)).
  - discriminate.
  - intros c Hc. inversion Hc.
  - reflexivity.
Defined.

End SemaphoreRegistry.

(** ** Public-upstream translation, continued *)

Section UpstreamRules.
Import Upstream Rules.
Local Open Scope list_scope.

Lemma longer_is_truthy (a b : string) :
  (String.length a <? String.length b)%nat = true -> truthy b = true.
Proof.
  destruct b; simpl; [|reflexivity].
  intros H. apply Nat.ltb_lt in H. lia.
Qed.

Lemma consider_cases (conv : string -> string) (remote_git : string)
    (t : option target) (u : upstream) :
  let t' := consider conv (conv remote_git) t u in
  (t' = t \/ (matches conv remote_git u = true /\ t' = Some (target_of conv u)))
  /\ (unset t = false -> unset t' = false)
  /\ (matches conv remote_git u = true ->
      truthy (conv (private u)) = true -> unset t' = false).
Proof.
  unfold consider, matches.
  destruct (startswith _ _ || String.eqb _ _); simpl; [|intuition congruence].
  destruct (unset t) eqn:Hunset; simpl.
  - split; [right; auto|]. split; [discriminate|]. intros _ ->. reflexivity.
  - destruct (longer_than_contender _ t) eqn:Hlong.
    + split; [right; auto|]. simpl.
      destruct t as [t|]; [|discriminate Hlong]. simpl in Hlong.
      rewrite (longer_is_truthy _ _ Hlong). auto.
    + rewrite Hunset. auto.
Qed.

Lemma consider_fold (conv : string -> string) (remote_git : string)
    (rules : list upstream) : forall t,
  let t' := fold_left (consider conv (conv remote_git)) rules t in
  (t' = t
   \/ exists u, u ∈ rules /\ matches conv remote_git u = true
                /\ t' = Some (target_of conv u))
  /\ (unset t = false
      \/ (exists u, u ∈ rules /\ matches conv remote_git u = true
                    /\ truthy (conv (private u)) = true) ->
      unset t' = false).
Proof.
  induction rules as [|u rules IH]; intros t; simpl.
  - split; [now left|]. intros [H|(u & Hu & _)]; [exact H|inversion Hu].
  - destruct (IH (consider conv (conv remote_git) t u)) as [IH1 IH2].
    destruct (consider_cases conv remote_git t u) as (Hc1 & Hc2 & Hc3).
    simpl in *. split.
    + destruct IH1 as [->|(v & Hv & Hm & ->)].
      * destruct Hc1 as [->|[Hm ->]]; [now left|].
        right. exists u. repeat split; auto. left.
      * right. exists v. repeat split; auto. now right.
    + intros [H|(v & Hv & Hm & Htr)]; apply IH2.
      * left. auto.
      * apply elem_of_cons in Hv as [->|Hv]; [left; auto|].
        right. exists v. auto.
Qed.

(** X8: [get_public_upstream] only substitutes with a rule of the list
    that matches the remote: its result is the normalised remote without
    branch, or the substitution made with one matching rule.  Without a
    matching rule the remote is returned normalised; with a matching rule
    whose normalised private prefix is not empty, a substitution is
    made. *)
Theorem get_public_upstream_uses_matching_rule (conv : string -> string)
    (rules : list upstream) (remote_git : string) :
  (get_public_upstream conv rules remote_git = (conv remote_git, None)
   \/ exists u, u ∈ rules /\ matches conv remote_git u = true
                /\ get_public_upstream conv rules remote_git
                   = substitute_with conv u remote_git)
  /\ ((forall u, u ∈ rules -> matches conv remote_git u = false) ->
      get_public_upstream conv rules remote_git = (conv remote_git, None))
  /\ ((exists u, u ∈ rules /\ matches conv remote_git u = true
                 /\ truthy (conv (private u)) = true) ->
      exists u, u ∈ rules /\ matches conv remote_git u = true
                /\ get_public_upstream conv rules remote_git
                   = substitute_with conv u remote_git).
Proof.
  destruct (consider_fold conv remote_git rules None) as [Hfold Hset].
  simpl in Hfold, Hset.
  assert (Hresult :
            get_public_upstream conv rules remote_git
            = match fold_left (consider conv (conv remote_git)) rules None with
              | Some t =>
                  if truthy (target_priv_prefix t)
                  then (target_pub_prefix t
                          +:+ drop (String.length (target_priv_prefix t))
                                (conv remote_git),
                        target_pub_branch t)
                  else (conv remote_git, None)
              | None => (conv remote_git, None)
              end).
  { unfold get_public_upstream. destruct rules; reflexivity. }
  rewrite Hresult. clear Hresult.
  split; [|split].
  - destruct Hfold as [->|(u & Hu & Hm & ->)]; [now left|]. simpl.
    destruct (truthy (conv (private u))); [|now left].
    right. exists u. auto.
  - intros Hnone. destruct Hfold as [->|(u & Hu & Hm & _)]; [reflexivity|].
    rewrite (Hnone u Hu) in Hm. discriminate.
  - intros Hsome. pose proof (Hset (or_intror Hsome)) as Hunset.
    destruct Hfold as [E|(u & Hu & Hm & E)]; rewrite E in *;
      [discriminate Hunset|].
    simpl in *. apply negb_false_iff in Hunset. rewrite Hunset.
    exists u. auto.
Qed.

Lemma get_public_upstream_uses_matching_rule_witness :
  (get_public_upstream Util.convert_remote_git_to_https [org_wide; one_repo]
     "git@gitlab.com:other/repo.git"
   = (Util.convert_remote_git_to_https "git@gitlab.com:other/repo.git", None))
  /\ exists u, u ∈ [org_wide; one_repo]
               /\ matches Util.convert_remote_git_to_https
                    "https://github.com/org/repo" u = true
               /\ get_public_upstream Util.convert_remote_git_to_https
                    [org_wide; one_repo] "https://github.com/org/repo"
                  = substitute_with Util.convert_remote_git_to_https u
                      "https://github.com/org/repo".
Proof.
  split.
  - apply (get_public_upstream_uses_matching_rule
             Util.convert_remote_git_to_https [org_wide; one_repo]
             "git@gitlab.com:other/repo.git").
    intros u Hu.
    repeat (apply elem_of_cons in Hu as [->|Hu]); [reflexivity..|].
    now apply elem_of_nil in Hu.
  - apply (get_public_upstream_uses_matching_rule
             Util.convert_remote_git_to_https [org_wide; one_repo]
             "https://github.com/org/repo").
    exists one_repo. split; [right; left|]. split; reflexivity.
Defined.

End UpstreamRules.

(** ** Source branch detection, continued *)

Section BranchCandidates.
Import Branch Candidates.
Local Open Scope list_scope.



End BranchCandidates.

(** ** Duplicate distgits *)

Section DistgitCollisions.
Import Checks.
Local Open Scope list_scope.

Lemma collisions_ok (metas : list meta) : forall seen seen',
  for_each check_collision metas seen = inr seen' ->
  NoDup (collide_key <$> metas)
  /\ (forall m, m ∈ metas -> seen !! collide_key m = None
                             /\ seen' !! collide_key m = Some m)
  /\ (forall k x, seen !! k = Some x -> seen' !! k = Some x).
Proof.
  induction metas as [|m metas IH]; intros seen seen' H; simpl in H.
  - injection H as <-. split; [apply NoDup_nil_2|].
    split; [intros m Hm; inversion Hm|auto].
  - unfold check_collision in H at 1.
    destruct (seen !! collide_key m) eqn:Hm; [discriminate|].
    destruct (IH _ _ H) as (Hnd & Hall & Hkeep).
    split; [|split].
    + rewrite fmap_cons. apply NoDup_cons. split; [|exact Hnd].
      intros Hin. apply list_elem_of_fmap in Hin as (m' & Hk & Hm').
      destruct (Hall _ Hm') as [Hnone _]. rewrite <- Hk in Hnone.
      now rewrite lookup_insert_eq in Hnone.
    + intros m' Hm'. apply elem_of_cons in Hm' as [->|Hm'].
      * split; [exact Hm|]. apply Hkeep. apply lookup_insert_eq.
      * destruct (Hall _ Hm') as [Hnone Hsome]. split; [|exact Hsome].
        destruct (decide (collide_key m = collide_key m')) as [E|Hne].
        -- rewrite E in Hnone. now rewrite lookup_insert_eq in Hnone.
        -- now rewrite lookup_insert_ne in Hnone.
    + intros k x Hk. apply Hkeep.
      destruct (decide (collide_key m = k)) as [<-|Hne]; [congruence|].
      now rewrite lookup_insert_ne.
Qed.

Lemma collisions_none (metas : list meta) : forall seen,
  NoDup (collide_key <$> metas) ->
  (forall m, m ∈ metas -> seen !! collide_key m = None) ->
  exists seen', for_each check_collision metas seen = inr seen'.
Proof.
  induction metas as [|m metas IH]; intros seen Hnd Hfree; simpl; [eauto|].
  rewrite fmap_cons in Hnd. apply NoDup_cons in Hnd as [Hm Hnd].
  unfold check_collision at 1. rewrite (Hfree m) by left.
  apply IH; [exact Hnd|]. intros m' Hm'.
  rewrite lookup_insert_ne; [apply Hfree; now right|].
  intros E. apply Hm. rewrite E. now apply list_elem_of_fmap_2.
Qed.

(** X10: the duplicate check passes exactly when no two of the loaded
    components have the same key, the text [namespace/name/#branch];
    after it every component is found under its key, and whether it
    passes does not depend on the order in which the components were
    loaded. *)
Theorem check_collisions_iff_distinct (rpm_metas image_metas : list meta) :
  ((exists seen, check_collisions rpm_metas image_metas = inr seen)
   <-> NoDup (collide_key <$> (rpm_metas ++ image_metas)))
  /\ (forall seen, check_collisions rpm_metas image_metas = inr seen ->
                   forall m, m ∈ rpm_metas ++ image_metas ->
                             seen !! collide_key m = Some m)
  /\ (forall rpm_metas' image_metas',
        rpm_metas ++ image_metas ≡ₚ rpm_metas' ++ image_metas' ->
        (exists seen, check_collisions rpm_metas image_metas = inr seen)
        <-> (exists seen, check_collisions rpm_metas' image_metas' = inr seen)).
Proof.
  assert (Hiff : forall metas,
             (exists seen, for_each check_collision metas ∅ = inr seen)
             <-> NoDup (collide_key <$> metas)).
  { intros metas. split.
    - intros [seen H]. now destruct (collisions_ok _ _ _ H).
    - intros Hnd. apply collisions_none; [exact Hnd|].
      intros m _. apply lookup_empty. }
  unfold check_collisions. split; [apply Hiff|]. split.
  - intros seen H m Hm. destruct (collisions_ok _ _ _ H) as (_ & Hall & _).
    now destruct (Hall m Hm).
  - intros rpm' image' Hperm. rewrite !Hiff. now rewrite Hperm.
Qed.

Lemma check_collisions_iff_distinct_witness :
  (exists seen, check_collisions [] (list.take 1 two_duplicates) = inr seen)
  <-> (exists seen, check_collisions (list.take 1 two_duplicates) [] = inr seen).
Proof.
  apply (check_collisions_iff_distinct [] (list.take 1 two_duplicates)).
  reflexivity.
Defined.

End DistgitCollisions.

(** ** Names in bundle *)

Section NamesInBundle.
Import PyStr Py Checks BundleNames.
Local Open Scope list_scope.

Lemma register_names_ok (st st' : name_maps) (img : image_data) :
  register_names st img = inr st' ->
  exists ns, bundle_names img = Some ns /\ NoDup ns
    /\ (forall n, n ∈ ns -> name_in_bundle_map st !! n = None
                            /\ name_in_bundle_map st' !! n = Some (key img))
    /\ (forall n, n ∉ ns ->
                  name_in_bundle_map st' !! n = name_in_bundle_map st !! n).
Proof.
  unfold register_names, bundle_names.
  destruct (split_char "/" (data_name img) !! 1%nat) as [short|];
    [|discriminate].
  destruct (otruthy (data_name_in_bundle img)).
  - set (n0 := default "" (data_name_in_bundle img)).
    unfold _register_name_in_bundle; simpl.
    destruct (name_in_bundle_map st !! n0) eqn:H0; [discriminate|].
    intros [= <-]; simpl. exists [n0]. split; [reflexivity|].
    split; [apply NoDup_singleton|]. split.
    + intros n Hn. apply list_elem_of_singleton in Hn as ->.
      split; [exact H0|apply lookup_insert_eq].
    + intros n Hn. apply lookup_insert_ne. intros ->. apply Hn. now left.
  - set (w := if startswith short "ose-" then drop 4 short else short).
    unfold _register_name_in_bundle; simpl.
    destruct (name_in_bundle_map st !! w) eqn:H0; [discriminate|]. simpl.
    match goal with
    | |- context [<[w := _]> _ !! ?x] => destruct (decide (w = x)) as [E|Hne]
    end.
    { rewrite <- E, lookup_insert_eq. discriminate. }
    rewrite lookup_insert_ne by exact Hne.
    destruct (name_in_bundle_map st !! ("ose-" +:+ w)) eqn:H1; [discriminate|].
    intros [= <-]; simpl. exists [w; "ose-" +:+ w]. split; [reflexivity|].
    split.
    { apply NoDup_cons. split; [|apply NoDup_singleton].
      intros Hin. now apply list_elem_of_singleton in Hin. }
    split.
    + intros n Hn. apply elem_of_cons in Hn as [->|Hn].
      * split; [exact H0|].
        rewrite lookup_insert_ne by (intros E; now apply Hne).
        apply lookup_insert_eq.
      * apply list_elem_of_singleton in Hn as ->.
        split; [exact H1|apply lookup_insert_eq].
    + intros n Hn.
      rewrite !lookup_insert_ne; [reflexivity| |].
      * intros <-. apply Hn. now left.
      * intros <-. apply Hn. right. now left.
Qed.

Lemma register_names_free (st : name_maps) (img : image_data)
    (ns : list string) :
  bundle_names img = Some ns -> NoDup ns ->
  (forall n, n ∈ ns -> name_in_bundle_map st !! n = None) ->
  exists st', register_names st img = inr st'.
Proof.
  unfold register_names, bundle_names.
  destruct (split_char "/" (data_name img) !! 1%nat) as [short|];
    [|discriminate].
  destruct (otruthy (data_name_in_bundle img)).
  - intros [= <-] _ Hfree. unfold _register_name_in_bundle; simpl.
    rewrite Hfree by now left. eauto.
  - set (w := if startswith short "ose-" then drop 4 short else short).
    intros [= <-] Hnd Hfree. unfold _register_name_in_bundle; simpl.
    rewrite (Hfree w) by now left. simpl.
    apply NoDup_cons in Hnd as [Hne _].
    rewrite lookup_insert_ne
      by (intros E; apply Hne; rewrite <- E; now left).
    rewrite Hfree by (right; now left). eauto.
Qed.

Lemma register_all_ok (data : list image_data) : forall st st',
  for_each register_names data st = inr st' ->
  exists names, mapM bundle_names data = Some names
    /\ NoDup (concat names)
    /\ (forall n, n ∈ concat names -> name_in_bundle_map st !! n = None)
    /\ (forall n, n ∉ concat names ->
                  name_in_bundle_map st' !! n = name_in_bundle_map st !! n)
    /\ (forall img ns n, img ∈ data -> bundle_names img = Some ns -> n ∈ ns ->
                         name_in_bundle_map st' !! n = Some (key img)).
Proof.
  induction data as [|img data IH]; intros st st' H; simpl in H.
  - injection H as <-. exists []; simpl.
    split; [reflexivity|]. split; [apply NoDup_nil_2|].
    split; [intros n Hn; inversion Hn|].
    split; [reflexivity|]. intros img ns n Himg. inversion Himg.
  - destruct (register_names st img) as [e|st1] eqn:H1; [discriminate|].
    apply register_names_ok in H1 as (ns & Hns & Hnd & Hin & Hout).
    destruct (IH _ _ H) as (names & Hnames & Hnd' & Hfree & Hkeep & Hall).
    exists (ns :: names).
    assert (Hdisj : forall n, n ∈ ns -> n ∉ concat names).
    { intros n Hn Hn'. apply Hfree in Hn'.
      destruct (Hin n Hn) as [_ Hs]. congruence. }
    split; [simpl; now rewrite Hns, Hnames|]. simpl.
    split; [apply NoDup_app; auto|].
    split; [|split].
    + intros n Hn. apply elem_of_app in Hn as [Hn|Hn].
      * now destruct (Hin n Hn).
      * destruct (decide (n ∈ ns)) as [Hn'|Hn'];
          [now destruct (Hin n Hn')|].
        rewrite <- Hout by exact Hn'. now apply Hfree.
    + intros n Hn. rewrite Hkeep, Hout; [reflexivity| |];
        intros Hn'; apply Hn; apply elem_of_app; auto.
    + intros img' ns' n Himg Hns' Hn.
      apply elem_of_cons in Himg as [->|Himg]; [|eauto].
      assert (ns' = ns) as -> by congruence.
      rewrite Hkeep by now apply Hdisj. now destruct (Hin n Hn).
Qed.

Lemma register_all_free (data : list image_data) : forall st names,
  mapM bundle_names data = Some names -> NoDup (concat names) ->
  (forall n, n ∈ concat names -> name_in_bundle_map st !! n = None) ->
  exists st', for_each register_names data st = inr st'.
Proof.
  induction data as [|img data IH]; intros st names Hnames Hnd Hfree;
    simpl; [eauto|].
  simpl in Hnames.
  destruct (bundle_names img) as [ns|] eqn:Hns; [|discriminate].
  destruct (mapM bundle_names data) as [names'|] eqn:Hnames';
    [|discriminate].
  simpl in Hnames. injection Hnames as <-. simpl in Hnd, Hfree.
  apply NoDup_app in Hnd as (Hnd1 & Hdisj & Hnd2).
  destruct (register_names_free st img ns Hns Hnd1) as [st1 H1].
  { intros n Hn. apply Hfree, elem_of_app. now left. }
  rewrite H1.
  apply register_names_ok in H1 as (ns1 & Hns1 & _ & _ & Hout).
  assert (ns1 = ns) as -> by congruence.
  apply (IH st1 names' eq_refl Hnd2).
  intros n Hn. rewrite Hout.
  - apply Hfree, elem_of_app. now right.
  - intros Hn'. exact (Hdisj n Hn' Hn).
Qed.

(** X11: registering the names in bundle of a group succeeds exactly
    when every image name has a part after its first slash and no name
    is registered twice, be it by one image or by two; after it every
    registered name leads to the image that registered it, and no other
    name is in the registry. *)
Theorem register_all_names_iff_distinct (image_name_data : list image_data) :
  ((exists st, register_all_names image_name_data no_names = inr st)
   <-> exists names, mapM bundle_names image_name_data = Some names
                     /\ NoDup (concat names))
  /\ (forall st names,
        register_all_names image_name_data no_names = inr st ->
        mapM bundle_names image_name_data = Some names ->
        (forall img ns n, img ∈ image_name_data ->
                          bundle_names img = Some ns -> n ∈ ns ->
                          name_in_bundle_map st !! n = Some (key img))
        /\ (forall n, n ∉ concat names -> name_in_bundle_map st !! n = None)).
Proof.
  unfold register_all_names. split; [split|].
  - intros [st H].
    destruct (register_all_ok _ _ _ H) as (names & Hn & Hnd & _).
    eauto.
  - intros (names & Hn & Hnd).
    apply (register_all_free _ _ names Hn Hnd).
    intros n _. apply lookup_empty.
  - intros st names H Hnames.
    destruct (register_all_ok _ _ _ H) as (names' & Hn & _ & _ & Hkeep & Hall).
    assert (names' = names) as -> by congruence.
    split; [exact Hall|].
    intros n Hn'. rewrite Hkeep by exact Hn'. apply lookup_empty.
Qed.

Lemma register_all_names_iff_distinct_witness :
  name_in_bundle_map
    (match register_all_names [operator_image] no_names with
     | inr st => st | inl _ => no_names end) !! "operator"
  = Some "my-operator".
Proof.
  destruct (register_all_names_iff_distinct [operator_image]) as [_ H].
  destruct (register_all_names [operator_image] no_names) as [e|st] eqn:E;
    [vm_compute in E; discriminate|].
  destruct (H st [["operator"]] eq_refl eq_refl) as [Hall _].
  apply (Hall operator_image ["operator"] "operator").
  - now left.
  - reflexivity.
  - now left.
Defined.

End NamesInBundle.

(** ** Facts about [str] operations *)

Section TextFacts.
Import PyStr Py Text.

Lemma prefix_app (n s t : string) :
  String.prefix n s = true -> String.prefix n (s +:+ t) = true.
Proof.
  revert s. induction n as [|a n IH]; intros s H;
    [destruct s; simpl; [destruct t|]; reflexivity|].
  destruct s as [|b s]; [discriminate|]. simpl in *.
  destruct (ascii_dec a b); [auto|discriminate].
Qed.

Lemma prefix_self_app (n t : string) : String.prefix n (n +:+ t) = true.
Proof.
  induction n as [|a n IH]; simpl; [now destruct t|].
  destruct (ascii_dec a a); [exact IH|congruence].
Qed.

Lemma contains_app_l (s t n : string) :
  contains s n = true -> contains (s +:+ t) n = true.
Proof.
  induction s as [|d s IH]; simpl; intros H.
  - rewrite orb_false_r in H. destruct n; [|discriminate].
    destruct t; reflexivity.
  - apply orb_true_iff in H as [H|H]; apply orb_true_iff.
    + left. exact (prefix_app n (String d s) t H).
    + right. auto.
Qed.

Lemma contains_app_r (s t n : string) :
  contains t n = true -> contains (s +:+ t) n = true.
Proof.
  induction s as [|d s IH]; simpl; intros H; [exact H|].
  apply orb_true_iff. right. auto.
Qed.

Lemma contains_prefix (s n : string) :
  String.prefix n s = true -> contains s n = true.
Proof. intros H. destruct s; cbn [contains]; rewrite H; reflexivity. Qed.

Lemma contains_self_app (n t : string) : contains (n +:+ t) n = true.
Proof. apply contains_prefix, prefix_self_app. Qed.

Lemma contains_char (c : ascii) (s : string) :
  contains s (String c EmptyString) = negb (no_char c s).
Proof.
  unfold no_char. induction s as [|d s IH]; simpl; [reflexivity|].
  rewrite IH. destruct (ascii_dec c d) as [->|Hne].
  - rewrite Ascii.eqb_refl. now destruct s.
  - apply Ascii.eqb_neq in Hne. rewrite Hne. reflexivity.
Qed.

Lemma all_chars_app (p : ascii -> bool) (a b : string) :
  all_chars p (a +:+ b) = all_chars p a && all_chars p b.
Proof.
  induction a as [|d a IH]; simpl; [reflexivity|].
  now rewrite IH, andb_assoc.
Qed.

Lemma all_chars_replace (p : ascii -> bool) (c : ascii) (new s : string) :
  all_chars p new = true -> all_chars p s = true ->
  all_chars p (replace_char c new s) = true.
Proof.
  intros Hnew. induction s as [|d s IH]; simpl; [reflexivity|].
  intros H. apply andb_true_iff in H as [Hd Hs].
  destruct (Ascii.eqb c d); simpl.
  - rewrite all_chars_app, Hnew. auto.
  - rewrite Hd. auto.
Qed.

Lemma no_char_replace (c : ascii) (new s : string) :
  no_char c new = true -> no_char c (replace_char c new s) = true.
Proof.
  unfold no_char. intros Hnew. induction s as [|d s IH]; simpl; [reflexivity|].
  destruct (Ascii.eqb c d) eqn:E; simpl.
  - now rewrite all_chars_app, Hnew.
  - now rewrite E.
Qed.

Lemma replace_char_id (c : ascii) (new s : string) :
  no_char c s = true -> replace_char c new s = s.
Proof.
  unfold no_char. induction s as [|d s IH]; simpl; [reflexivity|].
  intros H. apply andb_true_iff in H as [Hd Hs].
  destruct (Ascii.eqb c d); [discriminate|]. now rewrite IH.
Qed.

Lemma split_char_nonempty (c : ascii) (s : string) : split_char c s <> [].
Proof.
  destruct s as [|d s]; simpl; [discriminate|].
  destruct (Ascii.eqb c d); [discriminate|].
  destruct (split_char c s); discriminate.
Qed.

Lemma split_char_none (c : ascii) (s : string) :
  no_char c s = true -> split_char c s = [s].
Proof.
  unfold no_char. induction s as [|d s IH]; simpl; [reflexivity|].
  intros H. apply andb_true_iff in H as [Hd Hs].
  destruct (Ascii.eqb c d); [discriminate|]. now rewrite IH.
Qed.

Lemma split_char_pieces (p : ascii -> bool) (c : ascii) (s x : string) :
  x ∈ split_char c s ->
  no_char c x = true /\ (all_chars p s = true -> all_chars p x = true).
Proof.
  unfold no_char. revert x. induction s as [|d s IH]; simpl; intros x Hx.
  - apply list_elem_of_singleton in Hx as ->. auto.
  - destruct (Ascii.eqb c d) eqn:E.
    + apply elem_of_cons in Hx as [->|Hx]; [auto|].
      destruct (IH x Hx) as [H1 H2]. split; [exact H1|].
      intros H. apply andb_true_iff in H as [_ H]. auto.
    + destruct (split_char c s) as [|w ws] eqn:Hs.
      * apply list_elem_of_singleton in Hx as ->. simpl.
        rewrite E. split; [reflexivity|]. intros H.
        apply andb_true_iff in H as [-> _]. reflexivity.
      * apply elem_of_cons in Hx as [->|Hx].
        -- destruct (IH w) as [H1 H2]; [now left|]. simpl.
           rewrite E, H1. split; [reflexivity|]. intros H.
           apply andb_true_iff in H as [-> H]. simpl. auto.
        -- destruct (IH x) as [H1 H2]; [now right|]. split; [exact H1|].
           intros H. apply andb_true_iff in H as [_ H]. auto.
Qed.

Lemma split_char_app (c : ascii) (s t : string) :
  split_char c (s +:+ t)
  = (removelast (split_char c s)
     ++ match split_char c t with
        | [] => []
        | h :: r => (last_item (split_char c s) +:+ h) :: r
        end)%list.
Proof.
  unfold last_item. induction s as [|d s IH].
  - change ("" +:+ t) with t. simpl. destruct (split_char c t); reflexivity.
  - change (String d s +:+ t) with (String d (s +:+ t)).
    cbn [split_char]. rewrite IH. clear IH.
    assert (Hs := split_char_nonempty c s).
    assert (Ht := split_char_nonempty c t).
    destruct (split_char c t) as [|h r]; [congruence|].
    destruct (split_char c s) as [|w ws]; [congruence|].
    destruct (Ascii.eqb c d).
    + reflexivity.
    + destruct ws as [|x ws]; reflexivity.
Qed.

Lemma split_once_Some (c : ascii) (s a b : string) :
  split_once c s = Some (a, b) ->
  s = a +:+ String c b /\ no_char c a = true.
Proof.
  unfold no_char. revert a. induction s as [|d s IH]; simpl; intros a H;
    [discriminate|].
  destruct (Ascii.eqb c d) eqn:E.
  - injection H as <- <-. apply Ascii.eqb_eq in E as ->. auto.
  - destruct (split_once c s) as [[a' b']|]; [|discriminate].
    injection H as <- <-. destruct (IH a' eq_refl) as [-> Ha].
    simpl. now rewrite E, Ha.
Qed.

Lemma split_once_None (c : ascii) (s : string) :
  split_once c s = None <-> no_char c s = true.
Proof.
  unfold no_char. induction s as [|d s IH]; simpl; [tauto|].
  destruct (Ascii.eqb c d); simpl; [split; discriminate|].
  destruct (split_once c s) as [[a b]|]; [|tauto].
  split; [discriminate|]. intros H. now apply IH in H.
Qed.

Lemma split_once_app (c : ascii) (a b : string) :
  no_char c a = true -> split_once c (a +:+ String c b) = Some (a, b).
Proof.
  unfold no_char. induction a as [|d a IH]; simpl; intros H.
  - now rewrite Ascii.eqb_refl.
  - apply andb_true_iff in H as [Hd Ha].
    destruct (Ascii.eqb c d); [discriminate|]. now rewrite IH.
Qed.

End TextFacts.

(** ** The record log *)

Section RecordLog.
Import PyStr Py Text Records.

Lemma append_assoc (a b c : string) : (a +:+ b) +:+ c = a +:+ (b +:+ c).
Proof.
  induction a as [|d a IH]; [reflexivity|].
  change (String d ((a +:+ b) +:+ c) = String d (a +:+ (b +:+ c))).
  now rewrite IH.
Qed.

Lemma append_empty_r (a : string) : a +:+ "" = a.
Proof.
  induction a as [|d a IH]; [reflexivity|].
  change (String d (a +:+ "") = String d a). now rewrite IH.
Qed.

Lemma add_field_line (record record' : string) (kv : string * string) :
  add_field record kv = Some record' ->
  no_char LF kv.1 = true
  /\ exists rest, record' = record +:+ rest /\ no_char LF rest = true.
Proof.
  destruct kv as [k v]. unfold add_field. rewrite contains_char.
  destruct (no_char LF k) eqn:Hk; simpl; [|discriminate].
  intros [= <-]. split; [exact Hk|]. eexists. split; [reflexivity|].
  assert (Hv : no_char LF (replace_char CR "" (replace_char LF " ;;; " v))
               = true).
  { apply all_chars_replace; [reflexivity|]. now apply no_char_replace. }
  unfold no_char in *. rewrite !all_chars_app, Hk, Hv. reflexivity.
Qed.

Lemma add_fields_line (kwargs : list (string * string)) :
  forall record record',
  add_fields record kwargs = Some record' ->
  Forall (fun kv => no_char LF kv.1 = true) kwargs
  /\ exists rest, record' = record +:+ rest /\ no_char LF rest = true.
Proof.
  induction kwargs as [|kv kwargs IH]; simpl; intros record record' H.
  - injection H as <-. split; [constructor|]. exists "".
    split; [|reflexivity]. symmetry. apply append_empty_r.
  - destruct (add_field record kv) as [r1|] eqn:H1; [|discriminate].
    apply add_field_line in H1 as (Hk & rest1 & -> & Hr1).
    apply IH in H as (Hks & rest & -> & Hr).
    split; [now constructor|]. exists (rest1 +:+ rest).
    split; [apply append_assoc|].
    unfold no_char in *. now rewrite all_chars_app, Hr1, Hr.
Qed.

Lemma add_fields_keys (kwargs : list (string * string)) : forall record,
  Forall (fun kv => no_char LF kv.1 = true) kwargs ->
  is_Some (add_fields record kwargs).
Proof.
  induction kwargs as [|[k v] kwargs IH]; simpl; intros record H; [eauto|].
  apply Forall_cons in H as [Hk H]. simpl in Hk.
  rewrite contains_char, Hk. simpl. now apply IH.
Qed.

Lemma add_record_grows (record_type : string)
    (kwargs : list (string * string)) (record_log log' : string) :
  add_record record_type kwargs record_log = Some log' ->
  no_char LF record_type = true ->
  exists record,
    log' = record_log +:+ record +:+ String LF EmptyString
    /\ no_char LF record = true
    /\ startswith record (record_type +:+ "|") = true
    /\ length (split_char LF log') = S (length (split_char LF record_log)).
Proof.
  unfold add_record. intros H Hty.
  destruct (add_fields _ kwargs) as [record|] eqn:E; [|discriminate].
  injection H as <-.
  apply add_fields_line in E as (_ & rest & -> & Hrest).
  eexists. split; [reflexivity|].
  assert (Hrec : no_char LF ((record_type +:+ "|") +:+ rest) = true).
  { unfold no_char in *. now rewrite !all_chars_app, Hty, Hrest. }
  split; [exact Hrec|]. split; [apply prefix_self_app|].
  set (record := (record_type +:+ "|") +:+ rest) in *.
  rewrite (split_char_app LF record_log),
    (split_char_app LF record (String LF EmptyString)),
    (split_char_none _ _ Hrec). simpl.
  rewrite length_app. simpl.
  assert (Hne := split_char_nonempty LF record_log).
  rewrite (app_removelast_last "" Hne) at 2.
  rewrite length_app. simpl. lia.
Qed.

Lemma add_record_one_line_keys (record_type : string)
    (kwargs : list (string * string)) (record_log : string) :
  Forall (fun kv => no_char LF kv.1 = true) kwargs ->
  is_Some (add_record record_type kwargs record_log).
Proof.
  intros Hk. unfold add_record.
  destruct (add_fields_keys kwargs (record_type +:+ "|") Hk) as [r ->].
  eauto.
Qed.

(** X12: a record is written exactly when no key has a line feed; the
    text of the log then grows by the record and one line feed, and if
    the record type has no line feed either, the record has none, starts
    with the type and a bar, and the log has one more line than before. *)
Theorem add_record_one_line (record_type : string)
    (kwargs : list (string * string)) (record_log : string) :
  (is_Some (add_record record_type kwargs record_log)
   <-> Forall (fun kv => no_char LF kv.1 = true) kwargs)
  /\ (forall log', add_record record_type kwargs record_log = Some log' ->
        no_char LF record_type = true ->
        exists record,
          log' = record_log +:+ record +:+ String LF EmptyString
          /\ no_char LF record = true
          /\ startswith record (record_type +:+ "|") = true
          /\ length (split_char LF log')
             = S (length (split_char LF record_log))).
Proof.
  unfold add_record. split; [split|].
  - intros [log' H].
    destruct (add_fields _ kwargs) as [record|] eqn:E; [|discriminate].
    now apply add_fields_line in E as [Hk _].
  - intros Hk.
    destruct (add_fields_keys kwargs (record_type +:+ "|") Hk) as [r ->].
    eauto.
  - intros log' H Hty.
    exact (add_record_grows record_type kwargs record_log log' H Hty).
Qed.

Lemma add_record_one_line_witness :
  exists record,
    add_record "dockerfile_notify" dockerfile_notify ""
    = Some (record +:+ String LF EmptyString)
    /\ no_char LF record = true.
Proof.
  destruct (add_record_one_line "dockerfile_notify" dockerfile_notify "")
    as [_ H].
  destruct (add_record "dockerfile_notify" dockerfile_notify "")
    as [log'|] eqn:E; [|vm_compute in E; discriminate].
  destruct (H log' eq_refl eq_refl) as (record & -> & Hno & _).
  exists record. split; [reflexivity|exact Hno].
Defined.

End RecordLog.

(** ** Pull specs in brew *)

Section BrewPullSpecs.
Import PyStr Py Text Brew.

Lemma tagged_latest (url : string) :
  contains (last_item (split_char "/" (url +:+ ":latest"))) ":" = true.
Proof.
  rewrite split_char_app. simpl. unfold last_item at 1.
  rewrite last_last. apply contains_app_r. reflexivity.
Qed.

(** X13: the pull spec that is returned always has a tag or digest in
    its last path segment and always contains the brew image host, so
    resolving a pull spec that was already resolved changes nothing. *)
Theorem resolve_brew_image_url_idempotent (brew_image_host : string)
    (brew_image_namespace : option string) (image_name_and_version : string) :
  let url := resolve_brew_image_url brew_image_host brew_image_namespace
               image_name_and_version in
  contains (last_item (split_char "/" url)) ":" = true
  /\ contains url brew_image_host = true
  /\ resolve_brew_image_url brew_image_host brew_image_namespace url = url.
Proof.
  intros url.
  assert (Htag : contains (last_item (split_char "/" url)) ":" = true).
  { subst url. unfold resolve_brew_image_url.
    match goal with
    | |- context [if negb (contains (last_item (split_char _ ?u)) _)
                  then _ else _] =>
        generalize u; intros u';
        destruct (contains (last_item (split_char "/" u')) ":") eqn:E; simpl
    end; [exact E|apply tagged_latest]. }
  assert (Hhost : contains url brew_image_host = true).
  { subst url. unfold resolve_brew_image_url.
    assert (Hbase : contains
              (if contains image_name_and_version brew_image_host
               then image_name_and_version
               else match brew_image_namespace with
                    | Some ns =>
                        String.concat "/"
                          [brew_image_host; ns;
                           replace_char "/" "-" image_name_and_version]
                    | None =>
                        String.concat "/"
                          [brew_image_host; image_name_and_version]
                    end) brew_image_host = true).
    { destruct (contains image_name_and_version brew_image_host) eqn:E;
        [exact E|].
      destruct brew_image_namespace; apply contains_self_app. }
    revert Hbase.
    match goal with
    | |- contains ?u _ = true -> _ => generalize u; intros u' Hbase
    end.
    destruct (negb _); [now apply contains_app_l|exact Hbase]. }
  split; [exact Htag|]. split; [exact Hhost|].
  unfold resolve_brew_image_url at 1. now rewrite Hhost, Htag.
Qed.

End BrewPullSpecs.

(** ** The group and its commitish *)

Section GroupCommitish.
Import PyStr Py Text Group.

(** X14: a group without [@] is its own commitish; otherwise the group
    is cut at its first [@], so that the name has no [@], and name, [@]
    and commitish put together give the text that was passed.  A name
    without [@] followed by [@] and any commitish is split back into
    the two. *)
Theorem split_group_round_trip (group : string) :
  (no_char "@" group = true -> split_group group = (group, group))
  /\ (no_char "@" group = false ->
      group = (split_group group).1 +:+ "@" +:+ (split_group group).2
      /\ no_char "@" (split_group group).1 = true)
  /\ (forall commitish, no_char "@" group = true ->
        split_group (group +:+ "@" +:+ commitish) = (group, commitish)).
Proof.
  unfold split_group. split; [|split].
  - intros H. apply split_once_None in H. now rewrite H.
  - intros H. destruct (split_once "@" group) as [[g c]|] eqn:E.
    + now apply split_once_Some in E.
    + apply split_once_None in E. congruence.
  - intros c H. change ("@" +:+ c) with (String "@" c).
    now rewrite (split_once_app "@" group c H).
Qed.

Lemma split_group_round_trip_witness :
  split_group ("openshift-4.14" +:+ "@" +:+ "my@branch")
  = ("openshift-4.14", "my@branch").
Proof.
  destruct (split_group_round_trip "openshift-4.14") as (_ & _ & H).
  apply (H "my@branch"). reflexivity.
Defined.

End GroupCommitish.

(** ** Lists given on the command line *)

Section CommandLineLists.
Import PyStr Py Text Flatten.
Local Open Scope list_scope.

Lemma csv_values_clean (n x : string) :
  x ∈ csv_values n ->
  x <> EmptyString /\ no_char "," x = true /\ no_char " " x = true.
Proof.
  unfold csv_values. intros H. apply list_elem_of_filter in H as [Hne Hx].
  split; [exact Hne|].
  destruct (split_char_pieces (fun d => negb (Ascii.eqb " " d)) _ _ _ Hx)
    as [Hc Hs].
  split; [exact Hc|]. apply Hs. now apply no_char_replace.
Qed.

Lemma csv_values_single (x : string) :
  x <> EmptyString -> no_char "," x = true -> no_char " " x = true ->
  csv_values x = [x].
Proof.
  intros Hne Hc Hs. unfold csv_values.
  rewrite (replace_char_id _ _ _ Hs), (split_char_none _ _ Hc).
  rewrite filter_cons. now destruct (decide (x <> "")).
Qed.

Lemma flatten_list_elem (names : option (list string)) (x : string) :
  x ∈ flatten_list names
  <-> exists l n, names = Some l /\ n ∈ l /\ x ∈ csv_values n.
Proof.
  unfold flatten_list. destruct names as [[|n0 l]|].
  - split; [set_solver|]. intros (l & n & [= <-] & Hn & _). inversion Hn.
  - rewrite elem_of_list_to_set, elem_of_concat. split.
    + intros (ys & Hys & Hx). apply list_elem_of_fmap in Hys as (n & -> & Hn).
      eauto.
    + intros (l' & n & [= <-] & Hn & Hx). exists (csv_values n).
      split; [now apply list_elem_of_fmap_2|exact Hx].
  - split; [set_solver|]. intros (l & n & H & _). discriminate.
Qed.

(** X15: every name that comes out of flattening a command-line list is
    non-empty and has neither a comma nor a blank in it. *)
Theorem flatten_list_values_clean (names : option (list string))
    (x : string) :
  x ∈ flatten_list names ->
  x <> EmptyString /\ no_char "," x = true /\ no_char " " x = true.
Proof.
  intros H. apply flatten_list_elem in H as (l & n & _ & _ & Hx).
  exact (csv_values_clean n x Hx).
Qed.

Lemma flatten_list_values_clean_witness :
  no_char "," "x86_64" = true.
Proof.
  apply (flatten_list_values_clean (Some ["x86_64,aarch64"; " s390x "])).
  apply (bool_decide_unpack _). vm_compute. exact I.
Defined.

(** X16: flattening is idempotent: whatever order the returned list has,
    flattening it again gives the same names. *)
Theorem flatten_list_idempotent (names : option (list string))
    (result : list string) :
  (forall x, x ∈ result <-> x ∈ flatten_list names) ->
  flatten_list (Some result) = flatten_list names.
Proof.
  intros Hres. apply set_eq. intros x.
  rewrite (flatten_list_elem (Some result)). split.
  - intros (l & n & [= <-] & Hn & Hx).
    assert (Hn' := Hn). apply Hres, flatten_list_elem in Hn'
      as (l0 & n0 & _ & _ & Hn0).
    destruct (csv_values_clean _ _ Hn0) as (H1 & H2 & H3).
    rewrite (csv_values_single n H1 H2 H3) in Hx.
    apply list_elem_of_singleton in Hx as ->. now apply Hres.
  - intros Hx. exists result, x. split; [reflexivity|].
    split; [now apply Hres|].
    apply flatten_list_elem in Hx as (l0 & n0 & _ & _ & Hn0).
    destruct (csv_values_clean _ _ Hn0) as (H1 & H2 & H3).
    rewrite (csv_values_single x H1 H2 H3). now left.
Qed.

Lemma flatten_list_idempotent_witness :
  flatten_list (Some ["aarch64"; "x86_64"])
  = flatten_list (Some ["x86_64,aarch64"]).
Proof.
  apply (flatten_list_idempotent (Some ["x86_64,aarch64"])
           ["aarch64"; "x86_64"]).
  intros x.
  assert (E : flatten_list (Some ["x86_64,aarch64"])
              = list_to_set ["aarch64"; "x86_64"]).
  { apply (bool_decide_unpack _). vm_compute. exact I. }
  rewrite E. symmetry. apply elem_of_list_to_set.
Defined.

End CommandLineLists.

(** ** Version texts *)

Section VersionTexts.
Import PyStr Py Assembly Text Version.

Lemma append_empty (a b : string) : a +:+ b = "" -> a = "" /\ b = "".
Proof. destruct a; [auto|discriminate]. Qed.

Lemma append_cons (a b : string) (c : ascii) (s : string) :
  a +:+ b = String c s ->
  (a = "" /\ b = String c s) \/ (exists a', a = String c a' /\ s = a' +:+ b).
Proof.
  destruct a as [|d a]; [auto|].
  intros H. change (String d (a +:+ b) = String c s) in H.
  injection H as -> <-. right. eauto.
Qed.

Lemma nullable_lang (r : regex) : nullable r = true <-> lang r "".
Proof.
  split.
  - induction r; simpl; intros H; try discriminate.
    + constructor.
    + apply andb_true_iff in H as [H1 H2].
      change "" with ("" +:+ ""). constructor; auto.
    + apply orb_true_iff in H as [H|H];
        [apply lang_Alt_l|apply lang_Alt_r]; auto.
    + constructor.
  - intros H. remember "" as s eqn:Es.
    induction H as [|p d Hd|r1 r2 s1 s2 H1 IH1 H2 IH2|r1 r2 s' H IH
                   |r1 r2 s' H IH|r|r s1 s2 H1 IH1 H2 IH2];
      simpl; try reflexivity; try discriminate.
    + apply append_empty in Es as [-> ->].
      now rewrite IH1, IH2.
    + rewrite IH by exact Es. reflexivity.
    + rewrite IH by exact Es. apply orb_true_r.
Qed.

Lemma deriv_sound (c : ascii) (r : regex) : forall s,
  lang (deriv c r) s -> lang r (String c s).
Proof.
  induction r; simpl; intros s H.
  - inversion H.
  - inversion H.
  - destruct (p c) eqn:E; inversion H; subst. now constructor.
  - assert (Hseq : forall s, lang (Seq (deriv c r1) r2) s ->
                             lang (Seq r1 r2) (String c s)).
    { intros s' H'. inversion H'; subst.
      change (String c (s1 +:+ s2)) with (String c s1 +:+ s2).
      constructor; auto. }
    destruct (nullable r1) eqn:E; [|auto].
    inversion H; subst; [auto|].
    change (String c s) with ("" +:+ String c s).
    constructor; [now apply nullable_lang|auto].
  - inversion H; subst; [apply lang_Alt_l|apply lang_Alt_r]; auto.
  - inversion H; subst.
    change (String c (s1 +:+ s2)) with (String c s1 +:+ s2).
    constructor; auto.
Qed.

Lemma deriv_complete (c : ascii) (r : regex) (w : string) :
  lang r w -> forall s, w = String c s -> lang (deriv c r) s.
Proof.
  induction 1 as [|p d Hd|r1 r2 s1 s2 H1 IH1 H2 IH2|r1 r2 s' H IH
                 |r1 r2 s' H IH|r|r s1 s2 H1 IH1 H2 IH2];
    intros s E; simpl.
  - discriminate.
  - injection E as -> <-. rewrite Hd. constructor.
  - apply append_cons in E as [[-> ->]|(a' & -> & ->)].
    + apply nullable_lang in H1. rewrite H1. apply lang_Alt_r. auto.
    + assert (lang (Seq (deriv c r1) r2) (a' +:+ s2))
        by (constructor; auto).
      destruct (nullable r1); [now apply lang_Alt_l|assumption].
  - apply lang_Alt_l. auto.
  - apply lang_Alt_r. auto.
  - discriminate.
  - apply append_cons in E as [[-> ->]|(a' & -> & ->)].
    + now apply IH2.
    + constructor; auto.
Qed.

Lemma fullmatch_lang (s : string) : forall r,
  fullmatch r s = true <-> lang r s.
Proof.
  induction s as [|c s IH]; intros r; simpl.
  - apply nullable_lang.
  - rewrite IH. split; [apply deriv_sound|].
    intros H. now apply (deriv_complete c r _ H).
Qed.

Lemma lang_Plus_digits (s : string) :
  lang (Plus (Class is_digit)) s <-> is_number s = true.
Proof.
  rewrite <- fullmatch_lang. unfold is_number.
  now rewrite fullmatch_Plus_Class.
Qed.

Lemma lang_Seq_inv (r1 r2 : regex) (s : string) :
  lang (Seq r1 r2) s <-> exists s1 s2, s = s1 +:+ s2 /\ lang r1 s1 /\ lang r2 s2.
Proof.
  split.
  - intros H. inversion H; subst. eauto.
  - intros (s1 & s2 & -> & H1 & H2). now constructor.
Qed.

Lemma lang_Opt_inv (r : regex) (s : string) :
  lang (Opt r) s <-> s = "" \/ lang r s.
Proof.
  unfold Opt. split.
  - intros H. inversion H as [| | |? ? ? H'|? ? ? H'| |]; subst; [|auto].
    inversion H'. auto.
  - intros [->|H]; [apply lang_Alt_l; constructor|now apply lang_Alt_r].
Qed.

Lemma lang_char_inv (c : ascii) (s : string) :
  lang (Class (Ascii.eqb c)) s <-> s = String c "".
Proof.
  split.
  - intros H. inversion H as [|? d Hd| | | | |]; subst.
    now apply Ascii.eqb_eq in Hd as ->.
  - intros ->. constructor. apply Ascii.eqb_refl.
Qed.

Lemma concat_empty_cons (p : string) (ps : list string) :
  String.concat "" (p :: ps) = p +:+ String.concat "" ps.
Proof.
  destruct ps as [|q ps]; simpl; [now rewrite append_empty_r|reflexivity].
Qed.

Lemma lang_Star_inv (r : regex) (s : string) :
  lang (Star r) s
  <-> exists pieces, Forall (lang r) pieces /\ s = String.concat "" pieces.
Proof.
  assert (Hcat := concat_empty_cons).
  split.
  - intros H. remember (Star r) as r' eqn:Er.
    induction H; try discriminate.
    + exists []. split; [constructor|reflexivity].
    + injection Er as ->.
      destruct (IHlang2 eq_refl) as (ps & Hps & ->).
      exists (s1 :: ps). split; [now constructor|]. now rewrite Hcat.
  - intros (ps & Hps & ->). induction Hps as [|p ps Hp Hps IH].
    + constructor.
    + rewrite Hcat. now constructor.
Qed.

Lemma concat_dots (n : string) (ns : list string) :
  String.concat "." (n :: ns)
  = n +:+ String.concat "" (map (fun m => "." +:+ m) ns).
Proof.
  revert n. induction ns as [|m ns IH]; intros n.
  - simpl. now rewrite append_empty_r.
  - change (String.concat "." (n :: m :: ns))
      with (n +:+ "." +:+ String.concat "." (m :: ns)).
    rewrite IH. simpl map.
    destruct ns as [|k ns]; simpl.
    + now rewrite append_empty_r.
    + reflexivity.
Qed.

Lemma lang_dotted (s : string) :
  lang (Star (Seq (Class (Ascii.eqb ".")) (Plus (Class is_digit)))) s
  <-> exists ns, Forall (fun n => is_number n = true) ns
                 /\ s = String.concat "" (map (fun m => "." +:+ m) ns).
Proof.
  rewrite lang_Star_inv. split.
  - intros (ps & Hps & ->). induction Hps as [|p ps Hp Hps IH].
    + exists []. split; [constructor|reflexivity].
    + destruct IH as (ns & Hns & E).
      apply lang_Seq_inv in Hp as (d & n & -> & Hd & Hn).
      apply lang_char_inv in Hd as ->. apply lang_Plus_digits in Hn.
      exists (n :: ns). split; [now constructor|].
      simpl map. now rewrite !concat_empty_cons, E.
  - intros (ns & Hns & ->). exists (map (fun m => "." +:+ m) ns).
    split; [|reflexivity].
    induction Hns as [|n ns Hn Hns IH]; simpl; constructor; [|exact IH].
    apply lang_Seq_inv. exists ".", n. split; [reflexivity|].
    split; [now apply lang_char_inv|now apply lang_Plus_digits].
Qed.

(** X17: [valid_version] accepts exactly the texts made of [v] and one
    or more non-empty decimal numbers joined by dots, with or without
    one line feed at the very end. *)
Theorem valid_version_texts (version : string) :
  valid_version version = true
  <-> exists numbers,
        numbers <> []
        /\ Forall (fun n => is_number n = true) numbers
        /\ (version = "v" +:+ String.concat "." numbers
            \/ version = "v" +:+ String.concat "." numbers
                          +:+ String LF EmptyString).
Proof.
  unfold valid_version, version_pattern. rewrite fullmatch_lang. split.
  - intros H.
    apply lang_Seq_inv in H as (v & s1 & -> & Hv & H).
    apply lang_char_inv in Hv as ->.
    apply lang_Seq_inv in H as (n & s2 & -> & Hn & H).
    apply lang_Plus_digits in Hn.
    apply lang_Seq_inv in H as (ds & nl & -> & Hds & Hnl).
    assert (Hds' : lang (Star (Seq (Class (Ascii.eqb "."))
                                 (Plus (Class is_digit)))) ds).
    { apply lang_Opt_inv in Hds as [->|Hds]; [constructor|].
      unfold Plus in Hds at 1. inversion Hds; subst. now constructor. }
    apply lang_dotted in Hds' as (ns & Hns & ->).
    exists (n :: ns). split; [discriminate|]. split; [now constructor|].
    rewrite concat_dots.
    apply lang_Opt_inv in Hnl as [->|Hnl].
    + left. now rewrite append_empty_r.
    + apply lang_char_inv in Hnl as ->. right.
      change ("v" +:+ ?x) with (String "v" x). f_equal.
      now rewrite append_assoc.
  - intros (numbers & Hne & Hnum & Hv).
    destruct numbers as [|n ns]; [congruence|].
    apply Forall_cons in Hnum as [Hn Hns].
    rewrite concat_dots in Hv.
    assert (Hbody : forall nl, lang (Opt (Class (Ascii.eqb LF))) nl ->
              lang (Seq (Class (Ascii.eqb "v"))
                     (Seq (Plus (Class is_digit))
                        (Seq (Opt (Plus (Seq (Class (Ascii.eqb "."))
                                           (Plus (Class is_digit)))))
                           (Opt (Class (Ascii.eqb LF))))))
                ("v" +:+ n +:+
                   String.concat "" (map (fun m => "." +:+ m) ns) +:+ nl)).
    { intros nl Hnl. constructor; [now apply lang_char_inv|].
      constructor; [now apply lang_Plus_digits|].
      constructor; [|exact Hnl].
      apply lang_Opt_inv. destruct ns as [|m ns]; [now left|right].
      apply Forall_cons in Hns as [Hm Hns]. simpl map.
      rewrite concat_empty_cons. unfold Plus at 1. constructor.
      - apply lang_Seq_inv. exists ".", m. split; [reflexivity|].
        split; [now apply lang_char_inv|now apply lang_Plus_digits].
      - apply lang_dotted. eauto. }
    destruct Hv as [-> | ->].
    + specialize (Hbody "" (proj2 (lang_Opt_inv _ _) (or_introl eq_refl))).
      now rewrite !append_empty_r in Hbody.
    + specialize (Hbody (String LF "")
                    (proj2 (lang_Opt_inv _ _)
                       (or_intror (proj2 (lang_char_inv _ _) eq_refl)))).
      change ("v" +:+ ?x) with (String "v" x) in *.
      now rewrite append_assoc.
Qed.

Lemma valid_version_texts_witness :
  valid_version ("v4.14" +:+ String LF EmptyString) = true.
Proof.
  apply valid_version_texts. exists ["4"; "14"].
  split; [discriminate|]. split; [repeat constructor|]. right. reflexivity.
Defined.

End VersionTexts.

(** ** The shared koji session *)

Section SharedKojiSession.
Import Py SharedSession.
Local Open Scope list_scope.

Lemma shared_session_step (e : entry) (rt : runtime) :
  single_client rt ->
  let (y, rt') := shared_koji_client_session e rt in
  single_client rt'
  /\ (forall c, _koji_client_session rt = Some c ->
                _koji_client_session rt' = Some c)
  /\ (forall c, y = Some c -> _koji_client_session rt' = Some c)
  /\ (length (login_calls rt) <= length (login_calls rt'))%nat.
Proof.
  unfold single_client, shared_koji_client_session.
  destruct (_koji_client_session rt) as [c|] eqn:Hs.
  - intros H. rewrite Hs. repeat split; auto; try apply H; congruence.
  - intros [Hb Hl].
    destruct (build_raises e);
      [rewrite Hs; repeat split; auto; try congruence|].
    destruct (disable_gssapi e); simpl.
    + rewrite Hb, Hl. repeat split; auto; try congruence.
    + rewrite Hb, Hl.
      destruct (login_raises e); simpl; repeat split; auto;
        try congruence; simpl; lia.
Qed.

Lemma enter_all_single (es : list entry) : forall rt ys rt',
  single_client rt -> enter_all es rt = (ys, rt') ->
  single_client rt'
  /\ (forall c, _koji_client_session rt = Some c ->
                _koji_client_session rt' = Some c)
  /\ (forall c, Some c ∈ ys -> _koji_client_session rt' = Some c).
Proof.
  induction es as [|e es IH]; simpl; intros rt ys rt' Hinv H.
  - injection H as <- <-. split; [exact Hinv|]. split; [auto|].
    intros c Hc. inversion Hc.
  - assert (Hstep := shared_session_step e rt Hinv).
    destruct (shared_koji_client_session e rt) as [y rt1].
    destruct Hstep as (Hinv1 & Hkeep1 & Hy & _).
    destruct (enter_all es rt1) as [ys1 rt2] eqn:E.
    injection H as <- <-.
    destruct (IH _ _ _ Hinv1 E) as (Hinv2 & Hkeep2 & Hys).
    split; [exact Hinv2|]. split; [auto|].
    intros c Hc. apply elem_of_cons in Hc as [Hc|Hc]; auto.
Qed.

(** X18: however often the shared session is entered, and whichever
    entries fail, the runtime keeps at most one client, every entry that
    yields a session yields that same client, and [gssapi_login] is
    called at most once in the life of the runtime. *)
Theorem shared_session_is_single (es : list entry) (ys : list (option nat))
    (rt : runtime) :
  enter_all es init = (ys, rt) ->
  (clients_built rt <= 1)%nat
  /\ (length (login_calls rt) <= 1)%nat
  /\ (forall c, Some c ∈ ys -> c = 0 /\ _koji_client_session rt = Some 0).
Proof.
  intros H.
  destruct (enter_all_single es init ys rt) as (Hinv & _ & Hys);
    [now split|exact H|].
  unfold single_client in Hinv.
  assert (Hc : forall c, _koji_client_session rt = Some c -> c = 0).
  { intros c E. rewrite E in Hinv. apply Hinv. }
  split; [|split].
  - destruct (_koji_client_session rt); lia.
  - destruct (_koji_client_session rt);
      [destruct Hinv as (_ & _ & [-> | ->])|destruct Hinv as [_ ->]];
      simpl; lia.
  - intros c Hin. assert (E := Hys c Hin).
    assert (c = 0) as -> by auto. auto.
Qed.

Lemma shared_session_is_single_witness :
  login_calls (enter_all failed_login init).2 = [0]
  /\ (enter_all failed_login init).1 = [None; Some 0].
Proof.
  destruct (shared_session_is_single failed_login
              (enter_all failed_login init).1
              (enter_all failed_login init).2 eq_refl) as (_ & _ & _).
  split; reflexivity.
Defined.

End SharedKojiSession.

(** ** Source aliases *)

Section SourceAliases.
Import PyStr Py Text Upstream Records SourceAlias.
Local Open Scope list_scope.

Variable convert_remote_git_to_https : string -> string.
Variable abspath : string -> string.
Variable isdir : string -> string -> option exn.
Variable public_upstreams : list upstream.

Lemma resolution_fields (path : string) (u b : option string)
    (r : SourceResolution) :
  resolution convert_remote_git_to_https public_upstreams path u b = inr r ->
  source_path r = path /\ url r = u /\ branch r = b
  /\ match public_upstreams with
     | [] => public_upstream_url r = None /\ public_upstream_branch r = None
     | _ =>
         otruthy u = true /\ otruthy b = true
         /\ if bool_decide (b = Some "HEAD")
            then public_upstream_url r = None
                 /\ public_upstream_branch r = None
            else is_Some (public_upstream_url r)
                 /\ otruthy (public_upstream_branch r) = true
     end.
Proof.
  unfold resolution. destruct public_upstreams as [|p ps].
  - intros [= <-]. simpl. auto.
  - destruct (otruthy u) eqn:Hu, (otruthy b) eqn:Hb; simpl; try discriminate.
    match goal with
    | |- context [let (_, _) := ?g in _] => destruct g as [pu pb]
    end.
    destruct (bool_decide (b = Some "HEAD")).
    + intros [= <-]. simpl. repeat split; auto.
    + intros [= <-]. simpl. repeat split; auto;
        try (eexists; reflexivity).
      destruct (otruthy pb) eqn:Hpb; simpl; auto.
Qed.

Lemma resolution_succeeds (path : string) (u b : option string) :
  (exists r, resolution convert_remote_git_to_https public_upstreams
               path u b = inr r)
  <-> public_upstreams = [] \/ otruthy u && otruthy b = true.
Proof.
  unfold resolution. destruct public_upstreams as [|p ps].
  - split; [auto|eauto].
  - destruct (otruthy u && otruthy b); simpl.
    + split; [auto|]. intros _.
      match goal with
      | |- context [let (_, _) := ?g in _] => destruct g as [pu pb]
      end.
      destruct (bool_decide _); eauto.
    + split; [intros [r H]; discriminate|].
      intros [H|H]; discriminate.
Qed.

(** X19: once the path is known to be a directory, registering a source
    alias fails exactly when public upstreams are configured and the url
    or the branch could not be read.  When it succeeds, the alias leads
    to a resolution with the absolute path, the url and the branch that
    were read; with public upstreams, a detached head has no public
    upstream whereas a branch always has a public url and a non-empty
    public branch; the other aliases are as before, and the record log
    has one more line. *)
Theorem register_source_alias_outcome (alias path : string)
    (origin head : gathered) (rt : runtime) :
  isdir (abspath path) ("Error registering source alias " +:+ alias) = None ->
  let u := if (rc origin =? 0)%Z then Some (strip (out origin)) else None in
  let b := if (rc head =? 0)%Z then Some (strip (out head)) else None in
  let outcome := register_source_alias convert_remote_git_to_https abspath
                   isdir public_upstreams alias path origin head rt in
  ((exists rt', outcome = inr rt')
   <-> public_upstreams = [] \/ otruthy u && otruthy b = true)
  /\ (forall rt', outcome = inr rt' ->
        (exists r,
            source_resolutions rt' !! alias = Some r
            /\ source_path r = abspath path /\ url r = u /\ branch r = b
            /\ match public_upstreams with
               | [] => public_upstream_url r = None
                       /\ public_upstream_branch r = None
               | _ =>
                   if bool_decide (b = Some "HEAD")
                   then public_upstream_url r = None
                        /\ public_upstream_branch r = None
                   else is_Some (public_upstream_url r)
                        /\ otruthy (public_upstream_branch r) = true
               end)
        /\ (forall a, a <> alias ->
              source_resolutions rt' !! a = source_resolutions rt !! a)
        /\ length (split_char LF (record_log rt'))
           = S (length (split_char LF (record_log rt)))).
Proof.
  intros Hdir u b outcome. subst outcome.
  unfold register_source_alias. rewrite Hdir. fold u b.
  set (origin_url := match u with Some x => hyperlink x | None => "?" end).
  set (kwargs := [("alias", alias); ("origin_url", origin_url);
                  ("branch", or_unknown b); ("path", abspath path)]).
  assert (Hrec : is_Some (add_record "source_alias" kwargs (record_log rt))).
  { apply add_record_one_line_keys. repeat constructor. }
  destruct Hrec as [log Hlog]. rewrite Hlog.
  split.
  - rewrite <- resolution_succeeds with (path := abspath path).
    destruct (resolution _ _ _ _ _) as [e|r].
    + split; intros [x H]; discriminate.
    + split; eauto.
  - intros rt' H.
    destruct (resolution _ _ _ _ _) as [e|r] eqn:Hres; [discriminate|].
    injection H as <-. simpl.
    apply resolution_fields in Hres as (Hp & Hu & Hb & Hpub).
    split; [|split].
    + exists r. rewrite lookup_insert_eq. repeat split; auto.
      destruct public_upstreams; [exact Hpub|apply Hpub].
    + intros a Ha. now rewrite lookup_insert_ne.
    + now destruct (add_record_grows _ _ _ _ Hlog eq_refl)
        as (_ & _ & _ & _ & Hlen).
Qed.

End SourceAliases.

Section SourceAliasExample.
Import PyStr Py Text Upstream Records SourceAlias.
Local Open Scope list_scope.

Lemma register_source_alias_outcome_witness :
  exists rt',
    register_source_alias Util.convert_remote_git_to_https (fun p => p)
      (fun _ _ => None) [] "origin" "/src/origin"
      origin_checkout.1 origin_checkout.2 fresh = inr rt'.
Proof.
  apply (register_source_alias_outcome Util.convert_remote_git_to_https
           (fun p => p) (fun _ _ => None) [] "origin" "/src/origin"
           origin_checkout.1 origin_checkout.2 fresh eq_refl).
  now left.
Defined.

End SourceAliasExample.

(** ** Modes of group members *)

Section MemberModes.
Import PyStr Py Modes.
Local Open Scope list_scope.

(** X20: for a member that is enabled, work in progress or disabled, or
    has no mode, the filter chosen at initialisation and the test of
    [late_resolve_image] agree whatever the two flags are.  For a member
    with any other mode they differ: [late_resolve_image] never turns it
    down, whereas the filter only lets it pass when both flags are set. *)
Theorem late_resolve_agrees_with_filter (load_wip load_disabled : bool)
    (d : option string) :
  (mode_of d ∈ ["enabled"; "wip"; "disabled"] ->
   passes (filter_func load_wip load_disabled) d
   = negb (turned_down load_wip load_disabled d))
  /\ (mode_of d ∉ ["enabled"; "wip"; "disabled"] ->
      turned_down load_wip load_disabled d = false
      /\ passes (filter_func load_wip load_disabled) d
         = load_wip && load_disabled).
Proof.
  unfold passes, filter_func, turned_down, filter_wip, filter_disabled,
    filter_enabled.
  split.
  - intros H. repeat (apply elem_of_cons in H as [E|H]);
      [..|inversion H]; destruct load_wip, load_disabled; simpl;
      rewrite ?E; reflexivity.
  - intros H.
    assert (H1 : mode_of d <> "enabled") by (intros E; apply H; rewrite E; now left).
    assert (H2 : mode_of d <> "wip")
      by (intros E; apply H; rewrite E; right; now left).
    assert (H3 : mode_of d <> "disabled")
      by (intros E; apply H; rewrite E; right; right; now left).
    assert (E1 : bool_decide (mode_of d ∈ ["wip"; "enabled"]) = false).
    { apply bool_decide_eq_false. intros Hin.
      repeat (apply elem_of_cons in Hin as [Hin|Hin]); try congruence.
      inversion Hin. }
    assert (E2 : bool_decide (mode_of d ∈ ["enabled"; "disabled"]) = false).
    { apply bool_decide_eq_false. intros Hin.
      repeat (apply elem_of_cons in Hin as [Hin|Hin]); try congruence.
      inversion Hin. }
    rewrite (bool_decide_eq_false_2 _ H2), (bool_decide_eq_false_2 _ H3).
    split; [reflexivity|].
    destruct load_wip, load_disabled; simpl; auto.
    now apply bool_decide_eq_false.
Qed.

Lemma late_resolve_agrees_with_filter_witness :
  passes (filter_func true false) (Some "wip")
  = negb (turned_down true false (Some "wip")).
Proof.
  apply (late_resolve_agrees_with_filter true false (Some "wip")).
  apply (bool_decide_unpack _). vm_compute. exact I.
Defined.

End MemberModes.

(** ** Payload images *)

Section PayloadImages.
Import PyStr Py Payload.
Local Open Scope list_scope.

Lemma add_payload_all (image_metas : list ImageMetadata) :
  forall acc payload_images,
  for_each add_payload image_metas acc = inr payload_images ->
  payload_images = acc ++ filter (fun i => is_payload i = true) image_metas
  /\ Forall (fun i => is_payload i = true ->
                      startswith (image_name_short i) "ose-" = true)
      image_metas.
Proof.
  induction image_metas as [|i l IH]; simpl; intros acc res H.
  - injection H as <-. rewrite app_nil_r. split; [reflexivity|constructor].
  - unfold add_payload in H at 1. rewrite filter_cons.
    destruct (is_payload i) eqn:Hp.
    + destruct (startswith (image_name_short i) "ose-") eqn:Hs;
        simpl in H; [|discriminate].
      apply IH in H as [-> Hall]. split.
      * destruct (decide (true = true)); [|congruence].
        now rewrite <- app_assoc.
      * constructor; [auto|exact Hall].
    + apply IH in H as [-> Hall]. split.
      * destruct (decide (false = true)); [discriminate|reflexivity].
      * constructor; [intros; congruence|exact Hall].
Qed.

Lemma add_payload_named (image_metas : list ImageMetadata) : forall acc,
  Forall (fun i => is_payload i = true ->
                   startswith (image_name_short i) "ose-" = true)
    image_metas ->
  exists payload_images,
    for_each add_payload image_metas acc = inr payload_images.
Proof.
  induction image_metas as [|i l IH]; simpl; intros acc H; [eauto|].
  apply Forall_cons in H as [Hi H]. unfold add_payload at 1.
  destruct (is_payload i); [rewrite Hi by reflexivity; simpl|]; auto.
Qed.

(** X21: the payload images are returned exactly when every image that
    is marked for the payload has a short name starting with [ose-]; the
    names of the other images do not matter.  What is returned are the
    images marked for the payload, in the order of the image map. *)
Theorem get_payload_image_metas_named (image_metas : list ImageMetadata) :
  ((exists payload_images,
       get_payload_image_metas image_metas = inr payload_images)
   <-> Forall (fun i => is_payload i = true ->
                        startswith (image_name_short i) "ose-" = true)
         image_metas)
  /\ (forall payload_images,
        get_payload_image_metas image_metas = inr payload_images ->
        payload_images = filter (fun i => is_payload i = true) image_metas).
Proof.
  unfold get_payload_image_metas. split; [split|].
  - intros [res H]. now apply add_payload_all in H.
  - apply add_payload_named.
  - intros res H. now apply add_payload_all in H as [-> _].
Qed.

Lemma get_payload_image_metas_named_witness :
  get_payload_image_metas cli_and_base = inr (list.drop 1 cli_and_base).
Proof.
  destruct (get_payload_image_metas_named cli_and_base) as [_ H].
  destruct (get_payload_image_metas cli_and_base) as [e|l] eqn:E;
    [vm_compute in E; discriminate|].
  rewrite (H l eq_refl). reflexivity.
Defined.

End PayloadImages.

(** ** The head of a source checkout *)

Section CheckoutHead.
Import PyStr Py Text SourceHead.
Local Open Scope list_scope.

Lemma rev_app_app (s t acc : string) :
  String.rev_app (s +:+ t) acc = String.rev_app t (String.rev_app s acc).
Proof.
  revert acc. induction s as [|a s IH]; intros acc; [reflexivity|].
  change (String a s +:+ t) with (String a (s +:+ t)). simpl. apply IH.
Qed.

Lemma rev_app_rev_app (s acc acc' : string) :
  String.rev_app (String.rev_app s acc) acc'
  = String.rev_app acc (s +:+ acc').
Proof.
  revert acc acc'. induction s as [|a s IH]; intros acc acc'; [reflexivity|].
  simpl String.rev_app at 2. rewrite IH. reflexivity.
Qed.

Lemma rev_snoc (s : string) (c : ascii) :
  String.rev (s +:+ String c "") = String c (String.rev s).
Proof. unfold String.rev. now rewrite rev_app_app. Qed.

Lemma rev_rev (s : string) : String.rev (String.rev s) = s.
Proof.
  unfold String.rev. rewrite rev_app_rev_app. simpl. apply append_empty_r.
Qed.

Lemma rstrip_by_keeps (p : ascii -> bool) (s : string) (c : ascii) :
  p c = false -> rstrip_by p (s +:+ String c "") = s +:+ String c "".
Proof.
  intros Hc. unfold rstrip_by. rewrite rev_snoc. simpl. rewrite Hc.
  now rewrite <- rev_snoc, rev_rev.
Qed.

Lemma rstrip_by_drops (p : ascii -> bool) (s : string) (c : ascii) :
  p c = true -> rstrip_by p (s +:+ String c "") = rstrip_by p s.
Proof.
  intros Hc. unfold rstrip_by. rewrite rev_snoc. simpl. now rewrite Hc.
Qed.

Lemma strip_line (x c : ascii) (s : string) :
  isspace x = false -> isspace c = false ->
  strip ((String x s +:+ String c "") +:+ String LF "")
  = String x s +:+ String c "".
Proof.
  intros Hx Hc. unfold strip.
  change ((String x s +:+ String c "") +:+ String LF "")
    with (String x ((s +:+ String c "") +:+ String LF "")).
  simpl lstrip_by. rewrite Hx.
  change (String x ((s +:+ String c "") +:+ String LF ""))
    with ((String x s +:+ String c "") +:+ String LF "").
  rewrite rstrip_by_drops by reflexivity.
  now apply rstrip_by_keeps.
Qed.

Lemma split_n_zero (c : ascii) (s : string) : split_n c s 0 = [s].
Proof. now destruct s. Qed.

Lemma split_n_nonempty (c : ascii) (s : string) (n : nat) :
  split_n c s n <> [].
Proof.
  destruct s as [|d s]; simpl; [discriminate|].
  destruct n; [discriminate|].
  destruct (Ascii.eqb c d); [discriminate|].
  destruct (split_n c s (S n)); discriminate.
Qed.

Lemma split_n_cut (c : ascii) (a rest : string) (n : nat) :
  no_char c a = true ->
  split_n c (a +:+ String c rest) (S n) = a :: split_n c rest n.
Proof.
  unfold no_char. induction a as [|d a IH]; intros H.
  - simpl. now rewrite Ascii.eqb_refl.
  - simpl in H. apply andb_true_iff in H as [Hd Ha].
    change (String d a +:+ String c rest)
      with (String d (a +:+ String c rest)).
    cbn [split_n]. rewrite (IH Ha).
    destruct (Ascii.eqb c d); [discriminate|reflexivity].
Qed.

(** X22: for a checkout whose [.git/HEAD] holds the line
    [ref: refs/heads/] followed by a branch name that does not end in
    white space, [resolve_source_head] returns that branch name whole,
    slashes included; for a line that does not start with [ref:], such as
    a commit hash, it returns the line without its line feed. *)
Theorem resolve_source_head_reads_branch
    (path_join : string -> string -> string) (read : string -> string)
    (source_dir name : string) (c : ascii) :
  truthy source_dir = true -> isspace c = false ->
  let line := name +:+ String c "" in
  (read (path_join source_dir ".git/HEAD")
   = ("ref: refs/heads/" +:+ line) +:+ String LF "" ->
   resolve_source_head path_join read (Some source_dir) = inr (Some line))
  /\ (read (path_join source_dir ".git/HEAD") = line +:+ String LF "" ->
      isspace (hd c (list_ascii_of_string name)) = false ->
      startswith line "ref:" = false ->
      resolve_source_head path_join read (Some source_dir)
      = inr (Some line)).
Proof.
  intros Hdir Hc line. unfold resolve_source_head. simpl otruthy.
  rewrite Hdir. simpl negb. cbv iota. simpl default. split.
  - intros ->.
    assert (E : strip (("ref: refs/heads/" +:+ line) +:+ String LF "")
                = "ref: refs/heads/" +:+ line).
    { subst line.
      rewrite <- (append_assoc "ref: refs/heads/" name (String c "")).
      change ("ref: refs/heads/" +:+ name)
        with (String "r" ("ef: refs/heads/" +:+ name)).
      now apply strip_line. }
    rewrite E.
    change (startswith ("ref: refs/heads/" +:+ line) "ref:") with true.
    cbv iota.
    change ("ref: refs/heads/" +:+ line)
      with ("ref: refs" +:+ String "/" ("heads" +:+ String "/" line)).
    rewrite split_n_cut by reflexivity.
    rewrite split_n_cut by reflexivity.
    now rewrite split_n_zero.
  - intros -> Hfirst Hnot.
    assert (E : strip (line +:+ String LF "") = line).
    { subst line. destruct name as [|x name].
      - unfold strip.
        change (("" +:+ String c "") +:+ String LF "")
          with (String c (String LF "")).
        simpl lstrip_by. rewrite Hc.
        change (String c (String LF ""))
          with (String c "" +:+ String LF "").
        rewrite rstrip_by_drops by reflexivity.
        exact (rstrip_by_keeps isspace "" c Hc).
      - simpl in Hfirst. now apply strip_line. }
    rewrite E, Hnot. reflexivity.
Qed.

Lemma resolve_source_head_reads_branch_witness :
  resolve_source_head (fun d f => d +:+ "/" +:+ f)
    (fun _ => ("ref: refs/heads/" +:+ "feature/x") +:+ String LF "")
    (Some "/src/origin")
  = inr (Some "feature/x").
Proof.
  destruct (resolve_source_head_reads_branch (fun d f => d +:+ "/" +:+ f)
              (fun _ => ("ref: refs/heads/" +:+ "feature/x") +:+ String LF "")
              "/src/origin" "feature/" "x" eq_refl eq_refl) as [H _].
  apply H. reflexivity.
Defined.

End CheckoutHead.

(** ** Cloning with a cache *)

Section CloneArguments.
Import PyStr Py Text GitClone.
Local Open Scope list_scope.

Variable convert_remote_git_to_https : string -> string.
Variable path_join : string -> string -> string.
Variable cache_dir : option string.
Variable user : option string.

Local Abbreviation clone :=
  (git_clone convert_remote_git_to_https path_join cache_dir user).
Local Abbreviation added :=
  (added_args convert_remote_git_to_https path_join cache_dir user).

Ltac run_clone :=
  unfold git_clone, init_cache, with_lock, bind, emit, may_raise,
    or_new_list, extend, read_list, ret, raise, added_args.

Lemma git_clone_grows (w : world) (remote_url target_dir : string)
    (a : nat) (set_env : option (list (string * string))) (timeout : Z)
    (st : store) (l : list string) :
  st !! a = Some l -> l <> [] ->
  let run := clone w remote_url target_dir (Some a) set_env timeout st in
  (forall a', a' <> a -> run.1.1 !! a' = st !! a')
  /\ (run.2 = inr tt ->
      run.1.1 !! a = Some (l ++ added remote_url)
      /\ last run.1.2
         = Some (CmdArgs
                   ((if bool_decide (timeout <> 0%Z)
                     then ["timeout"; pretty timeout] else [])
                    ++ ["git"; "clone"; remote_url]
                    ++ (l ++ added remote_url) ++ [target_dir])
                   3 ["rm"; "-rf"; target_dir] (default [] set_env))).
Proof.
  intros Hst Hne. assert (Hlt := lookup_lt_Some _ _ _ Hst).
  destruct l as [|x l]; [congruence|]. clear Hne.
  destruct w as [eb tmp ir rr rn ea cr]. cbv zeta. run_clone. simpl.
  rewrite Hst.
  destruct (otruthy cache_dir), eb, ir, rr, rn, ea, cr; simpl;
    repeat (rewrite ?Hst, ?list_lookup_insert_eq
              by (rewrite ?length_insert; exact Hlt); simpl).
  all: split;
    [intros a' Ha';
     now rewrite ?list_lookup_insert_ne by (intros E; now apply Ha')
    |intros H;
     first [discriminate H
           |split; rewrite <- ?app_assoc; reflexivity]].
Qed.

(** X23: [git_clone] works on the list that the caller passes as
    [gitargs] when that list is not empty: after a call that returns, the
    list of the caller holds the arguments that the call added, no other
    list has changed, and the clone command was given the list so
    extended.  A second call with the same list therefore passes the added
    arguments twice. *)
Theorem git_clone_extends_callers_list (w w' : world)
    (remote_url target_dir : string) (a : nat)
    (set_env : option (list (string * string))) (timeout : Z)
    (st : store) (l : list string) :
  st !! a = Some l -> l <> [] ->
  let command args :=
    CmdArgs ((if bool_decide (timeout <> 0%Z)
              then ["timeout"; pretty timeout] else [])
             ++ ["git"; "clone"; remote_url] ++ args ++ [target_dir])
      3 ["rm"; "-rf"; target_dir] (default [] set_env) in
  let first := clone w remote_url target_dir (Some a) set_env timeout st in
  first.2 = inr tt ->
  first.1.1 !! a = Some (l ++ added remote_url)
  /\ (forall a', a' <> a -> first.1.1 !! a' = st !! a')
  /\ last first.1.2 = Some (command (l ++ added remote_url))
  /\ let second := clone w' remote_url target_dir (Some a) set_env timeout
                     first.1.1 in
     (second.2 = inr tt ->
      second.1.1 !! a = Some (l ++ added remote_url ++ added remote_url)
      /\ last second.1.2
         = Some (command (l ++ added remote_url ++ added remote_url))).
Proof.
  intros Hst Hne command first Hok.
  destruct (git_clone_grows w remote_url target_dir a set_env timeout st l
              Hst Hne) as [Hothers Hgrow].
  destruct (Hgrow Hok) as [Ha Hcmd]. fold first in Ha, Hcmd, Hothers.
  split; [exact Ha|]. split; [exact Hothers|]. split; [exact Hcmd|].
  intros second Hok2.
  assert (Hne2 : l ++ added remote_url <> []).
  { destruct l; [congruence|discriminate]. }
  destruct (git_clone_grows w' remote_url target_dir a set_env timeout
              first.1.1 _ Ha Hne2) as [_ Hgrow2].
  destruct (Hgrow2 Hok2) as [Ha2 Hcmd2]. fold second in Ha2, Hcmd2.
  rewrite <- (app_assoc l (added remote_url) (added remote_url))
    in Ha2, Hcmd2.
  split; [exact Ha2|exact Hcmd2].
Qed.

Lemma insert_last (st : store) (y z : list string) :
  <[length st := y]> (st ++ [z]) = st ++ [y].
Proof.
  induction st as [|x st IH]; simpl; [reflexivity|]. now rewrite IH.
Qed.

Lemma lookup_last (st : store) (z : list string) :
  (st ++ [z]) !! length st = Some z.
Proof. induction st as [|x st IH]; simpl; auto. Qed.

(** X24: a caller that passes no list, or an empty one, keeps its lists
    as they are: [git_clone] then works on a list of its own, and all
    lists that existed before the call are unchanged after it, whether the
    call returns or raises. *)
Theorem git_clone_spares_empty_list (w : world)
    (remote_url target_dir : string) (gitargs : option nat)
    (set_env : option (list (string * string))) (timeout : Z)
    (st : store) :
  (forall a, gitargs = Some a -> st !! a = Some []) ->
  exists args,
    (clone w remote_url target_dir gitargs set_env timeout st).1.1
    = st ++ [args].
Proof.
  intros Hempty. destruct w as [eb tmp ir rr rn ea cr]. run_clone. simpl.
  destruct gitargs as [a|]; [rewrite (Hempty a eq_refl)|];
    destruct (otruthy cache_dir), eb, ir, rr, rn, ea, cr; simpl;
    repeat (rewrite ?insert_last, ?lookup_last; simpl); eauto.
Qed.

End CloneArguments.

Section CloneExample.
Import PyStr Py Text GitClone.
Local Open Scope list_scope.

Lemma git_clone_extends_callers_list_witness :
  (git_clone Util.convert_remote_git_to_https (fun d f => d +:+ "/" +:+ f)
     None None warm_cache "https://github.com/openshift/origin" "/src/origin"
     (Some 0) None 0 [["--branch"; "main"]]).1.1
  = [["--branch"; "main"; "--recurse-submodules"]].
Proof.
  destruct (git_clone_extends_callers_list Util.convert_remote_git_to_https
              (fun d f => d +:+ "/" +:+ f) None None warm_cache warm_cache
              "https://github.com/openshift/origin" "/src/origin" 0 None 0
              [["--branch"; "main"]] ["--branch"; "main"] eq_refl)
    as (_ & _ & _ & _); [discriminate|reflexivity|].
  reflexivity.
Defined.

Lemma git_clone_spares_empty_list_witness :
  exists args,
    (git_clone Util.convert_remote_git_to_https (fun d f => d +:+ "/" +:+ f)
       None None warm_cache "https://github.com/openshift/origin"
       "/src/origin" (Some 0) None 0 [[]]).1.1
    = [[]] ++ [args].
Proof.
  apply (git_clone_spares_empty_list Util.convert_remote_git_to_https
           (fun d f => d +:+ "/" +:+ f) None None warm_cache
           "https://github.com/openshift/origin" "/src/origin" (Some 0)
           None 0 [[]]).
  intros a [= <-]. reflexivity.
Defined.

End CloneExample.

(** ** Hyperlinks of source aliases *)

Section AliasHyperlinks.
Import PyStr Py Text SourceAlias.
Local Open Scope list_scope.

Lemma replace_first_cut (c : ascii) (new a rest : string) :
  no_char c a = true ->
  replace_first c new (a +:+ String c rest) = a +:+ new +:+ rest.
Proof.
  unfold no_char. induction a as [|d a IH]; intros H.
  - simpl. now rewrite Ascii.eqb_refl.
  - simpl in H. apply andb_true_iff in H as [Hd Ha].
    change (String d a +:+ String c rest)
      with (String d (a +:+ String c rest)).
    cbn [replace_first]. rewrite (IH Ha).
    destruct (Ascii.eqb c d); [discriminate|reflexivity].
Qed.

Lemma length_append (s t : string) :
  String.length (s +:+ t) = String.length s + String.length t.
Proof. induction s as [|d s IH]; simpl; [reflexivity|]. now rewrite IH. Qed.

Lemma take_append (s t : string) : take (String.length s) (s +:+ t) = s.
Proof.
  induction s as [|d s IH]; simpl; [now destruct t|]. now rewrite IH.
Qed.

Lemma endswith_git (s : string) : endswith (s +:+ ".git") ".git" = true.
Proof.
  unfold endswith, String.rev. rewrite rev_app_app. simpl.
  now destruct (String.rev_app s "").
Qed.

(** X25: the hyperlink recorded for an origin of the form
    [git@host:path.git], with no colon in the host, is
    [https://host/path]; an origin that does not start with [git@] is
    recorded as it is. *)
Theorem hyperlink_of_ssh_origin (host path origin_url : string) :
  (no_char ":" host = true ->
   hyperlink ("git@" +:+ host +:+ String ":" (path +:+ ".git"))
   = "https://" +:+ host +:+ "/" +:+ path)
  /\ (startswith origin_url "git@" = false ->
      hyperlink origin_url = origin_url).
Proof.
  split.
  - intros Hhost. unfold hyperlink.
    unfold startswith. rewrite prefix_self_app.
    change (drop 4 ("git@" +:+ host +:+ String ":" (path +:+ ".git")))
      with (host +:+ String ":" (path +:+ ".git")).
    rewrite (replace_first_cut ":" "/" host _ Hhost).
    change ("/" +:+ path +:+ ".git") with (String "/" (path +:+ ".git")).
    assert (E : host +:+ String "/" (path +:+ ".git")
                = (host +:+ String "/" path) +:+ ".git").
    { now rewrite append_assoc. }
    rewrite E, endswith_git, length_append.
    replace (String.length (host +:+ String "/" path) + String.length ".git" - 4)
      with (String.length (host +:+ String "/" path)) by (simpl; lia).
    now rewrite take_append.
  - intros H. unfold hyperlink. now rewrite H.
Qed.

Lemma hyperlink_of_ssh_origin_witness :
  hyperlink "git@github.com:openshift/origin.git"
  = "https://github.com/openshift/origin".
Proof.
  destruct (hyperlink_of_ssh_origin "github.com" "openshift/origin" "")
    as [H _].
  apply H. reflexivity.
Defined.

End AliasHyperlinks.

(** ** Keys of directory locks *)

Section DirectoryKeys.
Import PyStr Py Text Semaphores.
Local Open Scope list_scope.

Lemma count_leading_app (c : ascii) (s t : string) :
  all_chars (Ascii.eqb c) s = false ->
  count_leading c (s +:+ t) = count_leading c s.
Proof.
  induction s as [|d s IH]; simpl; [discriminate|].
  destruct (Ascii.eqb c d); simpl; [|reflexivity].
  intros H. now rewrite IH.
Qed.

Lemma count_leading_length (c : ascii) (s : string) :
  count_leading c s <= String.length s.
Proof.
  induction s as [|d s IH]; simpl; [lia|].
  destruct (Ascii.eqb c d); lia.
Qed.

Lemma drop_append (n : nat) (s t : string) :
  n <= String.length s -> drop n (s +:+ t) = drop n s +:+ t.
Proof.
  revert s. induction n as [|n IH]; intros s H; [reflexivity|].
  destruct s as [|d s]; simpl in *; [lia|]. apply IH. lia.
Qed.

Lemma split_char_snoc (c : ascii) (x : string) :
  split_char c (x +:+ String c "") = split_char c x ++ [""].
Proof.
  rewrite split_char_app. simpl. rewrite Ascii.eqb_refl, append_empty_r.
  assert (Hne := split_char_nonempty c x).
  rewrite (app_removelast_last "" Hne) at 3.
  now rewrite <- app_assoc.
Qed.

Lemma parse_path_trailing_slash (s : string) :
  all_chars (Ascii.eqb "/") s = false ->
  parse_path (s +:+ "/") = parse_path s.
Proof.
  intros H. unfold parse_path.
  rewrite (count_leading_app _ _ _ H).
  rewrite drop_append by apply count_leading_length.
  rewrite split_char_snoc, filter_app. simpl.
  rewrite filter_cons, filter_nil. simpl. now rewrite app_nil_r.
Qed.

(** X26: in directory mode a trailing slash never matters: for every
    path that is not made of slashes only, the path and the path
    followed by a slash have the same key, so a request for one is
    answered with the object of an earlier request for the other.  A path
    that starts with a slash has the same key in every working
    directory, and the key of a directory is never the reserved key of
    the registry. *)
Theorem directory_key_ignores_trailing_slash (cwd cwd' s : string) :
  (all_chars (Ascii.eqb "/") s = false ->
   normalized_key cwd (s +:+ "/") true = normalized_key cwd s true
   /\ forall (rt : runtime) (n1 n2 : nat) (others : list call),
        let first := {| call_cwd := cwd; lock_name := s; is_dir := true;
                        count := n1 |} in
        let later := {| call_cwd := cwd; lock_name := s +:+ "/";
                        is_dir := true; count := n2 |} in
        fst (do_call later (run others (snd (do_call first rt))))
        = fst (do_call first rt))
  /\ (startswith s "/" = true ->
      normalized_key cwd s true = normalized_key cwd' s true)
  /\ normalized_key cwd s true <> "".
Proof.
  split; [|split].
  - intros H.
    assert (E : normalized_key cwd (s +:+ "/") true
                = normalized_key cwd s true).
    { unfold normalized_key. now rewrite parse_path_trailing_slash. }
    split; [exact E|].
    intros rt n1 n2 others first later. apply do_call_bound.
    assert (Hkey : call_key later = call_key first) by exact E.
    rewrite Hkey. apply run_keeps, do_call_binds.
  - intros H. unfold normalized_key, absolute, parse_path.
    destruct s as [|d s]; [discriminate|].
    unfold startswith in H. cbn [String.prefix] in H.
    destruct (ascii_dec "/" d) as [<-|]; [|discriminate].
    simpl count_leading. cbv zeta.
    destruct (count_leading "/" s) as [|[|n]]; reflexivity.
  - unfold normalized_key. discriminate.
Qed.

Lemma directory_key_ignores_trailing_slash_witness :
  normalized_key "/home" ("work/sources" +:+ "/") true
  = normalized_key "/home" "work/sources" true.
Proof.
  destruct (directory_key_ignores_trailing_slash "/home" "/"
              "work/sources") as [H _].
  apply H. reflexivity.
Defined.

End DirectoryKeys.

(** ** The reference of a remote branch *)

Section RemoteReference.
Import PyStr Py Branch.
Local Open Scope list_scope.

Lemma rev_app_spec (s acc : string) :
  String.rev_app s acc = String.rev_app s "" +:+ acc.
Proof.
  revert acc. induction s as [|a s IH]; intros acc; [reflexivity|].
  simpl. rewrite (IH (String a acc)), (IH (String a "")).
  now rewrite append_assoc.
Qed.

Lemma lstrip_by_head (p : ascii -> bool) (s : string) (c : ascii)
    (t : string) :
  lstrip_by p s = String c t -> p c = false.
Proof.
  induction s as [|d s IH]; simpl; [discriminate|].
  destruct (p d) eqn:E; [exact IH|]. now intros [= <- _].
Qed.

Lemma lstrip_by_suffix (p : ascii -> bool) (s : string) :
  exists w, s = w +:+ lstrip_by p s.
Proof.
  induction s as [|d s [w IH]]; simpl; [now exists ""|].
  destruct (p d).
  - exists (String d w).
    change (String d s = String d (w +:+ lstrip_by p s)). now rewrite <- IH.
  - now exists "".
Qed.

Lemma rstrip_by_prefix (p : ascii -> bool) (s : string) :
  exists v, s = rstrip_by p s +:+ v.
Proof.
  unfold rstrip_by.
  destruct (lstrip_by_suffix p (String.rev s)) as [w E].
  exists (String.rev w). rewrite <- (rev_rev s) at 1. rewrite E at 1.
  unfold String.rev at 1. rewrite rev_app_app.
  fold (String.rev w). now rewrite rev_app_spec.
Qed.

Lemma strip_head (s : string) (c : ascii) (t : string) :
  strip s = String c t -> isspace c = false.
Proof.
  unfold strip. intros E.
  destruct (rstrip_by_prefix isspace (lstrip_by isspace s)) as [v Hv].
  rewrite E in Hv. simpl in Hv. now apply lstrip_by_head in Hv.
Qed.

Lemma first_token_clean (s : string) :
  all_chars (fun c => negb (isspace c)) (first_token s) = true.
Proof.
  induction s as [|c s IH]; simpl; [reflexivity|].
  destruct (isspace c) eqn:E; simpl; [reflexivity|]. now rewrite E.
Qed.

(** X27: a reference that [_get_remote_branch_ref] returns is never
    empty.  It is either the branch as it was given, when the remote
    printed nothing and the branch reads as a commit hash, or the first
    word of what the remote printed, which has no white space in it. *)
Theorem remote_branch_ref_is_a_word
    (ls_remote : string -> string -> option string)
    (git_url branch ref : string) :
  snd (_get_remote_branch_ref ls_remote git_url branch) = inr (Some ref) ->
  truthy ref = true
  /\ ((ref = branch /\ is_branch_commit_hash branch = true)
      \/ all_chars (fun c => negb (isspace c)) ref = true).
Proof.
  unfold _get_remote_branch_ref. cbn [snd].
  destruct (ls_remote git_url branch) as [out|]; [|discriminate].
  destruct (strip out) as [|c t] eqn:Hout; cbn [truthy negb andb].
  - destruct (is_branch_commit_hash branch) eqn:Hb; [|discriminate].
    intros [= <-]. split; [|now left].
    destruct branch; [discriminate Hb|reflexivity].
  - intros [= <-]. apply strip_head in Hout. split.
    + simpl. now rewrite Hout.
    + right. exact (first_token_clean (String c t)).
Qed.

Lemma remote_branch_ref_is_a_word_witness :
  truthy "7e66b10f" = true.
Proof.
  apply (remote_branch_ref_is_a_word
           (fun _ _ => Some ("7e66b10f" +:+ " refs/heads/main"))
           "https://example.com/repo" "main" "7e66b10f").
  reflexivity.
Defined.

End RemoteReference.
